(** * luxfi/cache: recency-ordered, capacity-bounded caches

    A shallow embedding of the cache implementations of the repository
    and the properties of its specification:

    - [lru]        : lru/lru.go, the entry-count bounded cache;
    - [sized]      : the size bounded [SizedCache] of package lru;
    - [lru_any], [sized_any] : the same two stores at an arbitrary
                     comparable key type, with their pointers;
    - [bytecache]  : the sharded byte cache of package bytecache;
    - [container]  : the LRU store of github.com/luxfi/container that
                     lru/cache.go delegates to;
    - [lrucontainer] : lru/cache.go, the mutex-guarded wrapper around it;
    - [dualmap]    : the [DualMapCache] of package cache.

    Representation.  A Go [map[K]*list.Element] together with its
    [container/list] is a store of entries addressed by pointers.  At a
    key type where [==] is the identity of values (integers, strings)
    an entry never changes its key and a key names at most one entry, so
    an element pointer is represented by the key of the entry it
    carries: the map sends a key to the payload of its entry and the
    list is the sequence of elements, front first.  Both structures are
    kept, and every statement of the source that touches one of them is
    kept.  This is the representation of [lru] and [sized], the two
    stores of package lru at such a key type, and of [bytecache], whose
    keys are strings.  At a key type where [==] is not reflexive
    (a floating point NaN is not equal to itself) a key can name several
    entries that no lookup finds; [lru_any] and [sized_any] keep the
    pointers, the heap of entries and the map as Go has them, and assume
    of [==] only that it is symmetric and transitive. *)

From Stdlib Require Import ZArith QArith Qcanon Strings.Byte Floats.SpecFloat.
From stdpp Require Import gmap strings list fin_maps numbers.

Close Scope Q_scope.
Close Scope Qc_scope.

Local Open Scope Z_scope.

(** ** Go machine integers *)

Module goint.

(** [int] and [int64] on the 64-bit targets: two's complement. *)
Definition wrap64 (z : Z) : Z := (z + 2 ^ 63) `mod` 2 ^ 64 - 2 ^ 63.

(** [uint64], the type of the atomic counters. *)
Definition wrapU64 (z : Z) : Z := z `mod` 2 ^ 64.

Definition add (a b : Z) : Z := wrap64 (a + b).
Definition sub (a b : Z) : Z := wrap64 (a - b).

(** [atomic.AddUint64(&x, 1)] *)
Definition AddUint64 (x delta : Z) : Z := wrapU64 (x + delta).

Definition in_int (z : Z) : Prop := - 2 ^ 63 ≤ z < 2 ^ 63.

End goint.

(** ** float64

    [PortionFilled] converts two ints to float64 and divides them.
    Conversion and division are those of IEEE-754 binary64, rounding to
    nearest, ties to even, as specified by [SpecFloat] of the standard
    library at precision 53 and maximal exponent 1024.  A float64 value
    is represented by the rational that it denotes (the two zeros by
    0), or by one of the special values. *)

Inductive float64 : Type :=
  | Finite (q : Qc)
  | PosInf
  | NegInf
  | NaN.

(** [float64(z)] for an int [z] *)
Definition float64_of_int (z : Z) : spec_float :=
  binary_normalize 53 1024 z 0 false.

(** The value of a binary64 number: [m * 2 ^ e] with its sign. *)
Definition float64_of_spec (x : spec_float) : float64 :=
  match x with
  | S754_zero _ => Finite 0%Qc
  | S754_infinity s => if s then NegInf else PosInf
  | S754_nan => NaN
  | S754_finite s m e =>
      let v := (inject_Z (Z.pos m) * Qpower 2 e)%Q in
      Finite (Q2Qc (if s then Qopp v else v))
  end.

(** [float64(a) / float64(b)] for ints [a] and [b]. *)
Definition float64_div (a b : Z) : float64 :=
  float64_of_spec (SFdiv 53 1024 (float64_of_int a) (float64_of_int b)).

(** ** container/list

    The doubly linked list of the Go standard library, front first.  An
    element is named by the key it carries in [lru], [sized] and
    [container], and by its pointer in [lru_any] and [sized_any]. *)

Module golist.
Section golist.
Context {A : Type} `{EqDecision A}.

(** [list.New()] and [l.Init()] *)
Definition Init : list A := [].

Definition Len (l : list A) : Z := Z.of_nat (length l).

(** [l.Back()]: the last element, [None] for nil. *)
Definition Back (l : list A) : option A := list.last l.

(** [l.Front()] *)
Definition Front (l : list A) : option A := list.head l.

Definition PushFront (x : A) (l : list A) : list A := x :: l.

(** [l.Remove(e)]: unlinks [e] when it is an element of [l]. *)
Fixpoint Remove (x : A) (l : list A) : list A :=
  match l with
  | [] => []
  | y :: l' => if decide (x = y) then l' else y :: Remove x l'
  end.

(** [l.MoveToFront(e)]: nothing to do when [e] is not an element of
    [l] or is already its front. *)
Definition MoveToFront (x : A) (l : list A) : list A :=
  if decide (x ∈ l) then
    if decide (Front l = Some x) then l else x :: Remove x l
  else l.

End golist.
End golist.

(** ** lru/lru.go: the entry-count bounded cache

    Every exported method holds the mutex of the cache for its whole body
    and calls no other exported method, so a method is modelled by its
    body.  The key type is one where [==] is the identity of values;
    [lru_any] below is the cache at any comparable key type. *)

Module lru.
Section lru.
Context {K V : Type} `{Countable K}.
(** The zero value of [V], returned on a miss. *)
Variable zero : V.

Record Cache : Type := mkCache {
  size : Z;
  elements : gmap K V;
  order : list K;
}.

Definition NewCache (size : Z) : Cache :=
  let size := if size <=? 0 then 1 else size in
  {| size := size; elements := ∅; order := golist.Init |}.

Definition removeElement (c : Cache) (elem : K) : Cache :=
  {| size := size c;
     elements := delete elem (elements c);
     order := golist.Remove elem (order c) |}.

Definition Put (c : Cache) (key : K) (value : V) : Cache :=
  match elements c !! key with
  | Some _ =>
      (* Update existing entry *)
      {| size := size c;
         elements := <[key := value]> (elements c);
         order := golist.MoveToFront key (order c) |}
  | None =>
      (* Evict oldest if at capacity *)
      let c1 :=
        if golist.Len (order c) >=? size c then
          match golist.Back (order c) with
          | Some oldest => removeElement c oldest
          | None => c
          end
        else c in
      (* Add new entry *)
      {| size := size c1;
         elements := <[key := value]> (elements c1);
         order := golist.PushFront key (order c1) |}
  end.

Definition Get (c : Cache) (key : K) : (V * bool) * Cache :=
  match elements c !! key with
  | Some value =>
      ((value, true),
       {| size := size c;
          elements := elements c;
          order := golist.MoveToFront key (order c) |})
  | None => ((zero, false), c)
  end.

Definition Evict (c : Cache) (key : K) : Cache :=
  match elements c !! key with
  | Some _ => removeElement c key
  | None => c
  end.

Definition Flush (c : Cache) : Cache :=
  {| size := size c; elements := ∅; order := golist.Init |}.

Definition Len (c : Cache) : Z := golist.Len (order c).

Definition PortionFilled (c : Cache) : float64 :=
  float64_div (golist.Len (order c)) (size c).

(** The states a client can produce: a constructor call followed by
    calls of the exported methods. *)
Inductive reachable : Cache → Prop :=
  | reach_New n : reachable (NewCache n)
  | reach_Put c k v : reachable c → reachable (Put c k v)
  | reach_Get c k : reachable c → reachable (Get c k).2
  | reach_Evict c k : reachable c → reachable (Evict c k)
  | reach_Flush c : reachable c → reachable (Flush c).

End lru.
Arguments Cache K V {_ _}.
End lru.

(** ** package lru, the size bounded [SizedCache]

    As in lru/lru.go, a method holds the mutex for its whole body and
    calls only [flushLocked], which takes no lock.  The key type is one
    where [==] is the identity of values; [sized_any] below is the cache
    at any comparable key type. *)

Module sized.
Section sized.
Context {K V : Type} `{Countable K}.
Variable zero : V.

(** [sizedEntry]; its [key] field is the key under which the map
    holds it. *)
Record sizedEntry : Type := mkEntry {
  value : V;
  size : Z;
}.

Record SizedCache : Type := mkSizedCache {
  maxSize : Z;
  currentSize : Z;
  sizeFn : K → V → Z;
  items : gmap K sizedEntry;
  lru : list K;
}.

(** [sizeFn == nil] is [None]. *)
Definition NewSizedCache (maxSize : Z) (sizeFn : option (K → V → Z))
  : SizedCache :=
  let maxSize := if maxSize <=? 0 then 1 else maxSize in
  let sizeFn := match sizeFn with
                | None => fun _ _ => 1
                | Some f => f
                end in
  {| maxSize := maxSize; currentSize := 0; sizeFn := sizeFn;
     items := ∅; lru := golist.Init |}.

Definition flushLocked (c : SizedCache) : SizedCache :=
  {| maxSize := maxSize c; currentSize := 0; sizeFn := sizeFn c;
     items := ∅; lru := golist.Init |}.

(** The [sizedEntry] in [elem.Value] for the element named [k].  Every
    element of the list carries an entry; the default stands for
    a pointer that the list never holds. *)
Definition entryOf (c : SizedCache) (k : K) : sizedEntry :=
  default {| value := zero; size := 0 |} (items c !! k).

(** The loop of [Put]
<<
    for c.currentSize > c.maxSize-entrySize {
        back := c.lru.Back()
        if back == nil { break }
        ...
    }
>>
    Every turn unlinks one element, so the length of the list bounds
    the number of turns; see [sized_evictLoop_stops]. *)
Fixpoint evictLoop (turns : nat) (entrySize : Z) (c : SizedCache)
  : SizedCache :=
  match turns with
  | O => c
  | S turns =>
      if currentSize c >? goint.sub (maxSize c) entrySize then
        match golist.Back (lru c) with
        | None => c
        | Some back =>
            let oldEntry := entryOf c back in
            evictLoop turns entrySize
              {| maxSize := maxSize c;
                 currentSize := goint.sub (currentSize c) (size oldEntry);
                 sizeFn := sizeFn c;
                 items := delete back (items c);
                 lru := golist.Remove back (lru c) |}
        end
      else c
  end.

Definition Put (c : SizedCache) (key : K) (v : V) : SizedCache :=
  let entrySize := sizeFn c key v in
  if entrySize >? maxSize c then flushLocked c
  else
    let c1 :=
      match items c !! key with
      | Some oldEntry =>
          {| maxSize := maxSize c;
             currentSize := goint.sub (currentSize c) (size oldEntry);
             sizeFn := sizeFn c;
             items := delete key (items c);
             lru := golist.Remove key (lru c) |}
      | None => c
      end in
    let c2 := evictLoop (length (lru c1)) entrySize c1 in
    {| maxSize := maxSize c2;
       currentSize := goint.add (currentSize c2) entrySize;
       sizeFn := sizeFn c2;
       items := <[key := {| value := v; size := entrySize |}]> (items c2);
       lru := golist.PushFront key (lru c2) |}.

Definition Get (c : SizedCache) (key : K) : (V * bool) * SizedCache :=
  match items c !! key with
  | Some e =>
      ((value e, true),
       {| maxSize := maxSize c; currentSize := currentSize c;
          sizeFn := sizeFn c; items := items c;
          lru := golist.MoveToFront key (lru c) |})
  | None => ((zero, false), c)
  end.

Definition Evict (c : SizedCache) (key : K) : SizedCache :=
  match items c !! key with
  | Some entry =>
      {| maxSize := maxSize c;
         currentSize := goint.sub (currentSize c) (size entry);
         sizeFn := sizeFn c;
         items := delete key (items c);
         lru := golist.Remove key (lru c) |}
  | None => c
  end.

Definition Flush (c : SizedCache) : SizedCache := flushLocked c.

(** [len(c.items)] *)
Definition Len (c : SizedCache) : Z := Z.of_nat (base.size (items c)).

Definition PortionFilled (c : SizedCache) : float64 :=
  if maxSize c =? 0 then Finite 0%Qc
  else float64_div (currentSize c) (maxSize c).

Inductive reachable : SizedCache → Prop :=
  | reach_New n f : reachable (NewSizedCache n f)
  | reach_Put c k v : reachable c → reachable (Put c k v)
  | reach_Get c k : reachable c → reachable (Get c k).2
  | reach_Evict c k : reachable c → reachable (Evict c k)
  | reach_Flush c : reachable c → reachable (Flush c).

(** The sum of the sizes of the live entries. *)
Definition usage (c : SizedCache) : Z :=
  map_fold (fun _ e acc => size e + acc) 0 (items c).

End sized.
Arguments sizedEntry V : clear implicits.
Arguments SizedCache K V {_ _}.
End sized.

(** ** package bytecache: the sharded byte cache *)

Module bytecache.

Definition numShards : Z := 256.
Definition shardMask : Z := numShards - 1.

(** A [[]byte]: [None] is the nil slice. *)
Definition slice : Type := option (list byte).

Definition len (s : slice) : Z := Z.of_nat (length (default [] s)).

(** [append(dst, src...)]: appending nothing to nil gives nil. *)
Definition append (dst : slice) (src : slice) : slice :=
  match dst, default [] src with
  | None, [] => None
  | _, bs => Some (default [] dst ++ bs)
  end.

(** [dst[:0]] *)
Definition truncate (dst : slice) : slice :=
  match dst with
  | None => None
  | Some _ => Some []
  end.

(** [string(key)] *)
Definition string_of (key : slice) : string :=
  String.string_of_list_byte (default [] key).

Definition byte_val (b : byte) : Z := Z.of_N (Byte.to_N b).

(** [byteEntry]; [key] is the key under which [items] holds it, and
    [prev], [next] are the position in [order]. *)
Record byteEntry : Type := mkEntry {
  value : slice;
  size : Z;
}.

(** [byteShard].  [order] is the chain of entries from [head] to
    [tail] along the [next] pointers; an entry is named by its key. *)
Record byteShard : Type := mkShard {
  items : gmap string byteEntry;
  order : list string;
  currentSize : Z;
  maxSize : Z;
}.

Definition head (s : byteShard) : option string := list.head (order s).
Definition tail (s : byteShard) : option string := list.last (order s).

Record Cache : Type := mkCache {
  shards : list byteShard;
  maxBytes : Z;
  getCalls : Z;
  setCalls : Z;
  misses : Z;
}.

#[global] Instance byteShard_inhabited : Inhabited byteShard :=
  populate {| items := ∅; order := []; currentSize := 0; maxSize := 0 |}.

Definition New (maxBytes : Z) : Cache :=
  let maxBytes := if maxBytes <=? 0 then 1 else maxBytes in
  let perShard := maxBytes `quot` numShards in
  let perShard := if perShard <? 1 then 1 else perShard in
  {| shards := replicate (Z.to_nat numShards)
                 {| items := ∅; order := []; currentSize := 0;
                    maxSize := perShard |};
     maxBytes := maxBytes; getCalls := 0; setCalls := 0; misses := 0 |}.

(** The index computed by [shard]: the XOR of the key's bytes in a
    [uint8], masked. *)
Definition shardIndex (key : slice) : Z :=
  let h := fold_left (fun h b => Z.lxor h (byte_val b) `mod` 2 ^ 8)
             (default [] key) 0 in
  Z.land h shardMask.

Definition shard (c : Cache) (key : slice) : byteShard :=
  shards c !!! Z.to_nat (shardIndex key).

(** Writing through the pointer returned by [shard]. *)
Definition withShard (c : Cache) (key : slice) (s : byteShard) : Cache :=
  {| shards := <[Z.to_nat (shardIndex key) := s]> (shards c);
     maxBytes := maxBytes c; getCalls := getCalls c;
     setCalls := setCalls c; misses := misses c |}.

(** *** The doubly linked list of a shard *)

Definition pushFront (s : byteShard) (e : string) : byteShard :=
  {| items := items s; order := e :: order s;
     currentSize := currentSize s; maxSize := maxSize s |}.

Definition unlink (s : byteShard) (e : string) : byteShard :=
  {| items := items s; order := golist.Remove e (order s);
     currentSize := currentSize s; maxSize := maxSize s |}.

Definition moveToFront (s : byteShard) (e : string) : byteShard :=
  if decide (head s = Some e) then s
  else pushFront (unlink s e) e.

(** The entry a pointer of the chain leads to. *)
Definition entryOf (s : byteShard) (k : string) : byteEntry :=
  default {| value := None; size := 0 |} (items s !! k).

Definition Reset (c : Cache) : Cache :=
  {| shards := (fun s => {| items := ∅; order := []; currentSize := 0;
                            maxSize := maxSize s |}) <$> shards c;
     maxBytes := maxBytes c; getCalls := getCalls c;
     setCalls := setCalls c; misses := misses c |}.

Definition Del (c : Cache) (key : slice) : Cache :=
  let s := shard c key in
  let k := string_of key in
  match items s !! k with
  | Some e =>
      let s := unlink s k in
      withShard c key
        {| items := delete k (items s); order := order s;
           currentSize := goint.sub (currentSize s) (size e);
           maxSize := maxSize s |}
  | None => c
  end.

Definition Has (c : Cache) (key : slice) : bool :=
  let s := shard c key in
  let k := string_of key in
  bool_decide (is_Some (items s !! k)).

Definition HasGet (c : Cache) (dst key : slice) : (slice * bool) * Cache :=
  let c := {| shards := shards c; maxBytes := maxBytes c;
              getCalls := goint.AddUint64 (getCalls c) 1;
              setCalls := setCalls c; misses := misses c |} in
  let s := shard c key in
  let k := string_of key in
  match items s !! k with
  | Some e =>
      let c := withShard c key (moveToFront s k) in
      let val := value e in
      match dst with
      | None => ((append None val, true), c)
      | Some _ => ((append (truncate dst) val, true), c)
      end
  | None =>
      let c := {| shards := shards c; maxBytes := maxBytes c;
                  getCalls := getCalls c; setCalls := setCalls c;
                  misses := goint.AddUint64 (misses c) 1 |} in
      match dst with
      | None => ((None, false), c)
      | Some _ => ((truncate dst, false), c)
      end
  end.

Definition Get (c : Cache) (dst key : slice) : slice * Cache :=
  let c := {| shards := shards c; maxBytes := maxBytes c;
              getCalls := goint.AddUint64 (getCalls c) 1;
              setCalls := setCalls c; misses := misses c |} in
  let s := shard c key in
  let k := string_of key in
  match items s !! k with
  | Some e =>
      let c := withShard c key (moveToFront s k) in
      let val := value e in
      match dst with
      | None => (append None val, c)
      | Some _ => (append (truncate dst) val, c)
      end
  | None =>
      let c := {| shards := shards c; maxBytes := maxBytes c;
                  getCalls := getCalls c; setCalls := setCalls c;
                  misses := goint.AddUint64 (misses c) 1 |} in
      match dst with
      | None => (None, c)
      | Some _ => (truncate dst, c)
      end
  end.

Definition GetBig (c : Cache) (dst key : slice) : slice * Cache :=
  Get c dst key.

(** The eviction loop of [Set_]
<<
      for s.currentSize+int64(entrySize) > s.maxSize && s.tail != nil
>>
      bounded by the length of the chain, which every turn shortens; see
    [bytecache_evictLoop_stops]. *)
Fixpoint evictLoop (turns : nat) (entrySize : Z) (s : byteShard)
  : byteShard :=
  match turns with
  | O => s
  | S turns =>
      if goint.add (currentSize s) entrySize >? maxSize s then
        match tail s with
        | Some old =>
            let e := entryOf s old in
            let s := unlink s old in
            evictLoop turns entrySize
              {| items := delete old (items s); order := order s;
                 currentSize := goint.sub (currentSize s) (size e);
                 maxSize := maxSize s |}
        | None => s
        end
      else s
  end.

(** [Set] (a reserved word here). *)
Definition Set_ (c : Cache) (key value : slice) : Cache :=
  let c := {| shards := shards c; maxBytes := maxBytes c;
              getCalls := getCalls c;
              setCalls := goint.AddUint64 (setCalls c) 1;
              misses := misses c |} in
  let s := shard c key in
  let k := string_of key in
  let v := append None value in
  let entrySize := Z.of_nat (String.length k) + len v in
  (* Entry too large for shard *)
  if entrySize >? maxSize s then c
  else
    match items s !! k with
    | Some e =>
        (* Update existing *)
        let cur := goint.sub (currentSize s) (size e) in
        let s := {| items := <[k := {| value := v; size := entrySize |}]>
                               (items s);
                    order := order s;
                    currentSize := goint.add cur entrySize;
                    maxSize := maxSize s |} in
        withShard c key (moveToFront s k)
    | None =>
        (* Evict until we have space *)
        let s := evictLoop (length (order s)) entrySize s in
        (* Insert new entry *)
        let s := {| items := <[k := {| value := v; size := entrySize |}]>
                               (items s);
                    order := order s;
                    currentSize := currentSize s;
                    maxSize := maxSize s |} in
        let s := pushFront s k in
        withShard c key
          {| items := items s; order := order s;
             currentSize := goint.add (currentSize s) entrySize;
             maxSize := maxSize s |}
    end.

Definition SetBig (c : Cache) (key value : slice) : Cache :=
  Set_ c key value.

(** The sum of the sizes of the live entries of a shard. *)
Definition usage (s : byteShard) : Z :=
  map_fold (fun _ e acc => size e + acc) 0 (items s).

(** [Stats] *)
Record Stats : Type := mkStats {
  EntriesCount : Z;
  BytesSize : Z;
  Collisions : Z;
  GetCalls : Z;
  SetCalls : Z;
  Misses : Z;
}.

(** [UpdateStats]: a nil [s] is [None]; the two sums are [uint64]s. *)
Definition UpdateStats (c : Cache) (s : option Stats) : option Stats :=
  match s with
  | None => None
  | Some _ =>
      let '(entries, size) :=
        fold_left
          (fun '(entries, size) sh =>
             (goint.wrapU64
                (entries + goint.wrapU64 (Z.of_nat (base.size (items sh)))),
              goint.wrapU64 (size + goint.wrapU64 (currentSize sh))))
          (shards c) (0, 0) in
      Some {| EntriesCount := entries; BytesSize := size; Collisions := 0;
              GetCalls := getCalls c; SetCalls := setCalls c;
              Misses := misses c |}
  end.

Inductive reachable : Cache → Prop :=
  | reach_New n : reachable (New n)
  | reach_Set c k v : reachable c → reachable (Set_ c k v)
  | reach_Get c dst k : reachable c → reachable (Get c dst k).2
  | reach_HasGet c dst k : reachable c → reachable (HasGet c dst k).2
  | reach_Del c k : reachable c → reachable (Del c k)
  | reach_Reset c : reachable c → reachable (Reset c).

End bytecache.

(** ** github.com/luxfi/container: the store behind lru/cache.go

    The package is imported by lru/cache.go and its source is not part of
    the repository.  Its cache is the Recency Store of the specification
    (sections 3, 4.1 and 4.3) under the entry-count policy.  The effect of
    the eviction callback is a function on a world [W] that the
    operations thread through. *)

Module container.
Section container.
Context {K V W : Type} `{Countable K}.
Variable zero : V.

(** Modelled from the spec: an Entry of section 3, with its value and
    its size; the key is the key of the lookup, the two links are the
    position in the recency list. *)
Record Entry : Type := mkEntry {
  value : V;
  size : Z;
}.

(** Modelled from the spec: the Shard (Recency Store) of section 3, a
    budget, the current usage, the key to entry lookup and the
    recency list (head first), with the optional eviction callback of
    section 4.3. *)
Record Cache : Type := mkCache {
  budget : Z;
  usage : Z;
  lookup : gmap K Entry;
  recency : list K;
  onEvict : option (K → V → W → W);
}.

(** Modelled from the spec: the sizing function of the entry-count
    policy, every entry weighs one. *)
Definition sizingPolicy (key : K) (v : V) : Z := 1.

(** Modelled from the spec: construction normalizes a non-positive
    capacity to 1 (sections 3 and 7); [NewLRUCacheWithOnEvict]
    attaches the callback. *)
Definition NewLRUCacheWithOnEvict (size : Z)
  (onEvict : option (K → V → W → W)) : Cache :=
  {| budget := if size <=? 0 then 1 else size; usage := 0;
     lookup := ∅; recency := []; onEvict := onEvict |}.

(** Modelled from the spec: [NewLRUCache], the store without a
    callback. *)
Definition NewLRUCache (size : Z) : Cache :=
  NewLRUCacheWithOnEvict size None.

(** Modelled from the spec: the invocation of the eviction callback,
    if configured (section 4.1). *)
Definition invoke (c : Cache) (key : K) (v : V) (w : W) : W :=
  match onEvict c with
  | Some f => f key v w
  | None => w
  end.

(** Modelled from the spec: the loop of [Put] in section 4.1, while
    usage + size exceeds budget and the store is non-empty, remove
    the tail entry, decrementing usage and invoking the callback. *)
Fixpoint evictLoop (turns : nat) (sz : Z) (c : Cache) (w : W)
  : Cache * W :=
  match turns with
  | O => (c, w)
  | S turns =>
      if budget c <? usage c + sz then
        match list.last (recency c) with
        | Some tail =>
            match lookup c !! tail with
            | Some e =>
                evictLoop turns sz
                  {| budget := budget c; usage := usage c - size e;
                     lookup := delete tail (lookup c);
                     recency := golist.Remove tail (recency c);
                     onEvict := onEvict c |}
                  (invoke c tail (value e) w)
            | None => (c, w)
            end
        | None => (c, w)
        end
      else (c, w)
  end.

(** Modelled from the spec: [Put] of section 4.1. *)
Definition Put (c : Cache) (key : K) (v : V) (w : W) : Cache * W :=
  let sz := sizingPolicy key v in
  if budget c <? sz then (c, w)
  else
    match lookup c !! key with
    | Some old =>
        ({| budget := budget c; usage := usage c - size old + sz;
            lookup := <[key := {| value := v; size := sz |}]> (lookup c);
            recency := key :: golist.Remove key (recency c);
            onEvict := onEvict c |}, w)
    | None =>
        let '(c1, w1) := evictLoop (length (recency c)) sz c w in
        ({| budget := budget c1; usage := usage c1 + sz;
            lookup := <[key := {| value := v; size := sz |}]> (lookup c1);
            recency := key :: recency c1;
            onEvict := onEvict c1 |}, w1)
    end.

(** Modelled from the spec: [Get] of section 4.1, a hit moves the
    entry to the head. *)
Definition Get (c : Cache) (key : K) : (V * bool) * Cache :=
  match lookup c !! key with
  | Some e =>
      ((value e, true),
       {| budget := budget c; usage := usage c; lookup := lookup c;
          recency := key :: golist.Remove key (recency c);
          onEvict := onEvict c |})
  | None => ((zero, false), c)
  end.

(** Modelled from the spec: the explicit removal ([Evict] of section
    4.1), which never invokes the callback. *)
Definition Delete (c : Cache) (key : K) : Cache :=
  match lookup c !! key with
  | Some e =>
      {| budget := budget c; usage := usage c - size e;
         lookup := delete key (lookup c);
         recency := golist.Remove key (recency c);
         onEvict := onEvict c |}
  | None => c
  end.

(** Modelled from the spec: [Len], the current entry count. *)
Definition Len (c : Cache) : Z := Z.of_nat (length (recency c)).

End container.
Arguments Entry V : clear implicits.
Arguments Cache K V W {_ _}.
End container.

(** ** lru/cache.go: the mutex-guarded cache over the container store

    Here exported methods call exported methods ([Size], [Evict], [Flush]
    and [PortionFilled]), so the mutex is part of the state and taking it
    can fail to return. *)

Module lrucontainer.

(** What a call does in the calling goroutine: it returns, or it blocks
    for ever in [Lock] on a mutex that is already held ([sync.Mutex] is
    not reentrant), or the runtime stops the program ([Unlock] of a
    mutex that is not held). *)
Inductive outcome (A : Type) : Type :=
  | Returns (a : A)
  | Blocked
  | Fatal.
Arguments Returns {A} a.
Arguments Blocked {A}.
Arguments Fatal {A}.

Section lrucontainer.
Context {K V W : Type} `{Countable K}.
Variable zero : V.

Record Cache : Type := mkCache {
  mu : bool;  (* true while the mutex is held *)
  containerCache : container.Cache K V W;
  capacity : Z;
  onEvict : option (K → V → W → W);
}.

(** A method: a computation over the receiver and the world of the
    callback. *)
Definition method (A : Type) : Type := Cache * W → outcome (A * (Cache * W)).

Definition ret {A} (a : A) : method A := fun s => Returns (a, s).

Definition bind {A B} (m : method A) (f : A → method B) : method B :=
  fun s =>
    match m s with
    | Returns (a, s') => f a s'
    | Blocked => Blocked
    | Fatal => Fatal
    end.

(** [c.mu.Lock()] *)
Definition Lock : method unit :=
  fun '(c, w) =>
    if mu c then Blocked
    else Returns (tt, ({| mu := true; containerCache := containerCache c;
                          capacity := capacity c; onEvict := onEvict c |},
                       w)).

(** [c.mu.Unlock()] *)
Definition Unlock : method unit :=
  fun '(c, w) =>
    if mu c then
      Returns (tt, ({| mu := false; containerCache := containerCache c;
                       capacity := capacity c; onEvict := onEvict c |},
                    w))
    else Fatal.

(** [c.mu.Lock(); defer c.mu.Unlock(); body] *)
Definition locked {A} (body : method A) : method A :=
  bind Lock (fun _ => bind body (fun a => bind Unlock (fun _ => ret a))).

Definition withContainer (c : Cache) (cc : container.Cache K V W)
  : Cache :=
  {| mu := mu c; containerCache := cc; capacity := capacity c;
     onEvict := onEvict c |}.

Definition NewCache (size : Z) : Cache :=
  let size := if size <=? 0 then 1 else size in
  {| mu := false; containerCache := container.NewLRUCache size;
     capacity := size; onEvict := None |}.

Definition NewCacheWithOnEvict (size : Z)
  (onEvict : option (K → V → W → W)) : Cache :=
  let size := if size <=? 0 then 1 else size in
  {| mu := false;
     containerCache := container.NewLRUCacheWithOnEvict size onEvict;
     capacity := size; onEvict := onEvict |}.

Definition Get (key : K) : method (V * bool) :=
  locked (fun '(c, w) =>
    let '(r, cc) := container.Get zero (containerCache c) key in
    Returns (r, (withContainer c cc, w))).

Definition Put (key : K) (value : V) : method unit :=
  locked (fun '(c, w) =>
    let '(cc, w') := container.Put (containerCache c) key value w in
    Returns (tt, (withContainer c cc, w'))).

Definition Delete (key : K) : method unit :=
  locked (fun '(c, w) =>
    Returns (tt, (withContainer c (container.Delete (containerCache c) key),
                  w))).

Definition Len : method Z :=
  locked (fun '(c, w) => Returns (container.Len (containerCache c), (c, w))).

Definition Clear : method unit :=
  locked (fun '(c, w) =>
    Returns (tt, (withContainer c (container.NewLRUCache (capacity c)), w))).

Definition Contains (key : K) : method bool :=
  locked (fun '(c, w) =>
    let '((_, ok), cc) := container.Get zero (containerCache c) key in
    Returns (ok, (withContainer c cc, w))).

Definition Size : method Z := Len.

Definition Evict (key : K) : method unit := Delete key.

Definition Flush : method unit := Clear.

Definition PortionFilled : method float64 :=
  locked (bind Len (fun current '(c, w) =>
    if capacity c =? 0 then Returns (Finite 0%Qc, (c, w))
    else Returns (float64_div current (capacity c), (c, w)))).

End lrucontainer.
Arguments Cache K V W {_ _}.
Arguments method K V W {_ _} A.
End lrucontainer.

(** ** Invariants

    The invariants of section 3 of the specification, for the two stores
    of package lru. *)

Section invariants.
Context {K V : Type} `{Countable K}.

(** The sum of the weights of the entries of a map. *)
Definition total {A : Type} (weight : A → Z) (m : gmap K A) : Z :=
  map_fold (fun _ e acc => weight e + acc) 0 m.

(** The count bounded cache: the size is at least 1, the list is no
    longer than the size, holds no key twice and holds exactly the
    keys of the map. *)
Record lru_inv (c : lru.Cache K V) : Prop := mk_lru_inv {
  lru_inv_size : 1 ≤ lru.size c;
  lru_inv_bound : lru.Len c ≤ lru.size c;
  lru_inv_nodup : NoDup (lru.order c);
  lru_inv_dom : ∀ k, k ∈ lru.order c ↔ is_Some (lru.elements c !! k);
}.

(** What the size bounded cache expects of its parameters: the sizing
    function returns no negative size (the sizes of section 3 are at
    least 1) and the budget is a Go [int]. *)
Definition sized_ok (c : sized.SizedCache K V) : Prop :=
  (∀ k v, 0 ≤ sized.sizeFn c k v) ∧ sized.maxSize c < 2 ^ 63.

(** The size bounded cache: list and map hold the same keys, once; the
    recorded usage is the sum of the sizes of the live entries and is
    within the budget. *)
Record sized_inv (c : sized.SizedCache K V) : Prop := mk_sized_inv {
  sized_inv_max : 1 ≤ sized.maxSize c;
  sized_inv_nodup : NoDup (sized.lru c);
  sized_inv_dom : ∀ k, k ∈ sized.lru c ↔ is_Some (sized.items c !! k);
  sized_inv_nonneg : ∀ k e, sized.items c !! k = Some e → 0 ≤ sized.size e;
  sized_inv_usage : sized.currentSize c = sized.usage c;
  sized_inv_bound : sized.currentSize c ≤ sized.maxSize c;
}.

End invariants.

(** ** package cache: [DualMapCache]

    A map behind a read-write mutex; every method takes the lock once.
    The key type is one where [==] is the identity of values. *)

Module dualmap.
Section dualmap.
Context {K V : Type} `{Countable K}.
Variable zero : V.

Record DualMapCache : Type := mkDualMapCache {
  items : gmap K V;
}.

(** The registry argument is ignored. *)
Definition NewDualMapCache {R : Type} (_ : R) : DualMapCache :=
  {| items := ∅ |}.

Definition Put (c : DualMapCache) (key : K) (value : V) : DualMapCache :=
  {| items := <[key := value]> (items c) |}.

Definition Get (c : DualMapCache) (key : K) : V * bool :=
  match items c !! key with
  | Some val => (val, true)
  | None => (zero, false)
  end.

Definition Evict (c : DualMapCache) (key : K) : DualMapCache :=
  {| items := delete key (items c) |}.

Definition Flush (c : DualMapCache) : DualMapCache := {| items := ∅ |}.

Definition Len (c : DualMapCache) : Z := Z.of_nat (base.size (items c)).

Definition PortionFilled (c : DualMapCache) : float64 :=
  if Z.of_nat (base.size (items c)) =? 0 then Finite 0%Qc else Finite 1%Qc.

Definition Migrate (c : DualMapCache) : DualMapCache := c.

End dualmap.
Arguments DualMapCache K V {_ _}.
End dualmap.

(** ** Invariants of the other stores *)

Section more_invariants.
Context {K V : Type} `{Countable K}.

(** The size bounded cache, whatever its sizing function: list and map
    hold the same keys, once, and every entry records the size that the
    sizing function gives its key and value. *)
Record sized_wf (c : sized.SizedCache K V) : Prop := mk_sized_wf {
  sized_wf_max : 1 ≤ sized.maxSize c;
  sized_wf_nodup : NoDup (sized.lru c);
  sized_wf_dom : ∀ k, k ∈ sized.lru c ↔ is_Some (sized.items c !! k);
  sized_wf_size : ∀ k e, sized.items c !! k = Some e →
                         sized.size e = sized.sizeFn c k (sized.value e);
}.

End more_invariants.

(** A shard of the byte cache at index [i]: chain and map hold the same
    keys, once; an entry records the length of its key plus that of its
    value, fits the budget and sits in the shard its key hashes to; the
    recorded usage is the [int64] sum of the recorded sizes. *)
Record shard_inv (i : nat) (s : bytecache.byteShard) : Prop := mk_shard_inv {
  shard_inv_max : 1 ≤ bytecache.maxSize s;
  shard_inv_nodup : NoDup (bytecache.order s);
  shard_inv_dom : ∀ k, k ∈ bytecache.order s
                       ↔ is_Some (bytecache.items s !! k);
  shard_inv_entry : ∀ k e, bytecache.items s !! k = Some e →
      bytecache.size e
      = Z.of_nat (String.length k) + bytecache.len (bytecache.value e)
      ∧ bytecache.size e ≤ bytecache.maxSize s
      ∧ Z.to_nat (bytecache.shardIndex (Some (String.list_byte_of_string k)))
        = i;
  shard_inv_usage : bytecache.currentSize s
                    = goint.wrap64 (bytecache.usage s);
}.

(** The byte cache: [numShards] shards, each within its invariant. *)
Definition cache_inv (c : bytecache.Cache) : Prop :=
  length (bytecache.shards c) = Z.to_nat bytecache.numShards
  ∧ ∀ i s, bytecache.shards c !! i = Some s → shard_inv i s.

(** The shard that [Set_] writes when the entry fits: the update of a
    resident key, or the eviction loop and the insertion at the head. *)
Definition shard_after_Set (s : bytecache.byteShard) (k : string)
    (v : bytecache.slice) : bytecache.byteShard :=
  let entrySize := Z.of_nat (String.length k) + bytecache.len v in
  match bytecache.items s !! k with
  | Some e =>
      bytecache.moveToFront
        {| bytecache.items :=
             <[k := {| bytecache.value := v; bytecache.size := entrySize |}]>
               (bytecache.items s);
           bytecache.order := bytecache.order s;
           bytecache.currentSize :=
             goint.add (goint.sub (bytecache.currentSize s) (bytecache.size e))
               entrySize;
           bytecache.maxSize := bytecache.maxSize s |} k
  | None =>
      let s1 := bytecache.evictLoop (length (bytecache.order s)) entrySize s in
      {| bytecache.items :=
           <[k := {| bytecache.value := v; bytecache.size := entrySize |}]>
             (bytecache.items s1);
         bytecache.order := k :: bytecache.order s1;
         bytecache.currentSize := goint.add (bytecache.currentSize s1) entrySize;
         bytecache.maxSize := bytecache.maxSize s1 |}
  end.

(** A method of lru/cache.go returns with the mutex released, the
    capacity and the callback field as they were. *)
Definition returns_unlocked {K V W A : Type} `{Countable K}
    (m : lrucontainer.method K V W A) (c : lrucontainer.Cache K V W)
    (w : W) : Prop :=
  ∃ a c' w',
    m (c, w) = lrucontainer.Returns (a, (c', w'))
    ∧ lrucontainer.mu c' = false
    ∧ lrucontainer.capacity c' = lrucontainer.capacity c
    ∧ lrucontainer.onEvict c' = lrucontainer.onEvict c.

(** ** Go's [==] on keys, and the built-in map

    The key type of the two stores of package lru is any [comparable]
    type.  For integers, strings, and arrays and structs of these, [==]
    is the identity of values; the modules [lru] and [sized] above are
    the stores at such a key type, where a pointer to an entry can be
    named by the key of the entry.  For other key types it is not: a
    floating point NaN is [==] to nothing, itself included, so that a
    map never finds and never deletes what was stored under it.

    The modules [lru_any] and [sized_any] below are the same two stores
    for an arbitrary key type given with its [==], with the entries in
    a heap and the map and the list holding pointers, as in the
    source. *)

(** [k1 == k2] on the key type.  Comparisons that panic (an interface
    holding a value that is not comparable) are outside the model. *)
Class GoEq (K : Type) : Type := goeq : K → K → bool.

(** What [==] satisfies at every comparable type: it is symmetric and
    transitive.  It need not be reflexive. *)
Class GoEqLaws (K : Type) `{GoEq K} : Prop := mkGoEqLaws {
  goeq_sym : ∀ k1 k2 : K, goeq k1 k2 = goeq k2 k1;
  goeq_trans : ∀ k1 k2 k3 : K,
    goeq k1 k2 = true → goeq k2 k3 = true → goeq k1 k3 = true;
}.

(** [==] at a type where it is the identity of values. *)
Definition identity_GoEq (K : Type) `{EqDecision K} : GoEq K :=
  fun k1 k2 => bool_decide (k1 = k2).

#[global] Instance string_GoEq : GoEq string := identity_GoEq string.

(** [==] on float64: a NaN is equal to nothing; the two zeros are one
    [Finite 0]. *)
Definition float64_eq (x y : float64) : bool :=
  match x, y with
  | Finite p, Finite q => Qeq_bool p q
  | PosInf, PosInf => true
  | NegInf, NegInf => true
  | _, _ => false
  end.

#[global] Instance float64_GoEq : GoEq float64 := float64_eq.

(** A pointer: the index of an allocation in a heap.  An element of a
    [container/list] and the entry in its [Value] are allocated
    together and never separated, so one pointer stands for both. *)
Abbreviation ptr := nat (only parsing).

Module gomap.
Section gomap.
Context {K A : Type} `{GoEq K}.

(** [map[K]A]: the entries, oldest first.  An entry is found under [k]
    when its key is [==] to [k].  The order of iteration is not
    modelled; the stores never range over their maps. *)
Definition t : Type := list (K * A).

(** [make(map[K]A)] *)
Definition make : t := [].

(** [a, ok := m[k]] *)
Fixpoint get (m : t) (k : K) : option A :=
  match m with
  | [] => None
  | (k', a) :: m => if goeq k' k then Some a else get m k
  end.

(** [m[k] = a]: the entry found under [k] is overwritten; when there is
    none, a new entry is added. *)
Fixpoint set (m : t) (k : K) (a : A) : t :=
  match m with
  | [] => [(k, a)]
  | (k', a') :: m => if goeq k' k then (k, a) :: m else (k', a') :: set m k a
  end.

(** [delete(m, k)]: nothing happens when no entry is found under [k]. *)
Fixpoint delete (m : t) (k : K) : t :=
  match m with
  | [] => []
  | (k', a') :: m => if goeq k' k then m else (k', a') :: delete m k
  end.

(** [len(m)] *)
Definition len (m : t) : Z := Z.of_nat (length m).

End gomap.
Arguments t : clear implicits.
End gomap.

(** ** lru/lru.go at an arbitrary key type

    The methods as in [lru], on the map, the list of element pointers
    and the heap.  Where the source dereferences a pointer that it took
    from the map or from the list, the model looks the pointer up in the
    heap.  In a reachable state such a pointer is allocated ([linked]
    below, [lru_any_reachable_inv]); the branch for a pointer that is
    not allocated is never taken there. *)

Module lru_any.
Section lru_any.
Context {K V : Type} `{GoEq K}.
(** The zero value of [V], returned on a miss. *)
Variable zero : V.

Record entry : Type := mkEntry {
  key : K;
  value : V;
}.

(** [e.value = v] through a pointer to [e]. *)
Definition setValue (v : V) (e : entry) : entry :=
  {| key := key e; value := v |}.

(** The cache and the entries it has allocated.  A pointer that the
    cache no longer holds stays allocated: its entry is garbage. *)
Record Cache : Type := mkCache {
  size : Z;
  elements : gomap.t K ptr;
  order : list ptr;
  heap : list entry;
}.

Definition NewCache (size : Z) : Cache :=
  let size := if size <=? 0 then 1 else size in
  {| size := size; elements := gomap.make; order := golist.Init;
     heap := [] |}.

Definition removeElement (c : Cache) (elem : ptr) : Cache :=
  match heap c !! elem with
  | Some e =>
      {| size := size c;
         elements := gomap.delete (elements c) (key e);
         order := golist.Remove elem (order c);
         heap := heap c |}
  | None => c
  end.

Definition Put (c : Cache) (key : K) (value : V) : Cache :=
  match gomap.get (elements c) key with
  | Some elem =>
      (* Update existing entry *)
      {| size := size c;
         elements := elements c;
         order := golist.MoveToFront elem (order c);
         heap := alter (setValue value) elem (heap c) |}
  | None =>
      (* Evict oldest if at capacity *)
      let c1 :=
        if golist.Len (order c) >=? size c then
          match golist.Back (order c) with
          | Some oldest => removeElement c oldest
          | None => c
          end
        else c in
      (* Add new entry *)
      let elem := length (heap c1) in
      {| size := size c1;
         elements := gomap.set (elements c1) key elem;
         order := golist.PushFront elem (order c1);
         heap := heap c1 ++ [{| key := key; value := value |}] |}
  end.

Definition Get (c : Cache) (key : K) : (V * bool) * Cache :=
  match gomap.get (elements c) key with
  | Some elem =>
      ((from_option value zero (heap c !! elem), true),
       {| size := size c;
          elements := elements c;
          order := golist.MoveToFront elem (order c);
          heap := heap c |})
  | None => ((zero, false), c)
  end.

Definition Evict (c : Cache) (key : K) : Cache :=
  match gomap.get (elements c) key with
  | Some elem => removeElement c elem
  | None => c
  end.

Definition Flush (c : Cache) : Cache :=
  {| size := size c; elements := gomap.make; order := golist.Init;
     heap := heap c |}.

Definition Len (c : Cache) : Z := golist.Len (order c).

Definition PortionFilled (c : Cache) : float64 :=
  float64_div (golist.Len (order c)) (size c).

Inductive reachable : Cache → Prop :=
  | reach_New n : reachable (NewCache n)
  | reach_Put c k v : reachable c → reachable (Put c k v)
  | reach_Get c k : reachable c → reachable (Get c k).2
  | reach_Evict c k : reachable c → reachable (Evict c k)
  | reach_Flush c : reachable c → reachable (Flush c).

End lru_any.
Arguments entry : clear implicits.
Arguments Cache : clear implicits.
End lru_any.

(** ** [SizedCache] at an arbitrary key type

    As [lru_any]: the methods as in [sized], with the pointers of the
    source; [sized_any_reachable_wf] shows that the pointers of a
    reachable state are allocated. *)

Module sized_any.
Section sized_any.
Context {K V : Type} `{GoEq K}.
Variable zero : V.

Record sizedEntry : Type := mkEntry {
  key : K;
  value : V;
  size : Z;
}.

Record SizedCache : Type := mkSizedCache {
  maxSize : Z;
  currentSize : Z;
  sizeFn : K → V → Z;
  items : gomap.t K ptr;
  lru : list ptr;
  heap : list sizedEntry;
}.

Definition NewSizedCache (maxSize : Z) (sizeFn : option (K → V → Z))
  : SizedCache :=
  let maxSize := if maxSize <=? 0 then 1 else maxSize in
  let sizeFn := match sizeFn with
                | None => fun _ _ => 1
                | Some f => f
                end in
  {| maxSize := maxSize; currentSize := 0; sizeFn := sizeFn;
     items := gomap.make; lru := golist.Init; heap := [] |}.

Definition flushLocked (c : SizedCache) : SizedCache :=
  {| maxSize := maxSize c; currentSize := 0; sizeFn := sizeFn c;
     items := gomap.make; lru := golist.Init; heap := heap c |}.

(** The loop of [Put], bounded by the length of the list as in
    [sized.evictLoop]. *)
Fixpoint evictLoop (turns : nat) (entrySize : Z) (c : SizedCache)
  : SizedCache :=
  match turns with
  | O => c
  | S turns =>
      if currentSize c >? goint.sub (maxSize c) entrySize then
        match golist.Back (lru c) with
        | None => c
        | Some back =>
            match heap c !! back with
            | Some oldEntry =>
                evictLoop turns entrySize
                  {| maxSize := maxSize c;
                     currentSize :=
                       goint.sub (currentSize c) (size oldEntry);
                     sizeFn := sizeFn c;
                     items := gomap.delete (items c) (key oldEntry);
                     lru := golist.Remove back (lru c);
                     heap := heap c |}
            | None => c
            end
        end
      else c
  end.

Definition Put (c : SizedCache) (key : K) (v : V) : SizedCache :=
  let entrySize := sizeFn c key v in
  if entrySize >? maxSize c then flushLocked c
  else
    let c1 :=
      match gomap.get (items c) key with
      | Some elem =>
          match heap c !! elem with
          | Some oldEntry =>
              {| maxSize := maxSize c;
                 currentSize := goint.sub (currentSize c) (size oldEntry);
                 sizeFn := sizeFn c;
                 items := gomap.delete (items c) key;
                 lru := golist.Remove elem (lru c);
                 heap := heap c |}
          | None => c
          end
      | None => c
      end in
    let c2 := evictLoop (length (lru c1)) entrySize c1 in
    let elem := length (heap c2) in
    {| maxSize := maxSize c2;
       currentSize := goint.add (currentSize c2) entrySize;
       sizeFn := sizeFn c2;
       items := gomap.set (items c2) key elem;
       lru := golist.PushFront elem (lru c2);
       heap := heap c2 ++ [{| key := key; value := v; size := entrySize |}] |}.

Definition Get (c : SizedCache) (key : K) : (V * bool) * SizedCache :=
  match gomap.get (items c) key with
  | Some elem =>
      ((from_option value zero (heap c !! elem), true),
       {| maxSize := maxSize c; currentSize := currentSize c;
          sizeFn := sizeFn c; items := items c;
          lru := golist.MoveToFront elem (lru c); heap := heap c |})
  | None => ((zero, false), c)
  end.

Definition Evict (c : SizedCache) (key : K) : SizedCache :=
  match gomap.get (items c) key with
  | Some elem =>
      match heap c !! elem with
      | Some entry =>
          {| maxSize := maxSize c;
             currentSize := goint.sub (currentSize c) (size entry);
             sizeFn := sizeFn c;
             items := gomap.delete (items c) key;
             lru := golist.Remove elem (lru c);
             heap := heap c |}
      | None => c
      end
  | None => c
  end.

Definition Flush (c : SizedCache) : SizedCache := flushLocked c.

(** [len(c.items)] *)
Definition Len (c : SizedCache) : Z := gomap.len (items c).

Definition PortionFilled (c : SizedCache) : float64 :=
  if maxSize c =? 0 then Finite 0%Qc
  else float64_div (currentSize c) (maxSize c).

Inductive reachable : SizedCache → Prop :=
  | reach_New n f : reachable (NewSizedCache n f)
  | reach_Put c k v : reachable c → reachable (Put c k v)
  | reach_Get c k : reachable c → reachable (Get c k).2
  | reach_Evict c k : reachable c → reachable (Evict c k)
  | reach_Flush c : reachable c → reachable (Flush c).

(** The sum of the sizes of the entries that the elements of a list
    carry. *)
Definition sizes (h : list sizedEntry) (l : list ptr) : Z :=
  foldr (fun elem acc => from_option size 0 (h !! elem) + acc) 0 l.

(** The sum of the sizes of the live entries. *)
Definition usage (c : SizedCache) : Z := sizes (heap c) (lru c).

End sized_any.
Arguments sizedEntry : clear implicits.
Arguments SizedCache : clear implicits.
End sized_any.

(** ** Invariants at an arbitrary key type *)

Section any_invariants.
Context {K V : Type} `{GoEq K}.

(** No two entries of a map have [==] keys. *)
Fixpoint distinct_keys {A : Type} (m : gomap.t K A) : Prop :=
  match m with
  | [] => True
  | (k, _) :: m => (∀ k' a', (k', a') ∈ m → goeq k k' = false)
                   ∧ distinct_keys m
  end.

(** How map, list and heap of a store hang together: the list holds no
    element twice; every element of the list is allocated and the map
    holds it under the key of its entry; every pointer of the map is
    allocated, is held once, and is held under the key of its entry; no
    two keys of the map are [==]; and a pointer that the map holds under
    a key that is [==] to itself is an element of the list. *)
Record linked {E : Type} (key : E → K) (m : gomap.t K ptr) (l : list ptr)
    (h : list E) : Prop := mk_linked {
  linked_nodup : NoDup l;
  linked_live : ∀ p, p ∈ l → ∃ e, h !! p = Some e ∧ (key e, p) ∈ m;
  linked_alloc : ∀ k p, (k, p) ∈ m → ∃ e, h !! p = Some e ∧ key e = k;
  linked_found : ∀ k p, (k, p) ∈ m → goeq k k = true → p ∈ l;
  linked_keys : distinct_keys m;
  linked_ptrs : NoDup m.*2;
}.

(** The count bounded cache. *)
Record lru_any_inv (c : lru_any.Cache K V) : Prop := mk_lru_any_inv {
  lru_any_inv_size : 1 ≤ lru_any.size c;
  lru_any_inv_bound : lru_any.Len c ≤ lru_any.size c;
  lru_any_inv_linked :
    linked lru_any.key (lru_any.elements c) (lru_any.order c)
      (lru_any.heap c);
}.

(** The size bounded cache, whatever its sizing function. *)
Record sized_any_wf (c : sized_any.SizedCache K V) : Prop :=
  mk_sized_any_wf {
  sized_any_wf_max : 1 ≤ sized_any.maxSize c;
  sized_any_wf_linked :
    linked sized_any.key (sized_any.items c) (sized_any.lru c)
      (sized_any.heap c);
  sized_any_wf_size : ∀ p e, sized_any.heap c !! p = Some e →
    sized_any.size e
    = sized_any.sizeFn c (sized_any.key e) (sized_any.value e);
}.

(** What the size bounded cache expects of its parameters, as
    [sized_ok]. *)
Definition sized_any_ok (c : sized_any.SizedCache K V) : Prop :=
  (∀ k v, 0 ≤ sized_any.sizeFn c k v) ∧ sized_any.maxSize c < 2 ^ 63.

(** The size bounded cache with such parameters: the recorded usage is
    the sum of the sizes of the live entries and is within the budget. *)
Record sized_any_inv (c : sized_any.SizedCache K V) : Prop :=
  mk_sized_any_inv {
  sized_any_inv_wf : sized_any_wf c;
  sized_any_inv_usage : sized_any.currentSize c = sized_any.usage c;
  sized_any_inv_bound : sized_any.currentSize c ≤ sized_any.maxSize c;
}.

End any_invariants.

(** * Properties *)

(** ** container/list *)

Section golist_facts.
Context {A : Type} `{EqDecision A}.
Implicit Types (x y : A) (l : list A).

Lemma Remove_notin x l : x ∉ l → golist.Remove x l = l.
Proof.
  induction l as [|y l IH]; simpl; [done|].
  intros Hx. apply not_elem_of_cons in Hx as [Hxy Hl].
  destruct (decide (x = y)); [done|]. by rewrite IH.
Qed.

Lemma Remove_length x l :
  x ∈ l → S (length (golist.Remove x l)) = length l.
Proof.
  induction l as [|y l IH]; simpl.
  - by intros ?%elem_of_nil.
  - intros Hx. destruct (decide (x = y)); [done|].
    apply elem_of_cons in Hx as [?|Hx]; [done|].
    simpl. by rewrite IH.
Qed.

Lemma Remove_length_le x l : (length (golist.Remove x l) ≤ length l)%nat.
Proof.
  destruct (decide (x ∈ l)) as [Hx|Hx].
  - apply Remove_length in Hx. lia.
  - by rewrite Remove_notin.
Qed.

Lemma elem_of_Remove x y l :
  NoDup l → y ∈ golist.Remove x l ↔ y ∈ l ∧ y ≠ x.
Proof.
  induction l as [|z l IH]; simpl; intros Hnd.
  - split; [by intros ?%elem_of_nil | by intros [?%elem_of_nil _]].
  - apply list.NoDup_cons in Hnd as [Hz Hnd].
    destruct (decide (x = z)) as [->|Hxz].
    + rewrite elem_of_cons. split.
      * intros Hy. split; [by right|]. by intros ->.
      * by intros [[->|Hy] Hne].
    + rewrite !elem_of_cons, IH by done. intuition congruence.
Qed.

Lemma NoDup_Remove x l : NoDup l → NoDup (golist.Remove x l).
Proof.
  induction l as [|z l IH]; simpl; intros Hnd; [done|].
  apply list.NoDup_cons in Hnd as [Hz Hnd].
  destruct (decide (x = z)); [done|].
  apply list.NoDup_cons. split; [|by apply IH].
  rewrite elem_of_Remove by done. intuition congruence.
Qed.

Lemma Back_elem_of x l : golist.Back l = Some x → x ∈ l.
Proof. apply last_Some_elem_of. Qed.

Lemma MoveToFront_elem_of x y l :
  NoDup l → y ∈ golist.MoveToFront x l ↔ y ∈ l.
Proof.
  intros Hnd. unfold golist.MoveToFront.
  destruct (decide (x ∈ l)) as [Hx|]; [|done].
  destruct (decide (golist.Front l = Some x)); [done|].
  rewrite elem_of_cons, elem_of_Remove by done.
  destruct (decide (y = x)); intuition congruence.
Qed.

Lemma MoveToFront_length x l :
  length (golist.MoveToFront x l) = length l.
Proof.
  unfold golist.MoveToFront.
  destruct (decide (x ∈ l)) as [Hx|]; [|done].
  destruct (decide (golist.Front l = Some x)); [done|].
  simpl. by apply Remove_length.
Qed.

Lemma NoDup_MoveToFront x l : NoDup l → NoDup (golist.MoveToFront x l).
Proof.
  intros Hnd. unfold golist.MoveToFront.
  destruct (decide (x ∈ l)) as [Hx|]; [|done].
  destruct (decide (golist.Front l = Some x)); [done|].
  apply list.NoDup_cons. split; [|by apply NoDup_Remove].
  rewrite elem_of_Remove by done. intuition congruence.
Qed.

End golist_facts.

(** ** lru/lru.go *)

Section lru_facts.
Context {K V : Type} `{Countable K}.
Variable zero : V.
Implicit Types (c : lru.Cache K V) (k key : K) (v : V).

Lemma lru_inv_NewCache n : lru_inv (lru.NewCache (K:=K) (V:=V) n).
Proof.
  split; simpl.
  - destruct (Z.leb_spec n 0); lia.
  - unfold lru.Len, golist.Len. simpl. destruct (Z.leb_spec n 0); lia.
  - constructor.
  - intros k. rewrite lookup_empty. split; [by intros ?%elem_of_nil|].
    by intros [? ?].
Qed.

Lemma lru_inv_removeElement c k : lru_inv c → lru_inv (lru.removeElement c k).
Proof.
  intros [Hs Hb Hnd Hdom]. split; simpl; [done| | |].
  - unfold lru.Len, golist.Len in *. simpl.
    pose proof (Remove_length_le k (lru.order c)). lia.
  - by apply NoDup_Remove.
  - intros k'. rewrite elem_of_Remove, Hdom by done.
    destruct (decide (k' = k)) as [->|Hne].
    + rewrite lookup_delete_eq. split; [intuition congruence | by intros [? ?]].
    + rewrite lookup_delete_ne by done. intuition congruence.
Qed.

Lemma lru_inv_Put c k v : lru_inv c → lru_inv (lru.Put c k v).
Proof.
  intros Hinv. unfold lru.Put.
  destruct (lru.elements c !! k) as [v0|] eqn:Hk.
  - destruct Hinv as [Hs Hb Hnd Hdom]. split; simpl; [done| | |].
    + unfold lru.Len, golist.Len in *. simpl.
      by rewrite MoveToFront_length.
    + by apply NoDup_MoveToFront.
    + intros k'. rewrite MoveToFront_elem_of, Hdom by done.
      destruct (decide (k = k')) as [->|Hne].
      * rewrite lookup_insert_eq, Hk. split; eauto.
      * by rewrite lookup_insert_ne.
  - rewrite Z.geb_leb.
    set (c1 := if lru.size c <=? golist.Len (lru.order c) then _ else c).
    assert (lru_inv c1 ∧ lru.elements c1 !! k = None
            ∧ golist.Len (lru.order c1) < lru.size c1) as (Hinv1 & Hk1 & Hlt).
    { subst c1. destruct (Z.leb_spec (lru.size c) (golist.Len (lru.order c)))
        as [Hfull|Hroom]; [|done].
      destruct (golist.Back (lru.order c)) as [oldest|] eqn:Hback.
      - split; [by apply lru_inv_removeElement|]. split.
        + simpl. destruct (decide (oldest = k)) as [->|Hne].
          * by rewrite lookup_delete_eq.
          * by rewrite lookup_delete_ne.
        + simpl. apply Back_elem_of, Remove_length in Hback.
          destruct Hinv as [_ Hb _ _].
          unfold lru.Len, golist.Len in *. lia.
      - split; [done|]. split; [done|].
        apply last_None in Hback. destruct Hinv as [Hs _ _ _].
        unfold golist.Len. rewrite Hback. simpl. lia. }
    destruct Hinv1 as [Hs Hb Hnd Hdom]. split; simpl; [done| | |].
    + unfold lru.Len, golist.Len, golist.PushFront in *. simpl. lia.
    + apply list.NoDup_cons. split; [|done].
      rewrite Hdom, Hk1. by intros [? ?].
    + intros k'. unfold golist.PushFront. rewrite elem_of_cons, Hdom.
      destruct (decide (k = k')) as [->|Hne].
      * rewrite lookup_insert_eq. split; eauto.
      * rewrite lookup_insert_ne by done. intuition congruence.
Qed.

Lemma lru_inv_Get c k : lru_inv c → lru_inv (lru.Get zero c k).2.
Proof.
  intros Hinv. unfold lru.Get.
  destruct (lru.elements c !! k) as [v0|] eqn:Hk; [|done].
  destruct Hinv as [Hs Hb Hnd Hdom]. split; simpl; [done| | |].
  - unfold lru.Len, golist.Len in *. simpl. by rewrite MoveToFront_length.
  - by apply NoDup_MoveToFront.
  - intros k'. by rewrite MoveToFront_elem_of, Hdom.
Qed.

Lemma lru_inv_Evict c k : lru_inv c → lru_inv (lru.Evict c k).
Proof.
  intros Hinv. unfold lru.Evict.
  destruct (lru.elements c !! k); [|done]. by apply lru_inv_removeElement.
Qed.

Lemma lru_inv_Flush c : lru_inv c → lru_inv (lru.Flush c).
Proof.
  intros [Hs _ _ _]. split; simpl; [done| |constructor|].
  - unfold lru.Len, golist.Len. simpl. lia.
  - intros k. rewrite lookup_empty. split; [by intros ?%elem_of_nil|].
    by intros [? ?].
Qed.

Lemma lru_reachable_inv c : lru.reachable zero c → lru_inv c.
Proof.
  induction 1; auto using lru_inv_NewCache, lru_inv_Put, lru_inv_Get,
    lru_inv_Evict, lru_inv_Flush.
Qed.

(** The count bound of the capacity property: in every reachable state
    of the count bounded cache [Len()] is at most the normalized size. *)
Lemma lru_Len_le_size c : lru.reachable zero c → lru.Len c ≤ lru.size c.
Proof. intros Hc. by apply lru_reachable_inv. Qed.

End lru_facts.

(** ** Machine integers and sums of entry sizes *)

Lemma wrap64_in_int z : goint.in_int z → goint.wrap64 z = z.
Proof.
  unfold goint.in_int, goint.wrap64. intros Hz.
  rewrite Z.mod_small; lia.
Qed.

Section sum_facts.
Context {K A : Type} `{Countable K}.
Variable weight : A → Z.
Implicit Types (m : gmap K A).

Lemma total_empty : total weight (∅ : gmap K A) = 0.
Proof. apply map_fold_empty. Qed.

Lemma total_insert m i x :
  m !! i = None →
  total weight (<[i := x]> m) = weight x + total weight m.
Proof.
  intros Hi. unfold total. rewrite map_fold_insert_L; [done| |done].
  intros. lia.
Qed.

Lemma total_delete m i x :
  m !! i = Some x →
  total weight m = weight x + total weight (delete i m).
Proof.
  intros Hi. unfold total.
  rewrite (map_fold_delete_L _ _ i x m); [done| |done].
  intros. lia.
Qed.

Lemma total_nonneg m :
  (∀ k e, m !! k = Some e → 0 ≤ weight e) → 0 ≤ total weight m.
Proof.
  induction m as [|i x m Hi IH] using map_ind; intros Hm.
  - by rewrite total_empty.
  - rewrite total_insert by done.
    assert (0 ≤ weight x) by (apply (Hm i); by rewrite lookup_insert_eq).
    assert (0 ≤ total weight m); [|lia].
    apply IH. intros k e Hk. apply (Hm k).
    rewrite lookup_insert_ne; [done|]. intros ->. congruence.
Qed.

End sum_facts.

(** ** The size bounded cache *)

Section sized_facts.
Context {K V : Type} `{Countable K}.
Variable zero : V.
Implicit Types (c : sized.SizedCache K V) (k key : K) (v : V).

Lemma sized_usage_total c : sized.usage c = total sized.size (sized.items c).
Proof. done. Qed.

Lemma sized_inv_flushLocked c :
  1 ≤ sized.maxSize c → sized_inv (sized.flushLocked c).
Proof.
  intros Hm. split; simpl; [done|constructor| | |done|lia].
  - intros k. rewrite lookup_empty. split; [by intros ?%elem_of_nil|].
    by intros [? ?].
  - intros k e. by rewrite lookup_empty.
Qed.

Lemma sized_inv_NewSizedCache n (f : option (K → V → Z)) :
  sized_inv (sized.NewSizedCache n f).
Proof.
  apply (sized_inv_flushLocked (sized.NewSizedCache n f)). simpl.
  destruct (Z.leb_spec n 0); lia.
Qed.

Lemma sized_inv_empty c :
  sized_inv c → sized.lru c = [] → sized.currentSize c = 0.
Proof.
  intros [_ _ Hdom _ Hu _] Hnil. rewrite Hu, sized_usage_total.
  assert (sized.items c = ∅) as ->; [|apply total_empty].
  apply map_empty. intros k. apply eq_None_not_Some.
  rewrite <-Hdom, Hnil. by intros ?%elem_of_nil.
Qed.

(** Unlinking the element [k] and giving back its size. *)
Lemma sized_inv_remove c k e0 :
  sized.maxSize c < 2 ^ 63 → sized_inv c → sized.items c !! k = Some e0 →
  sized_inv
    {| sized.maxSize := sized.maxSize c;
       sized.currentSize := goint.sub (sized.currentSize c) (sized.size e0);
       sized.sizeFn := sized.sizeFn c;
       sized.items := delete k (sized.items c);
       sized.lru := golist.Remove k (sized.lru c) |}.
Proof.
  intros Hint [Hm Hnd Hdom Hnn Hu Hb] Hk.
  pose proof (total_delete sized.size _ _ _ Hk) as Hsum.
  assert (0 ≤ total sized.size (delete k (sized.items c))) as Hrest.
  { apply total_nonneg. intros k' e. rewrite lookup_delete.
    destruct (decide (k = k')); [done|]. apply Hnn. }
  pose proof (Hnn _ _ Hk) as He0.
  rewrite sized_usage_total in Hu.
  assert (goint.sub (sized.currentSize c) (sized.size e0)
          = sized.currentSize c - sized.size e0) as Hsub.
  { apply wrap64_in_int. unfold goint.in_int. lia. }
  split; simpl.
  - done.
  - by apply NoDup_Remove.
  - intros k'. rewrite elem_of_Remove, Hdom by done.
    destruct (decide (k' = k)) as [->|Hne].
    + rewrite lookup_delete_eq. split; [intuition congruence|by intros [? ?]].
    + rewrite lookup_delete_ne by done. intuition congruence.
  - intros k' e. rewrite lookup_delete.
    destruct (decide (k = k')); [done|]. apply Hnn.
  - rewrite Hsub, sized_usage_total. simpl. lia.
  - rewrite Hsub. lia.
Qed.

(** The turns that [Put] grants the loop suffice: where [evictLoop]
    stops, the condition of the loop is false or [Back()] is nil. *)
Lemma sized_evictLoop_stops n e c :
  (length (sized.lru c) ≤ n)%nat →
  (sized.currentSize (sized.evictLoop zero n e c)
     >? goint.sub (sized.maxSize (sized.evictLoop zero n e c)) e) = false
  ∨ golist.Back (sized.lru (sized.evictLoop zero n e c)) = None.
Proof.
  revert c. induction n as [|n IH]; intros c Hlen; simpl.
  - right. destruct (sized.lru c); [done|simpl in Hlen; lia].
  - destruct (sized.currentSize c >? goint.sub (sized.maxSize c) e)
      eqn:Hcond; [|by left].
    destruct (golist.Back (sized.lru c)) as [back|] eqn:Hback; [|by right].
    apply IH. simpl. apply Back_elem_of, Remove_length in Hback. lia.
Qed.

(** The eviction loop ends with room for the new entry, within the
    turns that [Put] grants it. *)
Lemma sized_evictLoop_exit n e c :
  sized.maxSize c < 2 ^ 63 → sized_inv c → 0 ≤ e ≤ sized.maxSize c →
  (length (sized.lru c) ≤ n)%nat →
  let c' := sized.evictLoop zero n e c in
  sized_inv c'
  ∧ sized.currentSize c' + e ≤ sized.maxSize c'
  ∧ sized.maxSize c' = sized.maxSize c
  ∧ sized.sizeFn c' = sized.sizeFn c
  ∧ (∀ k, sized.items c !! k = None → sized.items c' !! k = None).
Proof.
  revert c. induction n as [|n IH]; intros c Hint Hinv He Hlen; simpl.
  - assert (sized.lru c = []) as Hnil by (apply length_zero_iff_nil; lia).
    pose proof (sized_inv_empty c Hinv Hnil). split_and!; auto; lia.
  - rewrite Z.gtb_ltb.
    assert (goint.sub (sized.maxSize c) e = sized.maxSize c - e) as ->.
    { apply wrap64_in_int. unfold goint.in_int. lia. }
    destruct (Z.ltb_spec (sized.maxSize c - e) (sized.currentSize c))
      as [Hfull|Hroom]; [|split_and!; auto; lia].
    destruct (golist.Back (sized.lru c)) as [back|] eqn:Hback.
    + pose proof (Back_elem_of _ _ Hback) as Hin.
      pose proof Hinv as [_ _ Hdom _ _ _].
      apply Hdom in Hin as Hsome. destruct Hsome as [e0 He0].
      unfold sized.entryOf. rewrite He0. simpl.
      set (c1 := sized.mkSizedCache _ _ _ _ _).
      destruct (IH c1) as (Hinv' & Hb' & Hm' & Hf' & Hnone).
      * done.
      * by apply sized_inv_remove.
      * done.
      * subst c1. simpl. apply Remove_length in Hin. lia.
      * split_and!; auto. intros k Hk. apply Hnone. subst c1. simpl.
        rewrite lookup_delete. by destruct (decide (back = k)).
    + apply last_None in Hback.
      pose proof (sized_inv_empty c Hinv Hback). split_and!; auto; lia.
Qed.

Lemma sized_Put_fields c k v :
  sized.maxSize (sized.Put zero c k v) = sized.maxSize c
  ∧ sized.sizeFn (sized.Put zero c k v) = sized.sizeFn c.
Proof.
  assert (∀ n e c0, sized.maxSize (sized.evictLoop zero n e c0) = sized.maxSize c0
                    ∧ sized.sizeFn (sized.evictLoop zero n e c0) = sized.sizeFn c0)
    as Hloop.
  { induction n as [|n IH]; intros e c0; simpl; [done|].
    destruct (_ >? _); [|done].
    destruct (golist.Back _); [|done].
    destruct (IH e (sized.mkSizedCache (sized.maxSize c0)
      (goint.sub (sized.currentSize c0) (sized.size (sized.entryOf zero c0 k0)))
      (sized.sizeFn c0) (delete k0 (sized.items c0))
      (golist.Remove k0 (sized.lru c0)))) as [-> ->]. done. }
  unfold sized.Put. destruct (_ >? _); [done|]. simpl.
  destruct (sized.items c !! k);
    (split; [rewrite (proj1 (Hloop _ _ _))|rewrite (proj2 (Hloop _ _ _))]; done).
Qed.

Lemma sized_inv_Put c k v :
  sized_ok c → sized_inv c → sized_inv (sized.Put zero c k v).
Proof.
  intros [Hfn Hint] Hinv. unfold sized.Put.
  pose proof (Hfn k v) as He. set (e := sized.sizeFn c k v) in *.
  rewrite Z.gtb_ltb.
  destruct (Z.ltb_spec (sized.maxSize c) e) as [Hbig|Hfit].
  { apply sized_inv_flushLocked, Hinv. }
  set (c1 := match sized.items c !! k with Some _ => _ | None => c end).
  assert (sized_inv c1 ∧ sized.items c1 !! k = None
          ∧ sized.maxSize c1 = sized.maxSize c) as (Hinv1 & Hk1 & Hm1).
  { subst c1. destruct (sized.items c !! k) as [old|] eqn:Hk.
    - split; [by apply sized_inv_remove|]. simpl.
      by rewrite lookup_delete_eq.
    - done. }
  destruct (sized_evictLoop_exit (length (sized.lru c1)) e c1)
    as (Hinv2 & Hb2 & Hm2 & _ & Hnone); [lia|done|lia|done|].
  set (c2 := sized.evictLoop zero _ e c1) in *.
  specialize (Hnone k Hk1).
  destruct Hinv2 as [Hm Hnd Hdom Hnn Hu Hb].
  assert (0 ≤ sized.currentSize c2) as Hpos.
  { rewrite Hu, sized_usage_total. by apply total_nonneg. }
  assert (goint.add (sized.currentSize c2) e = sized.currentSize c2 + e)
    as Hadd.
  { apply wrap64_in_int. unfold goint.in_int. lia. }
  split; simpl.
  - done.
  - apply list.NoDup_cons. split; [|done]. rewrite Hdom, Hnone. by intros [? ?].
  - intros k'. unfold golist.PushFront. rewrite elem_of_cons, Hdom.
    destruct (decide (k = k')) as [->|Hne].
    + rewrite lookup_insert_eq. split; eauto.
    + rewrite lookup_insert_ne by done. intuition congruence.
  - intros k' e'. rewrite lookup_insert.
    destruct (decide (k = k')); [|apply Hnn].
    intros [= <-]. done.
  - rewrite Hadd, sized_usage_total. simpl.
    rewrite total_insert by done. simpl.
    rewrite sized_usage_total in Hu. lia.
  - rewrite Hadd. lia.
Qed.

Lemma sized_inv_Get c k : sized_inv c → sized_inv (sized.Get zero c k).2.
Proof.
  intros Hinv. unfold sized.Get.
  destruct (sized.items c !! k) as [e|] eqn:Hk; [|done].
  destruct Hinv as [Hm Hnd Hdom Hnn Hu Hb]. split; simpl; try done.
  - by apply NoDup_MoveToFront.
  - intros k'. by rewrite MoveToFront_elem_of, Hdom.
Qed.

Lemma sized_inv_Evict c k :
  sized_ok c → sized_inv c → sized_inv (sized.Evict c k).
Proof.
  intros [_ Hint] Hinv. unfold sized.Evict.
  destruct (sized.items c !! k) eqn:Hk; [|done]. by apply sized_inv_remove.
Qed.

Lemma sized_ok_Put c k v : sized_ok (sized.Put zero c k v) ↔ sized_ok c.
Proof.
  unfold sized_ok. destruct (sized_Put_fields c k v) as [-> ->]. done.
Qed.

Lemma sized_ok_Get c k : sized_ok (sized.Get zero c k).2 ↔ sized_ok c.
Proof. unfold sized.Get. by destruct (sized.items c !! k). Qed.

Lemma sized_ok_Evict c k : sized_ok (sized.Evict c k) ↔ sized_ok c.
Proof. unfold sized.Evict. by destruct (sized.items c !! k). Qed.

Lemma sized_reachable_inv c :
  sized.reachable zero c → sized_ok c → sized_inv c.
Proof.
  induction 1 as [n f|c k v _ IH|c k _ IH|c k _ IH|c _ IH]; intros Hok.
  - apply sized_inv_NewSizedCache.
  - apply sized_ok_Put in Hok. by apply sized_inv_Put, IH.
  - apply sized_ok_Get in Hok. by apply sized_inv_Get, IH.
  - apply sized_ok_Evict in Hok. by apply sized_inv_Evict, IH.
  - apply sized_inv_flushLocked, IH, Hok.
Qed.

(** The byte bound of the capacity property for [SizedCache]: in every
    reachable state the sum of the sizes of the live entries is the
    recorded usage and is at most the normalized budget. *)
Lemma sized_usage_le_maxSize c :
  sized.reachable zero c → sized_ok c →
  sized.usage c = sized.currentSize c ∧ sized.usage c ≤ sized.maxSize c.
Proof.
  intros Hc Hok. destruct (sized_reachable_inv c Hc Hok) as [_ _ _ _ Hu Hb].
  rewrite <-Hu. done.
Qed.

End sized_facts.

(** ** The sharded byte cache *)

Section bytecache_facts.
Implicit Types (c : bytecache.Cache) (s : bytecache.byteShard)
  (key dst value : bytecache.slice).

Lemma shardIndex_range key :
  0 ≤ bytecache.shardIndex key < bytecache.numShards.
Proof.
  unfold bytecache.shardIndex, bytecache.shardMask, bytecache.numShards.
  change (256 - 1) with (Z.ones 8).
  rewrite Z.land_ones by lia.
  apply Z.mod_pos_bound. lia.
Qed.

Lemma shardIndex_bytes key1 key2 :
  default [] key1 = default [] key2 →
  bytecache.shardIndex key1 = bytecache.shardIndex key2.
Proof. unfold bytecache.shardIndex. by intros ->. Qed.

Lemma string_of_bytes key1 key2 :
  default [] key1 = default [] key2 →
  bytecache.string_of key1 = bytecache.string_of key2.
Proof. unfold bytecache.string_of. by intros ->. Qed.

Lemma withShard_other c key s i :
  i ≠ Z.to_nat (bytecache.shardIndex key) →
  bytecache.shards (bytecache.withShard c key s) !! i
  = bytecache.shards c !! i.
Proof. intros Hi. simpl. by rewrite list_lookup_insert_ne. Qed.

Lemma withShard_length c key s :
  length (bytecache.shards (bytecache.withShard c key s))
  = length (bytecache.shards c).
Proof. simpl. apply length_insert. Qed.

(** An operation on [key] leaves every other shard as it is. *)
Lemma Set_other c key value i :
  i ≠ Z.to_nat (bytecache.shardIndex key) →
  bytecache.shards (bytecache.Set_ c key value) !! i
  = bytecache.shards c !! i.
Proof.
  intros Hi. unfold bytecache.Set_. cbv zeta.
  destruct (_ >? _); [done|].
  destruct (bytecache.items _ !! _); by rewrite withShard_other.
Qed.

Lemma Get_other c dst key i :
  i ≠ Z.to_nat (bytecache.shardIndex key) →
  bytecache.shards (bytecache.Get c dst key).2 !! i
  = bytecache.shards c !! i.
Proof.
  intros Hi. unfold bytecache.Get. cbv zeta.
  destruct (bytecache.items _ !! _); destruct dst; simpl; try done;
    by rewrite list_lookup_insert_ne.
Qed.

Lemma HasGet_other c dst key i :
  i ≠ Z.to_nat (bytecache.shardIndex key) →
  bytecache.shards (bytecache.HasGet c dst key).2 !! i
  = bytecache.shards c !! i.
Proof.
  intros Hi. unfold bytecache.HasGet. cbv zeta.
  destruct (bytecache.items _ !! _); destruct dst; simpl; try done;
    by rewrite list_lookup_insert_ne.
Qed.

Lemma Del_other c key i :
  i ≠ Z.to_nat (bytecache.shardIndex key) →
  bytecache.shards (bytecache.Del c key) !! i = bytecache.shards c !! i.
Proof.
  intros Hi. unfold bytecache.Del. cbv zeta.
  destruct (bytecache.items _ !! _); [|done]. by rewrite withShard_other.
Qed.

Lemma Set_length c key value :
  length (bytecache.shards (bytecache.Set_ c key value))
  = length (bytecache.shards c).
Proof.
  unfold bytecache.Set_. cbv zeta. destruct (_ >? _); [done|].
  destruct (bytecache.items _ !! _); by rewrite withShard_length.
Qed.

Lemma Get_length c dst key :
  length (bytecache.shards (bytecache.Get c dst key).2)
  = length (bytecache.shards c).
Proof.
  unfold bytecache.Get. cbv zeta.
  destruct (bytecache.items _ !! _); destruct dst; simpl; try done; apply length_insert.
Qed.

Lemma HasGet_length c dst key :
  length (bytecache.shards (bytecache.HasGet c dst key).2)
  = length (bytecache.shards c).
Proof.
  unfold bytecache.HasGet. cbv zeta.
  destruct (bytecache.items _ !! _); destruct dst; simpl; try done; apply length_insert.
Qed.

Lemma Del_length c key :
  length (bytecache.shards (bytecache.Del c key))
  = length (bytecache.shards c).
Proof.
  unfold bytecache.Del. cbv zeta.
  destruct (bytecache.items _ !! _); [|done]. by rewrite withShard_length.
Qed.

(** The shard array keeps its [numShards] slots. *)
Lemma reachable_shards_length c :
  bytecache.reachable c →
  length (bytecache.shards c) = Z.to_nat bytecache.numShards.
Proof.
  induction 1 as [n|c k v _ IH|c dst k _ IH|c dst k _ IH|c k _ IH|c _ IH].
  - unfold bytecache.New. cbn [bytecache.shards]. apply length_replicate.
  - by rewrite Set_length.
  - by rewrite Get_length.
  - by rewrite HasGet_length.
  - by rewrite Del_length.
  - simpl. by rewrite length_fmap.
Qed.

(** The shard that [shard] returns is the slot of the array at the
    key's index. *)
Lemma shard_lookup c key :
  bytecache.reachable c →
  bytecache.shards c !! Z.to_nat (bytecache.shardIndex key)
  = Some (bytecache.shard c key).
Proof.
  intros Hc. unfold bytecache.shard. apply list_lookup_lookup_total_lt.
  rewrite reachable_shards_length by done.
  pose proof (shardIndex_range key). lia.
Qed.

(** What a lookup sees is decided by the key's shard alone. *)
Lemma lookups_of_shard c c' dst key :
  bytecache.shard c key = bytecache.shard c' key →
  bytecache.Has c key = bytecache.Has c' key
  ∧ (bytecache.Get c dst key).1 = (bytecache.Get c' dst key).1
  ∧ (bytecache.HasGet c dst key).1 = (bytecache.HasGet c' dst key).1.
Proof.
  intros Hs. unfold bytecache.Has, bytecache.Get, bytecache.HasGet.
  change (bytecache.shard (bytecache.mkCache (bytecache.shards ?c) _ _ _ _) key)
    with (bytecache.shard c key).
  unfold bytecache.shard in *. simpl. rewrite Hs.
  destruct (bytecache.items _ !! _); destruct dst; done.
Qed.

(** The turns that [Set_] grants its eviction loop suffice: where
    [evictLoop] stops, the condition of the loop is false or the tail is
    nil. *)
Lemma bytecache_evictLoop_stops n e s :
  (length (bytecache.order s) ≤ n)%nat →
  (goint.add (bytecache.currentSize (bytecache.evictLoop n e s)) e
     >? bytecache.maxSize (bytecache.evictLoop n e s)) = false
  ∨ bytecache.tail (bytecache.evictLoop n e s) = None.
Proof.
  revert s. induction n as [|n IH]; intros s Hlen; simpl.
  - right. unfold bytecache.tail.
    destruct (bytecache.order s); [done|simpl in Hlen; lia].
  - destruct (goint.add (bytecache.currentSize s) e >? bytecache.maxSize s)
      eqn:Hcond; [|by left].
    destruct (bytecache.tail s) as [old|] eqn:Htail; [|by right].
    apply IH. simpl. apply last_Some_elem_of, Remove_length in Htail. lia.
Qed.

(** An oversized [Set_] only counts the call. *)
Lemma Set_oversized c key value :
  bytecache.maxSize (bytecache.shard c key)
    < Z.of_nat (String.length (bytecache.string_of key))
      + bytecache.len (bytecache.append None value) →
  bytecache.Set_ c key value
  = {| bytecache.shards := bytecache.shards c;
       bytecache.maxBytes := bytecache.maxBytes c;
       bytecache.getCalls := bytecache.getCalls c;
       bytecache.setCalls := goint.AddUint64 (bytecache.setCalls c) 1;
       bytecache.misses := bytecache.misses c |}.
Proof.
  intros Hbig. unfold bytecache.Set_.
  change (bytecache.shard (bytecache.mkCache (bytecache.shards c) _ _ _ _) key)
    with (bytecache.shard c key).
  rewrite Z.gtb_ltb.
  destruct (Z.ltb_spec (bytecache.maxSize (bytecache.shard c key))
    (Z.of_nat (String.length (bytecache.string_of key))
     + bytecache.len (bytecache.append None value))); [done|lia].
Qed.



End bytecache_facts.

(** ** Scenarios on the count bounded cache *)

Section lru_steps.
Context {K V : Type} `{Countable K}.
Variable zero : V.
Implicit Types (c : lru.Cache K V) (k key : K) (v : V).

Lemma lru_Put_room c k v :
  lru.elements c !! k = None → lru.Len c < lru.size c →
  lru.Put c k v
  = {| lru.size := lru.size c;
       lru.elements := <[k := v]> (lru.elements c);
       lru.order := k :: lru.order c |}.
Proof.
  intros Hk Hroom. unfold lru.Put, lru.Len in *. rewrite Hk, Z.geb_leb.
  by destruct (Z.leb_spec (lru.size c) (golist.Len (lru.order c))); [lia|].
Qed.

Lemma lru_Put_full c k v oldest :
  lru.elements c !! k = None → lru.size c ≤ lru.Len c →
  golist.Back (lru.order c) = Some oldest →
  lru.Put c k v
  = {| lru.size := lru.size c;
       lru.elements := <[k := v]> (delete oldest (lru.elements c));
       lru.order := k :: golist.Remove oldest (lru.order c) |}.
Proof.
  intros Hk Hfull Hback. unfold lru.Put, lru.Len in *.
  rewrite Hk, Hback, Z.geb_leb.
  by destruct (Z.leb_spec (lru.size c) (golist.Len (lru.order c))); [|lia].
Qed.

Lemma lru_Get_hit c k v :
  lru.elements c !! k = Some v →
  lru.Get zero c k
  = ((v, true),
     {| lru.size := lru.size c; lru.elements := lru.elements c;
        lru.order := golist.MoveToFront k (lru.order c) |}).
Proof. intros Hk. unfold lru.Get. by rewrite Hk. Qed.

Lemma lru_Get_miss c k :
  lru.elements c !! k = None → lru.Get zero c k = ((zero, false), c).
Proof. intros Hk. unfold lru.Get. by rewrite Hk. Qed.

Lemma lru_scenario_state (a b c d : K) (va vb vc vd : V) :
  a ≠ b → a ≠ c → a ≠ d → b ≠ c → b ≠ d → c ≠ d →
  lru.Put
    (lru.Get zero
       (lru.Put (lru.Put (lru.Put (lru.NewCache 3) a va) b vb) c vc) a).2
    d vd
  = {| lru.size := 3;
       lru.elements :=
         <[d := vd]> (delete b (<[c := vc]> (<[b := vb]> (<[a := va]> ∅))));
       lru.order := [d; a; c] |}.
Proof.
  intros Hab Hac Had Hbc Hbd Hcd.
  assert (lru.Put (lru.NewCache 3) a va
          = lru.mkCache 3 (<[a := va]> ∅) [a]) as ->.
  { by rewrite lru_Put_room. }
  assert (lru.Put (lru.mkCache 3 (<[a := va]> ∅) [a]) b vb
          = lru.mkCache 3 (<[b := vb]> (<[a := va]> ∅)) [b; a]) as ->.
  { rewrite lru_Put_room; cbn [lru.elements lru.order lru.size];
      [done|by rewrite lookup_insert_ne, lookup_empty|by vm_compute]. }
  assert (lru.Put (lru.mkCache 3 (<[b := vb]> (<[a := va]> ∅)) [b; a]) c vc
          = lru.mkCache 3 (<[c := vc]> (<[b := vb]> (<[a := va]> ∅)))
              [c; b; a]) as ->.
  { rewrite lru_Put_room; cbn [lru.elements lru.order lru.size];
      [done|by rewrite !lookup_insert_ne, lookup_empty|by vm_compute]. }
  assert (golist.MoveToFront a [c; b; a] = [a; c; b]) as Hmove.
  { unfold golist.MoveToFront. rewrite decide_True by set_solver.
    rewrite decide_False by (simpl; congruence).
    simpl. by rewrite !decide_False, decide_True by done. }
  rewrite (lru_Get_hit _ a va); cbn [lru.elements lru.order lru.size snd];
    [|by rewrite !lookup_insert_ne, lookup_insert_eq by done].
  rewrite Hmove.
  rewrite (lru_Put_full _ d vd b);
    cbn [lru.elements lru.order lru.size golist.Remove];
    [|by rewrite !lookup_insert_ne, lookup_empty|by vm_compute|done].
  by rewrite !decide_False, decide_True by done.
Qed.

End lru_steps.

(** ** The container store and lru/cache.go *)

Section container_steps.
Context {K V W : Type} `{Countable K}.
Implicit Types (c : container.Cache K V W) (k key : K) (v : V) (w : W).

Lemma container_evictLoop_room n sz c w :
  container.usage c + sz ≤ container.budget c →
  container.evictLoop n sz c w = (c, w).
Proof.
  intros Hroom. destruct n as [|n]; simpl; [done|].
  by destruct (Z.ltb_spec (container.budget c) (container.usage c + sz));
    [lia|].
Qed.

Lemma container_Put_room c k v w :
  1 ≤ container.budget c → container.lookup c !! k = None →
  container.usage c + 1 ≤ container.budget c →
  container.Put c k v w
  = ({| container.budget := container.budget c;
        container.usage := container.usage c + 1;
        container.lookup :=
          <[k := {| container.value := v; container.size := 1 |}]>
            (container.lookup c);
        container.recency := k :: container.recency c;
        container.onEvict := container.onEvict c |}, w).
Proof.
  intros Hb Hk Hroom. unfold container.Put, container.sizingPolicy.
  destruct (Z.ltb_spec (container.budget c) 1); [lia|].
  rewrite Hk. by rewrite container_evictLoop_room.
Qed.

Lemma container_Put_full c k v w tail e :
  1 ≤ container.budget c → container.lookup c !! k = None →
  container.budget c < container.usage c + 1 →
  list.last (container.recency c) = Some tail →
  container.lookup c !! tail = Some e →
  container.usage c - container.size e + 1 ≤ container.budget c →
  container.Put c k v w
  = ({| container.budget := container.budget c;
        container.usage := container.usage c - container.size e + 1;
        container.lookup :=
          <[k := {| container.value := v; container.size := 1 |}]>
            (delete tail (container.lookup c));
        container.recency := k :: golist.Remove tail (container.recency c);
        container.onEvict := container.onEvict c |},
     container.invoke c tail (container.value e) w).
Proof.
  intros Hb Hk Hfull Hlast Htail Hroom.
  unfold container.Put, container.sizingPolicy.
  destruct (Z.ltb_spec (container.budget c) 1); [lia|].
  rewrite Hk.
  destruct (container.recency c) as [|k0 l] eqn:Hrec; [done|].
  cbn [length container.evictLoop].
  destruct (Z.ltb_spec (container.budget c) (container.usage c + 1)); [|lia].
  rewrite Hrec, Hlast, Htail.
  by rewrite container_evictLoop_room.
Qed.

Lemma container_Delete_fields c k :
  container.onEvict (container.Delete c k) = container.onEvict c
  ∧ container.budget (container.Delete c k) = container.budget c.
Proof. unfold container.Delete. by destruct (container.lookup c !! k). Qed.

End container_steps.

Section lrucontainer_facts.
Context {K V W : Type} `{Countable K}.
Variable zero : V.
Implicit Types (c : lrucontainer.Cache K V W) (k key : K) (v : V) (w : W).

Lemma lrucontainer_Put_run c k v w :
  lrucontainer.mu c = false →
  lrucontainer.Put k v (c, w)
  = lrucontainer.Returns
      (tt, ({| lrucontainer.mu := false;
               lrucontainer.containerCache :=
                 (container.Put (lrucontainer.containerCache c) k v w).1;
               lrucontainer.capacity := lrucontainer.capacity c;
               lrucontainer.onEvict := lrucontainer.onEvict c |},
            (container.Put (lrucontainer.containerCache c) k v w).2)).
Proof.
  intros Hmu. unfold lrucontainer.Put, lrucontainer.locked,
    lrucontainer.bind, lrucontainer.Lock. rewrite Hmu. simpl.
  by destruct (container.Put _ _ _ _).
Qed.

(** [Evict] returns and leaves the world of the callback as it is. *)
Lemma lrucontainer_Evict_run c k w :
  lrucontainer.mu c = false →
  lrucontainer.Evict k (c, w)
  = lrucontainer.Returns
      (tt, ({| lrucontainer.mu := false;
               lrucontainer.containerCache :=
                 container.Delete (lrucontainer.containerCache c) k;
               lrucontainer.capacity := lrucontainer.capacity c;
               lrucontainer.onEvict := lrucontainer.onEvict c |}, w)).
Proof.
  intros Hmu. unfold lrucontainer.Evict, lrucontainer.Delete,
    lrucontainer.locked, lrucontainer.bind, lrucontainer.Lock.
  by rewrite Hmu.
Qed.

(** [Flush] returns and leaves the world of the callback as it is. *)
Lemma lrucontainer_Flush_run c w :
  lrucontainer.mu c = false →
  lrucontainer.Flush (c, w)
  = lrucontainer.Returns
      (tt, ({| lrucontainer.mu := false;
               lrucontainer.containerCache :=
                 container.NewLRUCache (lrucontainer.capacity c);
               lrucontainer.capacity := lrucontainer.capacity c;
               lrucontainer.onEvict := lrucontainer.onEvict c |}, w)).
Proof.
  intros Hmu. unfold lrucontainer.Flush, lrucontainer.Clear,
    lrucontainer.locked, lrucontainer.bind, lrucontainer.Lock.
  by rewrite Hmu.
Qed.

Lemma lrucontainer_Len_run c w :
  lrucontainer.mu c = false →
  lrucontainer.Len (c, w)
  = lrucontainer.Returns
      (container.Len (lrucontainer.containerCache c),
       ({| lrucontainer.mu := false;
           lrucontainer.containerCache := lrucontainer.containerCache c;
           lrucontainer.capacity := lrucontainer.capacity c;
           lrucontainer.onEvict := lrucontainer.onEvict c |}, w)).
Proof.
  intros Hmu. unfold lrucontainer.Len, lrucontainer.locked,
    lrucontainer.bind, lrucontainer.Lock.
  by rewrite Hmu.
Qed.

(** The three insertions of the callback scenario, from the fresh
    cache of capacity 2. *)
Lemma lrucontainer_scenario_state (x y z : K) (vx vy vz : V)
    (f : K → V → W → W) w :
  x ≠ y → x ≠ z → y ≠ z →
  lrucontainer.bind (lrucontainer.Put x vx) (fun _ =>
    lrucontainer.bind (lrucontainer.Put y vy) (fun _ =>
      lrucontainer.Put z vz))
    (lrucontainer.NewCacheWithOnEvict 2 (Some f), w)
  = lrucontainer.Returns
      (tt, ({| lrucontainer.mu := false;
               lrucontainer.containerCache :=
                 {| container.budget := 2; container.usage := 2;
                    container.lookup :=
                      <[z := container.mkEntry vz 1]>
                        (delete x
                           (<[y := container.mkEntry vy 1]>
                              (<[x := container.mkEntry vx 1]> ∅)));
                    container.recency := [z; y];
                    container.onEvict := Some f |};
               lrucontainer.capacity := 2;
               lrucontainer.onEvict := Some f |},
            f x vx w)).
Proof.
  intros Hxy Hxz Hyz.
  set (e1 := container.mkEntry vx 1).
  set (e2 := container.mkEntry vy 1).
  set (e3 := container.mkEntry vz 1).
  set (cc1 := container.mkCache 2 1 (<[x := e1]> ∅) [x] (Some f)).
  set (cc2 := container.mkCache 2 2 (<[y := e2]> (<[x := e1]> ∅)) [y; x]
                (Some f)).
  assert (container.Put (container.NewLRUCacheWithOnEvict 2 (Some f)) x vx w
          = (cc1, w)) as H1.
  { by rewrite container_Put_room. }
  assert (container.Put cc1 y vy w = (cc2, w)) as H2.
  { rewrite container_Put_room;
      [done|done|by subst cc1; cbn; rewrite lookup_insert_ne, lookup_empty
      |done]. }
  assert (container.Put cc2 z vz w
          = (container.mkCache 2 2 (<[z := e3]> (delete x (<[y := e2]>
               (<[x := e1]> ∅)))) [z; y] (Some f), f x vx w)) as H3.
  { rewrite (container_Put_full _ z vz w x e1); subst cc2; cbn;
      [|done|by rewrite !lookup_insert_ne, lookup_empty|done|done
       |by rewrite lookup_insert_ne, lookup_insert_eq|done].
    by rewrite decide_False, decide_True by done. }
  unfold lrucontainer.bind.
  rewrite lrucontainer_Put_run by done.
  cbn [lrucontainer.NewCacheWithOnEvict lrucontainer.containerCache
       lrucontainer.capacity lrucontainer.onEvict Z.leb Z.compare].
  rewrite H1. cbn [fst snd].
  rewrite lrucontainer_Put_run by done.
  cbn [lrucontainer.containerCache lrucontainer.capacity lrucontainer.onEvict].
  rewrite H2. cbn [fst snd].
  rewrite lrucontainer_Put_run by done.
  cbn [lrucontainer.containerCache lrucontainer.capacity lrucontainer.onEvict].
  by rewrite H3.
Qed.

(** [PortionFilled] takes the mutex and then calls [Len], which takes it
    again: the call never returns, whatever the state. *)
Lemma lrucontainer_PortionFilled_blocks c w :
  lrucontainer.PortionFilled (c, w) = lrucontainer.Blocked.
Proof.
  unfold lrucontainer.PortionFilled, lrucontainer.locked, lrucontainer.bind,
    lrucontainer.Len, lrucontainer.Lock.
  by destruct (lrucontainer.mu c).
Qed.

End lrucontainer_facts.

(** ** float64 *)

Section float64_facts.

Lemma digits2_pos_size p : digits2_pos p = Pos.size p.
Proof. induction p; simpl; congruence. Qed.

Lemma Zdigits2_log2 m : 0 < m → Zdigits2 m = Z.log2 m + 1.
Proof.
  destruct m as [|p|p]; try lia. intros _. simpl.
  rewrite digits2_pos_size.
  destruct p; simpl; lia.
Qed.

Lemma Zdigits2_pos m : 0 < m → 0 < Zdigits2 m.
Proof.
  intros Hm. rewrite Zdigits2_log2 by done.
  pose proof (Z.log2_nonneg m). lia.
Qed.

Lemma shr_1_pos mrs :
  1 < Zdigits2 (shr_m mrs) → 0 < shr_m mrs →
  0 < shr_m (shr_1 mrs)
  ∧ Zdigits2 (shr_m (shr_1 mrs)) = Zdigits2 (shr_m mrs) - 1.
Proof.
  destruct mrs as [m r s]. simpl.
  destruct m as [|[p|p|]|]; simpl; try lia.
Qed.

Lemma iter_shr_1_pos n : ∀ mrs,
  Z.pos n < Zdigits2 (shr_m mrs) → 0 < shr_m mrs →
  0 < shr_m (SpecFloat.iter_pos shr_1 n mrs)
  ∧ Zdigits2 (shr_m (SpecFloat.iter_pos shr_1 n mrs)) = Zdigits2 (shr_m mrs) - Z.pos n.
Proof.
  induction n as [n IH|n IH|]; intros mrs Hn Hm; simpl.
  - destruct (shr_1_pos mrs) as [H1 H1']; [lia|done|].
    destruct (IH (shr_1 mrs)) as [H2 H2']; [lia|done|].
    destruct (IH (SpecFloat.iter_pos shr_1 n (shr_1 mrs))) as [H3 H3']; [lia|done|].
    split; [done|lia].
  - destruct (IH mrs) as [H2 H2']; [lia|done|].
    destruct (IH (SpecFloat.iter_pos shr_1 n mrs)) as [H3 H3']; [lia|done|].
    split; [done|lia].
  - apply shr_1_pos; [lia|done].
Qed.

Lemma shr_m_of_loc m l : shr_m (shr_record_of_loc m l) = m.
Proof. by destruct l as [|[]]. Qed.

(** Shifting a positive mantissa to its exponent keeps it positive and
    keeps the sum of exponent and digits, above the underflow range. *)
Lemma shr_fexp_pos m e l :
  0 < m → -1074 < e + Zdigits2 m →
  0 < shr_m (shr_fexp 53 1024 m e l).1
  ∧ (shr_fexp 53 1024 m e l).2 + Zdigits2 (shr_m (shr_fexp 53 1024 m e l).1)
    = e + Zdigits2 m.
Proof.
  intros Hm He. unfold shr_fexp, shr, fexp, emin.
  pose proof (shr_m_of_loc m l) as Hloc.
  destruct (Z.max (Zdigits2 m + e - 53) (3 - 1024 - 53) - e) as [|n|n] eqn:Hn;
    simpl; rewrite ?Hloc; try done.
  destruct (iter_shr_1_pos n (shr_record_of_loc m l)) as [H1 H2];
    rewrite ?Hloc; [lia|done|]. rewrite Hloc in H2. split; [done|lia].
Qed.

Lemma round_nearest_even_bounds m l :
  m ≤ round_nearest_even m l ≤ m + 1.
Proof.
  unfold round_nearest_even. destruct l as [|[]]; try lia.
  destruct (Z.even m); lia.
Qed.

Lemma Zdigits2_mono m m' : 0 < m ≤ m' → Zdigits2 m ≤ Zdigits2 m'.
Proof.
  intros Hm. rewrite !Zdigits2_log2 by lia.
  pose proof (Z.log2_le_mono m m'). lia.
Qed.

Lemma Zdigits2_succ m : 0 < m → Zdigits2 (m + 1) ≤ Zdigits2 m + 1.
Proof.
  intros Hm. rewrite !Zdigits2_log2 by lia.
  pose proof (Z.log2_succ_le m) as Hle. rewrite <-Z.add_1_r in Hle. lia.
Qed.

(** Rounding a positive mantissa above the underflow range gives a
    finite number or an infinity, and a finite number when the value is
    below 2 ^ 64. *)
Lemma binary_round_aux_pos s m e l :
  0 < m → -1074 < e + Zdigits2 m →
  match binary_round_aux 53 1024 s m e l with
  | S754_finite s' _ _ | S754_infinity s' => s' = s
  | _ => False
  end
  ∧ (e + Zdigits2 m ≤ 64 →
     ∃ m' e', binary_round_aux 53 1024 s m e l = S754_finite s m' e').
Proof.
  intros Hm He. unfold binary_round_aux.
  destruct (shr_fexp_pos m e l Hm He) as [H1 H1'].
  destruct (shr_fexp 53 1024 m e l) as [mrs' e1]. simpl in *.
  pose proof (round_nearest_even_bounds (shr_m mrs') (loc_of_shr_record mrs'))
    as Hround.
  set (m2 := round_nearest_even _ _) in *.
  assert (Zdigits2 (shr_m mrs') ≤ Zdigits2 m2 ≤ Zdigits2 (shr_m mrs') + 1)
    as Hd2.
  { split; [apply Zdigits2_mono; lia|].
    destruct (decide (m2 = shr_m mrs')) as [->|]; [lia|].
    assert (m2 = shr_m mrs' + 1) as -> by lia. by apply Zdigits2_succ. }
  destruct (shr_fexp_pos m2 e1 loc_Exact) as [H2 H2']; [lia|lia|].
  destruct (shr_fexp 53 1024 m2 e1 loc_Exact) as [mrs'' e2]. simpl in *.
  destruct (shr_m mrs'') as [|m''|] eqn:Hm''; try lia.
  split.
  - by destruct (e2 <=? 1024 - 53).
  - intros Hsmall. simpl in H2'.
    destruct (Z.leb_spec e2 (1024 - 53)); [by eauto|]. lia.
Qed.

Lemma digits2_pos_iter_xO d m :
  Z.pos (digits2_pos (Pos.iter xO m d)) = Z.pos (digits2_pos m) + Z.pos d.
Proof.
  induction d as [|d IH] using Pos.peano_ind.
  - simpl. lia.
  - rewrite Pos.iter_succ. simpl. lia.
Qed.

Lemma binary_round_pos s p :
  match binary_round 53 1024 s p 0 with
  | S754_finite s' _ _ | S754_infinity s' => s' = s
  | _ => False
  end
  ∧ (Z.pos p < 2 ^ 63 →
     ∃ m' e', binary_round 53 1024 s p 0 = S754_finite s m' e').
Proof.
  unfold binary_round, shl_align.
  assert (0 < Z.pos (digits2_pos p)) as Hd by lia.
  assert (Z.pos p < 2 ^ 63 → Z.pos (digits2_pos p) ≤ 63) as Hsmall.
  { intros Hp. change (Z.pos (digits2_pos p)) with (Zdigits2 (Z.pos p)).
    rewrite Zdigits2_log2 by lia.
    assert (Z.log2 (Z.pos p) < 63); [|lia]. apply Z.log2_lt_pow2; lia. }
  destruct (fexp 53 1024 (Z.pos (digits2_pos p) + 0) - 0) as [|d|d] eqn:Hshift.
  - destruct (binary_round_aux_pos s (Z.pos p) 0 loc_Exact) as [H1 H2];
      [lia|simpl; lia|].
    split; [done|]. intros Hp. apply H2. simpl. specialize (Hsmall Hp). lia.
  - destruct (binary_round_aux_pos s (Z.pos p) 0 loc_Exact) as [H1 H2];
      [lia|simpl; lia|].
    split; [done|]. intros Hp. apply H2. simpl. specialize (Hsmall Hp). lia.
  - pose proof (digits2_pos_iter_xO d p) as Hdig.
    unfold fexp, emin in *.
    destruct (binary_round_aux_pos s (Z.pos (Pos.iter xO p d))
                (Z.max (Z.pos (digits2_pos p) + 0 - 53) (3 - 1024 - 53))
                loc_Exact) as [H1 H2]; [lia|simpl; lia|].
    split; [done|]. intros Hp. apply H2. simpl. specialize (Hsmall Hp). lia.
Qed.

(** The conversion of a non-zero integer is not zero; that of a
    non-zero [int] is finite. *)
Lemma float64_of_int_nonzero z :
  z ≠ 0 →
  match float64_of_int z with
  | S754_finite s _ _ | S754_infinity s => s = (z <? 0)
  | _ => False
  end
  ∧ (- 2 ^ 63 ≤ z < 2 ^ 63 →
     ∃ m e, float64_of_int z = S754_finite (z <? 0) m e).
Proof.
  intros Hz. unfold float64_of_int, binary_normalize.
  destruct z as [|p|p]; [done| |].
  - destruct (binary_round_pos false p) as [H1 H2]. split; [done|].
    intros Hp. apply H2. lia.
  - destruct (binary_round_pos true p) as [H1 H2]. split; [done|].
    intros Hp. destruct (decide (Z.pos p = 2 ^ 63)) as [Heq|Hne].
    + injection Heq as ->. vm_compute. eauto.
    + apply H2. lia.
Qed.

(** A number divided by itself is 1. *)
Lemma SFdiv_diag s m e :
  SFdiv 53 1024 (S754_finite s m e) (S754_finite s m e)
  = S754_finite false 4503599627370496 (-52).
Proof.
  unfold SFdiv, SFdiv_core_binary.
  replace (Zdigits2 (Z.pos m) + e - (Zdigits2 (Z.pos m) + e)) with 0 by lia.
  replace (e - e) with 0 by lia.
  change (Z.min (fexp 53 1024 0) 0) with (-53).
  change (0 - -53) with 53.
  cbv beta iota zeta.
  assert (Z.div_eucl (Z.shiftl (Z.pos m) 53) (Z.pos m) = (2 ^ 53, 0)) as ->.
  { rewrite Z.shiftl_mul_pow2 by lia.
    pose proof (Z_div_mod (Z.pos m * 2 ^ 53) (Z.pos m) ltac:(lia)) as Hdm.
    destruct (Z.div_eucl (Z.pos m * 2 ^ 53) (Z.pos m)) as [q r].
    destruct Hdm as [Heq Hr].
    assert (q = 2 ^ 53) by nia. assert (r = 0) by nia. congruence. }
  assert (new_location (Z.pos m) 0 = loc_Exact) as ->.
  { unfold new_location. by destruct (Z.even (Z.pos m)). }
  destruct s; vm_compute; reflexivity.
Qed.

(** 0 divided by an int that is not 0 is 0. *)
Lemma float64_div_0 (b : Z) : b ≠ 0 → float64_div 0 b = Finite 0%Qc.
Proof.
  intros Hb. unfold float64_div.
  destruct (float64_of_int_nonzero b Hb) as [Hnz _].
  change (float64_of_int 0) with (S754_zero false).
  by destruct (float64_of_int b) as [| | |].
Qed.

(** An int that is not 0, divided by itself, is 1. *)
Lemma float64_div_diag (b : Z) :
  b ≠ 0 → - 2 ^ 63 ≤ b < 2 ^ 63 → float64_div b b = Finite 1%Qc.
Proof.
  intros Hb Hint. unfold float64_div.
  destruct (float64_of_int_nonzero b Hb) as [_ Hfin].
  destruct (Hfin Hint) as (m & e & ->). rewrite SFdiv_diag.
  simpl. f_equal. by apply Qc_is_canon.
Qed.

(** A zero divisor gives the special values of IEEE-754. *)
Lemma float64_div_by_0 (a : Z) :
  float64_div a 0
  = if a =? 0 then NaN else if 0 <? a then PosInf else NegInf.
Proof.
  unfold float64_div. change (float64_of_int 0) with (S754_zero false).
  destruct (Z.eqb_spec a 0) as [->|Ha]; [done|].
  destruct (float64_of_int_nonzero a Ha) as [Hnz _].
  destruct (float64_of_int a) as [|s|
|s m e]; try done; subst s; simpl;
    destruct (Z.ltb_spec a 0), (Z.ltb_spec 0 a); try done; lia.
Qed.

(** The quotients round: 1 / 3 is the float64 nearest to a third, and
    2 ^ 53 over 2 ^ 53 + 1 is 1. *)
Lemma float64_div_rounds :
  float64_div 1 3 = Finite (Q2Qc (6004799503160661 # 18014398509481984))
  ∧ float64_div (2 ^ 53) (2 ^ 53 + 1) = Finite 1%Qc.
Proof. split; vm_compute; f_equal; by apply Qc_is_canon. Qed.

End float64_facts.

Section PortionFilled_facts.
Context {K V : Type} `{Countable K}.
Variable zero : V.

(** [PortionFilled] of the count bounded cache: the quotient of the
    length by the size; 0 for the empty cache and 1 for the full one. *)
Lemma lru_PortionFilled_unit (c : lru.Cache K V) :
  lru.reachable zero c →
  lru.PortionFilled c = float64_div (lru.Len c) (lru.size c)
  ∧ (lru.Len c = 0 → lru.PortionFilled c = Finite 0%Qc)
  ∧ (lru.Len c = lru.size c → lru.size c < 2 ^ 63 →
     lru.PortionFilled c = Finite 1%Qc).
Proof.
  intros [Hs Hb _ _]%lru_reachable_inv. unfold lru.PortionFilled.
  fold (lru.Len c). split_and!.
  - done.
  - intros ->. apply float64_div_0. lia.
  - intros -> Hint. apply float64_div_diag; lia.
Qed.

(** [PortionFilled] of the size bounded cache. *)
Lemma sized_PortionFilled_unit (c : sized.SizedCache K V) :
  sized.reachable zero c → sized_ok c →
  sized.PortionFilled c
    = float64_div (sized.currentSize c) (sized.maxSize c)
  ∧ (sized.currentSize c = 0 → sized.PortionFilled c = Finite 0%Qc)
  ∧ (sized.currentSize c = sized.maxSize c
     → sized.PortionFilled c = Finite 1%Qc).
Proof.
  intros Hc Hok.
  destruct (sized_reachable_inv zero c Hc Hok) as [Hm _ _ Hnn Hu Hb].
  destruct Hok as [_ Hint].
  unfold sized.PortionFilled.
  destruct (Z.eqb_spec (sized.maxSize c) 0); [lia|]. split_and!.
  - done.
  - intros ->. by apply float64_div_0.
  - intros ->. apply float64_div_diag; lia.
Qed.

(** The guard of [SizedCache.PortionFilled]. *)
Lemma sized_PortionFilled_guard (c : sized.SizedCache K V) :
  sized.maxSize c = 0 → sized.PortionFilled c = Finite 0%Qc.
Proof. intros Hm. unfold sized.PortionFilled. by rewrite Hm. Qed.

End PortionFilled_facts.

(** ** Go's [==] and the built-in map *)

#[global] Instance identity_GoEqLaws (K : Type) `{EqDecision K} :
  @GoEqLaws K (identity_GoEq K).
Proof.
  split; unfold goeq, identity_GoEq.
  - intros k1 k2. apply bool_decide_ext. split; congruence.
  - intros k1 k2 k3. rewrite !bool_decide_eq_true. congruence.
Qed.

#[global] Instance string_GoEqLaws : GoEqLaws string.
Proof. apply identity_GoEqLaws. Qed.

#[global] Instance float64_GoEqLaws : GoEqLaws float64.
Proof.
  split; unfold goeq, float64_GoEq.
  - intros [p| | |] [q| | |]; simpl; try done.
    destruct (Qeq_bool p q) eqn:Hpq, (Qeq_bool q p) eqn:Hqp; try done.
    + apply Qeq_bool_iff, Qeq_sym, Qeq_bool_iff in Hpq. congruence.
    + apply Qeq_bool_iff, Qeq_sym, Qeq_bool_iff in Hqp. congruence.
  - intros [p| | |] [q| | |] [r| | |]; simpl; try done.
    rewrite !Qeq_bool_iff. apply Qeq_trans.
Qed.

Lemma identity_GoEq_refl (K : Type) `{EqDecision K} (k : K) :
  @goeq K (identity_GoEq K) k k = true.
Proof. unfold goeq, identity_GoEq. by apply bool_decide_eq_true. Qed.

(** A NaN is not equal to itself. *)
Lemma float64_eq_NaN (x : float64) : goeq NaN x = false ∧ goeq x NaN = false.
Proof. by destruct x. Qed.

Section gomap_facts.
Context {K A : Type} `{GoEqLaws K}.
Implicit Types (m : gomap.t K A) (k : K) (a : A).

(** A key that is [==] to some key is [==] to itself. *)
Lemma goeq_refl_l k k' : goeq k k' = true → goeq k k = true.
Proof.
  intros Hk. apply (goeq_trans k k' k); [done|]. by rewrite goeq_sym.
Qed.

Lemma goeq_refl_r k k' : goeq k' k = true → goeq k k = true.
Proof. rewrite goeq_sym. apply goeq_refl_l. Qed.

Lemma get_Some m k a :
  gomap.get m k = Some a → ∃ k', (k', a) ∈ m ∧ goeq k' k = true.
Proof.
  induction m as [|[k0 a0] m IH]; simpl; [done|].
  destruct (goeq k0 k) eqn:Hk0.
  - intros [= ->]. exists k0. split; [left|done].
  - intros (k' & Hin & Hk')%IH. exists k'. split; [by right|done].
Qed.

Lemma get_None m k :
  gomap.get m k = None ↔ ∀ k' a, (k', a) ∈ m → goeq k' k = false.
Proof.
  induction m as [|[k0 a0] m IH]; simpl.
  - split; [|done]. by intros _ k' a ?%elem_of_nil.
  - destruct (goeq k0 k) eqn:Hk0.
    + split; [done|]. intros Hall.
      specialize (Hall k0 a0 ltac:(left)). congruence.
    + rewrite IH. split.
      * intros Hall k' a [[= -> ->]|Hin]%elem_of_cons; eauto.
      * intros Hall k' a Hin. apply (Hall k' a). by right.
Qed.

(** Nothing is found under a key that is not [==] to itself. *)
Lemma get_irrefl m k : goeq k k = false → gomap.get m k = None.
Proof.
  intros Hk. apply get_None. intros k' a _.
  destruct (goeq k' k) eqn:Hk'; [|done].
  apply goeq_refl_r in Hk'. congruence.
Qed.

Lemma get_elem m k k' a :
  distinct_keys m → (k', a) ∈ m → goeq k' k = true → gomap.get m k = Some a.
Proof.
  induction m as [|[k0 a0] m IH]; simpl.
  - by intros _ ?%elem_of_nil.
  - intros [Hfirst Hrest] [[= -> ->]|Hin]%elem_of_cons Hk.
    + by rewrite Hk.
    + destruct (goeq k0 k) eqn:Hk0; [|by apply IH].
      specialize (Hfirst k' a Hin).
      assert (goeq k0 k' = true); [|congruence].
      apply (goeq_trans k0 k k'); [done|]. by rewrite goeq_sym.
Qed.

Lemma delete_None m k : gomap.get m k = None → gomap.delete m k = m.
Proof.
  induction m as [|[k0 a0] m IH]; simpl; [done|].
  destruct (goeq k0 k); [done|]. intros Hm. by rewrite IH.
Qed.

Lemma elem_of_delete m k x : x ∈ gomap.delete m k → x ∈ m.
Proof.
  induction m as [|[k0 a0] m IH]; simpl; [done|].
  destruct (goeq k0 k).
  - by right.
  - intros [->|Hin]%elem_of_cons; [left|right]. by apply IH.
Qed.

(** [delete] removes the entry that [get] finds, and nothing else. *)
Lemma elem_of_delete_found m k a x :
  NoDup m.*2 → gomap.get m k = Some a →
  x ∈ gomap.delete m k ↔ x ∈ m ∧ x.2 ≠ a.
Proof.
  induction m as [|[k0 p0] m IH]; simpl; [done|].
  intros [Hp0 Hnd]%list.NoDup_cons.
  destruct (goeq k0 k) eqn:Hk0.
  - intros [= ->]. rewrite elem_of_cons. split.
    + intros Hin. split; [by right|]. intros <-. apply Hp0.
      apply list_elem_of_fmap. by exists x.
    + intros [[->|Hin] Hne]; done.
  - intros Hget. rewrite !elem_of_cons, IH by done.
    split; [|intuition congruence].
    intros [->|[Hin Hne]]; [|by auto]. split; [by left|]. simpl. intros ->.
    apply Hp0. apply get_Some in Hget as (k' & Hin & _).
    apply list_elem_of_fmap. by exists (k', a).
Qed.

Lemma length_delete_found m k a :
  gomap.get m k = Some a → S (length (gomap.delete m k)) = length m.
Proof.
  induction m as [|[k0 a0] m IH]; simpl; [done|].
  destruct (goeq k0 k); [done|]. intros Hget. simpl. by rewrite IH.
Qed.

Lemma distinct_keys_delete m k :
  distinct_keys m → distinct_keys (gomap.delete m k).
Proof.
  induction m as [|[k0 a0] m IH]; simpl; [done|].
  intros [Hfirst Hrest]. destruct (goeq k0 k); [done|]. simpl.
  split; [|by apply IH]. intros k' a' Hin%elem_of_delete. eauto.
Qed.

Lemma NoDup_delete m k :
  NoDup m.*2 → NoDup (gomap.delete m k).*2.
Proof.
  induction m as [|[k0 p0] m IH]; simpl; [done|].
  intros [Hp0 Hnd]%list.NoDup_cons. destruct (goeq k0 k); [done|].
  simpl. apply list.NoDup_cons. split; [|by apply IH].
  intros ([k' p'] & -> & Hin%elem_of_delete)%list_elem_of_fmap.
  apply Hp0. apply list_elem_of_fmap. by exists (k', p').
Qed.

(** Once deleted, a key is not found. *)
Lemma get_delete m k : distinct_keys m → gomap.get (gomap.delete m k) k = None.
Proof.
  induction m as [|[k0 a0] m IH]; simpl; [done|].
  intros [Hfirst Hrest]. destruct (goeq k0 k) eqn:Hk0.
  - apply get_None. intros k' a Hin.
    destruct (goeq k' k) eqn:Hk'; [|done].
    specialize (Hfirst k' a Hin).
    assert (goeq k0 k' = true); [|congruence].
    apply (goeq_trans k0 k k'); [done|]. by rewrite goeq_sym.
  - simpl. rewrite Hk0. by apply IH.
Qed.

Lemma get_delete_None m k k' :
  gomap.get m k = None → gomap.get (gomap.delete m k') k = None.
Proof.
  rewrite !get_None. intros Hall k0 a Hin%elem_of_delete. eauto.
Qed.

(** A key under which nothing is found gets a new entry. *)
Lemma set_None m k a : gomap.get m k = None → gomap.set m k a = m ++ [(k, a)].
Proof.
  induction m as [|[k0 a0] m IH]; simpl; [done|].
  destruct (goeq k0 k); [done|]. intros Hm. by rewrite IH.
Qed.

(** What is stored under a key that is [==] to itself is found. *)
Lemma get_set m k a : goeq k k = true → gomap.get (gomap.set m k a) k = Some a.
Proof.
  intros Hk. induction m as [|[k0 a0] m IH]; simpl.
  - by rewrite Hk.
  - destruct (goeq k0 k) eqn:Hk0; simpl; [by rewrite Hk|by rewrite Hk0].
Qed.

Lemma distinct_keys_snoc m k a :
  distinct_keys m → gomap.get m k = None → distinct_keys (m ++ [(k, a)]).
Proof.
  induction m as [|[k0 a0] m IH]; simpl.
  - intros _ _. split; [|done]. by intros k' a' ?%elem_of_nil.
  - intros [Hfirst Hrest]. destruct (goeq k0 k) eqn:Hk0; [done|].
    intros Hget. split; [|by apply IH].
    intros k' a' [Hin|[= -> ->]%list_elem_of_singleton]%elem_of_app; eauto.
Qed.

End gomap_facts.

(** ** Map, list and heap of a store *)

Section linked_facts.
Context {K E : Type} `{GoEqLaws K}.
Variable key : E → K.
Implicit Types (m : gomap.t K ptr) (l : list ptr) (h : list E) (p : ptr).

Lemma linked_empty h : linked key gomap.make golist.Init h.
Proof.
  split; try done.
  - constructor.
  - by intros p ?%elem_of_nil.
  - by intros k p ?%elem_of_nil.
  - by intros k p ?%elem_of_nil.
  - constructor.
Qed.

Lemma linked_MoveToFront m l h p :
  linked key m l h → linked key m (golist.MoveToFront p l) h.
Proof.
  intros [Hnd Hlive Halloc Hfound Hkeys Hptrs]. split; try done.
  - by apply NoDup_MoveToFront.
  - intros q. rewrite MoveToFront_elem_of by done. apply Hlive.
  - intros k q Hin Hk. rewrite MoveToFront_elem_of by done. eauto.
Qed.

(** What [get] finds is an element of the list, and the key of its
    entry is [==] to the key that was looked up. *)
Lemma linked_get m l h k p :
  linked key m l h → gomap.get m k = Some p →
  p ∈ l ∧ ∃ e, h !! p = Some e ∧ (key e, p) ∈ m ∧ goeq (key e) k = true.
Proof.
  intros [Hnd Hlive Halloc Hfound Hkeys Hptrs] (k' & Hin & Hk')%get_Some.
  destruct (Halloc k' p Hin) as (e & He & <-).
  split; [|by eauto]. apply (Hfound (key e)); [done|].
  by apply goeq_refl_l with k.
Qed.

(** Unlinking the element [p] and deleting the key of its entry, or a
    key that is [==] to it, from the map. *)
Lemma linked_unlink m l h p e k :
  linked key m l h → p ∈ l → h !! p = Some e →
  k = key e ∨ goeq k (key e) = true →
  linked key (gomap.delete m k) (golist.Remove p l) h.
Proof.
  intros [Hnd Hlive Halloc Hfound Hkeys Hptrs] Hp He Hk.
  destruct (Hlive p Hp) as (e' & He' & Hin). simplify_eq.
  assert (goeq (key e) (key e) = false ∧ k = key e
          ∨ gomap.get m k = Some p) as [[Hirr ->]|Hget].
  { destruct Hk as [->|Hk].
    - destruct (goeq (key e) (key e)) eqn:Hrefl; [right|by left].
      by apply get_elem with (key e).
    - right. apply get_elem with (key e); [done..|]. by rewrite goeq_sym. }
  - rewrite delete_None by by apply get_irrefl.
    split; try done.
    + by apply NoDup_Remove.
    + intros q [Hq Hne]%elem_of_Remove; [|done]. by apply Hlive.
    + intros k q Hin' Hk'. apply elem_of_Remove; [done|].
      split; [by eauto|]. intros ->.
      destruct (Halloc k p Hin') as (e' & He' & <-). simplify_eq. congruence.
  - split.
    + by apply NoDup_Remove.
    + intros q [Hq Hne]%elem_of_Remove; [|done].
      destruct (Hlive q Hq) as (eq & Heq & Hinq). exists eq. split; [done|].
      by apply (elem_of_delete_found m k p).
    + intros k' q Hin'%elem_of_delete. eauto.
    + intros k' q Hin' Hk'.
      apply (elem_of_delete_found m k p) in Hin' as [Hin' Hne]; [|done..].
      apply elem_of_Remove; [done|]. split; [by eauto|done].
    + by apply distinct_keys_delete.
    + by apply NoDup_delete.
Qed.

(** Allocating an entry, linking it at the front and storing it under
    its key, under which nothing was found. *)
Lemma linked_push m l h k e :
  linked key m l h → gomap.get m k = None → key e = k →
  linked key (gomap.set m k (length h)) (golist.PushFront (length h) l)
    (h ++ [e]).
Proof.
  intros [Hnd Hlive Halloc Hfound Hkeys Hptrs] Hget <-.
  rewrite set_None by done. unfold golist.PushFront.
  assert (∀ p, p ∈ l → p ≠ length h) as Hfresh.
  { intros p (e' & He' & _)%Hlive ->.
    apply lookup_lt_Some in He'. lia. }
  assert (∀ k p, (k, p) ∈ m → p ≠ length h) as Hfresh'.
  { intros k p (e' & He' & _)%Halloc ->.
    apply lookup_lt_Some in He'. lia. }
  split.
  - apply list.NoDup_cons. split; [|done]. intros Hin. by apply (Hfresh _ Hin).
  - intros p [->|Hp]%elem_of_cons.
    + exists e. split.
      * by rewrite lookup_app_r, Nat.sub_diag by lia.
      * apply elem_of_app. right. by apply list_elem_of_singleton.
    + destruct (Hlive p Hp) as (e' & He' & Hin). exists e'. split.
      * by apply lookup_app_l_Some.
      * apply elem_of_app. by left.
  - intros k p [Hin|[= -> ->]%list_elem_of_singleton]%elem_of_app.
    + destruct (Halloc k p Hin) as (e' & He' & Hk). exists e'.
      split; [by apply lookup_app_l_Some|done].
    + exists e. split; [|done]. by rewrite lookup_app_r, Nat.sub_diag by lia.
  - intros k p [Hin|[= -> ->]%list_elem_of_singleton]%elem_of_app Hk.
    + right. eauto.
    + left.
  - by apply distinct_keys_snoc.
  - rewrite fmap_app. apply list.NoDup_app. split; [done|]. split.
    + intros p ([k' p'] & Hp & Hin)%list_elem_of_fmap
        Hp'%list_elem_of_singleton. simpl in *. subst.
      by apply (Hfresh' _ _ Hin).
    + apply NoDup_singleton.
Qed.

(** Writing a field other than the key through a pointer. *)
Lemma linked_alter m l h p (f : E → E) :
  (∀ e, key (f e) = key e) →
  linked key m l h → linked key m l (alter f p h).
Proof.
  intros Hf [Hnd Hlive Halloc Hfound Hkeys Hptrs]. split; try done.
  - intros q (e & He & Hin)%Hlive. destruct (decide (q = p)) as [->|Hne].
    + exists (f e). rewrite list_lookup_alter_eq, He, Hf. done.
    + exists e. by rewrite list_lookup_alter_ne by done.
  - intros k q (e & He & Hk)%Halloc. destruct (decide (q = p)) as [->|Hne].
    + exists (f e). rewrite list_lookup_alter_eq, He, Hf. done.
    + exists e. by rewrite list_lookup_alter_ne by done.
Qed.

(** When [==] is reflexive on the key type, the map holds the elements
    of the list and nothing else. *)
Lemma linked_reflexive m l h :
  (∀ k : K, goeq k k = true) → linked key m l h → m.*2 ≡ₚ l.
Proof.
  intros Hrefl [Hnd Hlive Halloc Hfound Hkeys Hptrs].
  apply NoDup_Permutation; [done..|]. intros p. split.
  - intros ([k' p'] & -> & Hin)%list_elem_of_fmap. eauto.
  - intros (e & _ & Hin)%Hlive. apply list_elem_of_fmap. by exists (key e, p).
Qed.

End linked_facts.

(** ** lru/lru.go at an arbitrary key type *)

Section lru_any_facts.
Context {K V : Type} `{GoEqLaws K}.
Variable zero : V.
Implicit Types (c : lru_any.Cache K V) (k key : K) (v : V).

Lemma lru_any_inv_NewCache n : lru_any_inv (lru_any.NewCache (K:=K) (V:=V) n).
Proof.
  split; simpl.
  - destruct (Z.leb_spec n 0); lia.
  - unfold lru_any.Len, golist.Len. simpl. destruct (Z.leb_spec n 0); lia.
  - apply linked_empty.
Qed.

Lemma lru_any_inv_removeElement c elem :
  lru_any_inv c → elem ∈ lru_any.order c →
  lru_any_inv (lru_any.removeElement c elem)
  ∧ lru_any.Len (lru_any.removeElement c elem) = lru_any.Len c - 1
  ∧ lru_any.size (lru_any.removeElement c elem) = lru_any.size c
  ∧ lru_any.heap (lru_any.removeElement c elem) = lru_any.heap c
  ∧ (∀ k, gomap.get (lru_any.elements c) k = None →
          gomap.get (lru_any.elements (lru_any.removeElement c elem)) k
          = None).
Proof.
  intros [Hs Hb Hl] Hin. unfold lru_any.removeElement.
  destruct (linked_live _ _ _ _ Hl elem Hin) as (e & He & _). rewrite He.
  pose proof (Remove_length _ _ Hin) as Hlen.
  unfold lru_any.Len, golist.Len in *. simpl. split_and!; [|lia|done|done|].
  - split; simpl; [done|unfold lru_any.Len, golist.Len; simpl; lia|].
    apply linked_unlink with e; auto.
  - intros k Hk. by apply get_delete_None.
Qed.

Lemma lru_any_inv_Put c k v : lru_any_inv c → lru_any_inv (lru_any.Put c k v).
Proof.
  intros Hinv. unfold lru_any.Put.
  destruct (gomap.get (lru_any.elements c) k) as [elem|] eqn:Hk.
  - destruct Hinv as [Hs Hb Hl]. split; simpl; [done| |].
    + unfold lru_any.Len, golist.Len in *. simpl.
      by rewrite MoveToFront_length.
    + by apply linked_alter, linked_MoveToFront.
  - rewrite Z.geb_leb.
    set (c1 := if lru_any.size c <=? golist.Len (lru_any.order c)
               then _ else c).
    assert (lru_any_inv c1 ∧ gomap.get (lru_any.elements c1) k = None
            ∧ golist.Len (lru_any.order c1) < lru_any.size c1)
      as (Hinv1 & Hk1 & Hlt).
    { subst c1.
      destruct (Z.leb_spec (lru_any.size c) (golist.Len (lru_any.order c)))
        as [Hfull|Hroom]; [|done].
      destruct (golist.Back (lru_any.order c)) as [oldest|] eqn:Hback.
      - apply Back_elem_of in Hback.
        destruct (lru_any_inv_removeElement c oldest Hinv Hback)
          as (Hinv' & Hlen & Hsz & _ & Hnone).
        split; [done|]. split; [by apply Hnone|].
        destruct Hinv as [_ Hb _]. unfold lru_any.Len in *. lia.
      - split; [done|]. split; [done|].
        apply last_None in Hback. destruct Hinv as [Hs _ _].
        unfold golist.Len. rewrite Hback. simpl. lia. }
    destruct Hinv1 as [Hs Hb Hl]. split; simpl; [done| |].
    + unfold lru_any.Len, golist.Len, golist.PushFront in *. simpl. lia.
    + by apply linked_push.
Qed.

Lemma lru_any_inv_Get c k : lru_any_inv c → lru_any_inv (lru_any.Get zero c k).2.
Proof.
  intros Hinv. unfold lru_any.Get.
  destruct (gomap.get (lru_any.elements c) k) as [elem|] eqn:Hk; [|done].
  destruct Hinv as [Hs Hb Hl]. split; simpl; [done| |].
  - unfold lru_any.Len, golist.Len in *. simpl. by rewrite MoveToFront_length.
  - by apply linked_MoveToFront.
Qed.

Lemma lru_any_inv_Evict c k : lru_any_inv c → lru_any_inv (lru_any.Evict c k).
Proof.
  intros Hinv. unfold lru_any.Evict.
  destruct (gomap.get (lru_any.elements c) k) as [elem|] eqn:Hk; [|done].
  apply lru_any_inv_removeElement; [done|].
  destruct Hinv as [_ _ Hl]. by destruct (linked_get _ _ _ _ _ _ Hl Hk).
Qed.

Lemma lru_any_inv_Flush c : lru_any_inv c → lru_any_inv (lru_any.Flush c).
Proof.
  intros [Hs _ _]. split; simpl; [done| |apply linked_empty].
  unfold lru_any.Len, golist.Len. simpl. lia.
Qed.

Lemma lru_any_reachable_inv c : lru_any.reachable zero c → lru_any_inv c.
Proof.
  induction 1; auto using lru_any_inv_NewCache, lru_any_inv_Put,
    lru_any_inv_Get, lru_any_inv_Evict, lru_any_inv_Flush.
Qed.

(** [Put] leaves the key where [Get] finds it, with the value, when the
    key is [==] to itself. *)
Lemma lru_any_Put_Get c k v :
  lru_any_inv c → goeq k k = true →
  gomap.get (lru_any.elements (lru_any.Put c k v)) k ≠ None
  ∧ (lru_any.Get zero (lru_any.Put c k v) k).1 = (v, true).
Proof.
  intros [_ _ Hl] Hrefl. unfold lru_any.Get, lru_any.Put.
  destruct (gomap.get (lru_any.elements c) k) as [elem|] eqn:Hk; simpl.
  - rewrite Hk. simpl. split; [done|].
    destruct (linked_get _ _ _ _ _ _ Hl Hk) as (_ & e & He & _).
    by rewrite list_lookup_alter_eq, He.
  - rewrite get_set by done. simpl. split; [done|].
    by rewrite lookup_app_r, Nat.sub_diag by lia.
Qed.

(** A key that is not [==] to itself is never found. *)
Lemma lru_any_Get_irrefl c k :
  goeq k k = false → lru_any.Get zero c k = ((zero, false), c).
Proof. intros Hk. unfold lru_any.Get. by rewrite get_irrefl. Qed.

End lru_any_facts.

(** ** [SizedCache] at an arbitrary key type *)

Section sizes_facts.
Context {K V : Type}.
Implicit Types (h : list (sized_any.sizedEntry K V)) (l : list ptr).

Lemma sizes_Remove h l p :
  p ∈ l →
  sized_any.sizes h l
  = from_option sized_any.size 0 (h !! p)
    + sized_any.sizes h (golist.Remove p l).
Proof.
  induction l as [|q l IH]; simpl.
  - by intros ?%elem_of_nil.
  - intros Hin. destruct (decide (p = q)) as [->|Hne]; [done|].
    apply elem_of_cons in Hin as [?|Hin]; [done|]. simpl.
    rewrite IH by done. lia.
Qed.

Lemma sizes_MoveToFront h l p :
  sized_any.sizes h (golist.MoveToFront p l) = sized_any.sizes h l.
Proof.
  unfold golist.MoveToFront.
  destruct (decide (p ∈ l)) as [Hin|]; [|done].
  destruct (decide (golist.Front l = Some p)); [done|].
  simpl. by rewrite <-sizes_Remove.
Qed.

Lemma sizes_alloc h l e :
  (∀ p, p ∈ l → is_Some (h !! p)) →
  sized_any.sizes (h ++ [e]) l = sized_any.sizes h l.
Proof.
  induction l as [|q l IH]; simpl; [done|]. intros Hall.
  destruct (Hall q) as [e' He']; [left|].
  rewrite (lookup_app_l_Some _ _ _ _ He'), He', IH; [done|].
  intros p Hp. apply Hall. by right.
Qed.

Lemma sizes_nonneg h l :
  (∀ p e, h !! p = Some e → 0 ≤ sized_any.size e) →
  0 ≤ sized_any.sizes h l.
Proof.
  intros Hall. induction l as [|q l IH]; simpl; [done|].
  destruct (h !! q) as [e|] eqn:He; simpl; [|lia].
  specialize (Hall q e He). lia.
Qed.

End sizes_facts.

Section sized_any_facts.
Context {K V : Type} `{GoEqLaws K}.
Variable zero : V.
Implicit Types (c : sized_any.SizedCache K V) (k key : K) (v : V).

Lemma sized_any_wf_flushLocked c :
  1 ≤ sized_any.maxSize c →
  (∀ p e, sized_any.heap c !! p = Some e →
          sized_any.size e
          = sized_any.sizeFn c (sized_any.key e) (sized_any.value e)) →
  sized_any_wf (sized_any.flushLocked c).
Proof. intros Hm Hsz. split; simpl; [done|apply linked_empty|done]. Qed.

Lemma sized_any_wf_NewSizedCache n (f : option (K → V → Z)) :
  sized_any_wf (sized_any.NewSizedCache n f).
Proof.
  split; simpl; [|apply linked_empty|done].
  destruct (Z.leb_spec n 0); lia.
Qed.

(** Unlinking the element [elem], deleting the key [k] of its entry
    from the map and giving back its size. *)
Lemma sized_any_wf_unlink c elem e k :
  sized_any_wf c → elem ∈ sized_any.lru c →
  sized_any.heap c !! elem = Some e →
  k = sized_any.key e ∨ goeq k (sized_any.key e) = true →
  sized_any_wf
    {| sized_any.maxSize := sized_any.maxSize c;
       sized_any.currentSize :=
         goint.sub (sized_any.currentSize c) (sized_any.size e);
       sized_any.sizeFn := sized_any.sizeFn c;
       sized_any.items := gomap.delete (sized_any.items c) k;
       sized_any.lru := golist.Remove elem (sized_any.lru c);
       sized_any.heap := sized_any.heap c |}.
Proof.
  intros [Hm Hl Hsz] Hin He Hk. split; simpl; [done| |done].
  by apply linked_unlink with e.
Qed.

Lemma sized_any_evictLoop_wf n entrySize c :
  sized_any_wf c →
  let c' := sized_any.evictLoop n entrySize c in
  sized_any_wf c'
  ∧ sized_any.maxSize c' = sized_any.maxSize c
  ∧ sized_any.sizeFn c' = sized_any.sizeFn c
  ∧ sized_any.heap c' = sized_any.heap c
  ∧ (∀ k, gomap.get (sized_any.items c) k = None →
          gomap.get (sized_any.items c') k = None).
Proof.
  revert c. induction n as [|n IH]; intros c Hwf; simpl; [done|].
  destruct (sized_any.currentSize c >? _); [|done].
  destruct (golist.Back (sized_any.lru c)) as [back|] eqn:Hback; [|done].
  apply Back_elem_of in Hback.
  pose proof Hwf as [_ Hl _].
  destruct (linked_live _ _ _ _ Hl back Hback) as (e & He & _). rewrite He.
  set (c1 := sized_any.mkSizedCache _ _ _ _ _ _).
  destruct (IH c1) as (Hwf' & Hm' & Hf' & Hh' & Hnone).
  { apply sized_any_wf_unlink; auto. }
  split_and!; auto. intros k Hk. apply Hnone. subst c1. simpl.
  by apply get_delete_None.
Qed.

Lemma sized_any_Put_oversized c k v :
  sized_any.maxSize c < sized_any.sizeFn c k v →
  sized_any.Put c k v = sized_any.flushLocked c.
Proof.
  intros Hbig. unfold sized_any.Put. rewrite Z.gtb_ltb.
  by destruct (Z.ltb_spec (sized_any.maxSize c) (sized_any.sizeFn c k v));
    [|lia].
Qed.

(** The state in which [Put] links the new entry: the element found
    under the key is gone and the loop has run. *)
Lemma sized_any_Put_unfold c k v :
  sized_any.sizeFn c k v ≤ sized_any.maxSize c →
  ∃ c1,
    sized_any.Put c k v
    = (let c2 := sized_any.evictLoop (length (sized_any.lru c1))
                   (sized_any.sizeFn c k v) c1 in
       {| sized_any.maxSize := sized_any.maxSize c2;
          sized_any.currentSize :=
            goint.add (sized_any.currentSize c2) (sized_any.sizeFn c k v);
          sized_any.sizeFn := sized_any.sizeFn c2;
          sized_any.items :=
            gomap.set (sized_any.items c2) k (length (sized_any.heap c2));
          sized_any.lru :=
            golist.PushFront (length (sized_any.heap c2)) (sized_any.lru c2);
          sized_any.heap :=
            sized_any.heap c2
            ++ [{| sized_any.key := k; sized_any.value := v;
                   sized_any.size := sized_any.sizeFn c k v |}] |})
    ∧ c1 = match gomap.get (sized_any.items c) k with
           | Some elem =>
               match sized_any.heap c !! elem with
               | Some oldEntry =>
                   {| sized_any.maxSize := sized_any.maxSize c;
                      sized_any.currentSize :=
                        goint.sub (sized_any.currentSize c)
                          (sized_any.size oldEntry);
                      sized_any.sizeFn := sized_any.sizeFn c;
                      sized_any.items := gomap.delete (sized_any.items c) k;
                      sized_any.lru := golist.Remove elem (sized_any.lru c);
                      sized_any.heap := sized_any.heap c |}
               | None => c
               end
           | None => c
           end.
Proof.
  intros Hfit. eexists. split; [|reflexivity].
  unfold sized_any.Put. rewrite Z.gtb_ltb.
  by destruct (Z.ltb_spec (sized_any.maxSize c) (sized_any.sizeFn c k v));
    [lia|].
Qed.

Lemma sized_any_wf_Put c k v :
  sized_any_wf c → sized_any_wf (sized_any.Put c k v).
Proof.
  intros Hwf.
  destruct (Z.lt_ge_cases (sized_any.maxSize c) (sized_any.sizeFn c k v))
    as [Hbig|Hfit].
  { rewrite sized_any_Put_oversized by done.
    destruct Hwf as [Hm _ Hsz]. by apply sized_any_wf_flushLocked. }
  destruct (sized_any_Put_unfold c k v Hfit) as (c1 & -> & Hc1).
  assert (sized_any_wf c1 ∧ gomap.get (sized_any.items c1) k = None
          ∧ sized_any.sizeFn c1 = sized_any.sizeFn c) as (Hwf1 & Hk1 & Hf1).
  { subst c1.
    destruct (gomap.get (sized_any.items c) k) as [elem|] eqn:Hk; [|done].
    pose proof Hwf as [_ Hl _].
    destruct (linked_get _ _ _ _ _ _ Hl Hk) as (Hin & e & He & _ & Hke).
    rewrite He. split; [|split; [|done]].
    - apply sized_any_wf_unlink; auto. right. by rewrite goeq_sym.
    - simpl. apply get_delete. by destruct Hl. }
  clear Hc1.
  destruct (sized_any_evictLoop_wf (length (sized_any.lru c1))
              (sized_any.sizeFn c k v) c1 Hwf1)
    as (Hwf2 & Hm2 & Hf2 & Hh2 & Hnone).
  simpl. set (c2 := sized_any.evictLoop _ _ c1) in *.
  specialize (Hnone k Hk1). destruct Hwf2 as [Hm Hl Hsz]. split; simpl.
  - done.
  - by apply linked_push.
  - intros p e [He|[_ He]]%lookup_app_Some; [by apply (Hsz p)|].
    apply list_lookup_singleton_Some in He as [_ <-].
    simpl. by rewrite Hf2, Hf1.
Qed.

Lemma sized_any_wf_Get c k :
  sized_any_wf c → sized_any_wf (sized_any.Get zero c k).2.
Proof.
  intros Hwf. unfold sized_any.Get.
  destruct (gomap.get (sized_any.items c) k) as [elem|]; [|done].
  destruct Hwf as [Hm Hl Hsz]. split; simpl; [done| |done].
  by apply linked_MoveToFront.
Qed.

Lemma sized_any_wf_Evict c k :
  sized_any_wf c → sized_any_wf (sized_any.Evict c k).
Proof.
  intros Hwf. unfold sized_any.Evict.
  destruct (gomap.get (sized_any.items c) k) as [elem|] eqn:Hk; [|done].
  pose proof Hwf as [_ Hl _].
  destruct (linked_get _ _ _ _ _ _ Hl Hk) as (Hin & e & He & _ & Hke).
  rewrite He. apply sized_any_wf_unlink; auto. right. by rewrite goeq_sym.
Qed.

Lemma sized_any_reachable_wf c : sized_any.reachable zero c → sized_any_wf c.
Proof.
  induction 1 as [n f|c k v _ IH|c k _ IH|c k _ IH|c _ IH].
  - apply sized_any_wf_NewSizedCache.
  - by apply sized_any_wf_Put.
  - by apply sized_any_wf_Get.
  - by apply sized_any_wf_Evict.
  - destruct IH as [Hm _ Hsz]. by apply sized_any_wf_flushLocked.
Qed.

End sized_any_facts.

Section sized_any_bound.
Context {K V : Type} `{GoEqLaws K}.
Variable zero : V.
Implicit Types (c : sized_any.SizedCache K V) (k key : K) (v : V).

Lemma sized_any_sizes_nonneg c :
  sized_any_ok c → sized_any_wf c →
  ∀ p e, sized_any.heap c !! p = Some e → 0 ≤ sized_any.size e.
Proof.
  intros [Hfn _] [_ _ Hsz] p e He. rewrite (Hsz p e He). apply Hfn.
Qed.

Lemma sized_any_inv_flushLocked c :
  sized_any_wf c → sized_any_inv (sized_any.flushLocked c).
Proof.
  intros [Hm Hl Hsz]. split; simpl; [|done|lia].
  by apply sized_any_wf_flushLocked.
Qed.

Lemma sized_any_inv_NewSizedCache n (f : option (K → V → Z)) :
  sized_any_inv (sized_any.NewSizedCache n f).
Proof.
  split; [apply sized_any_wf_NewSizedCache|done|]. simpl.
  destruct (Z.leb_spec n 0); lia.
Qed.

Lemma sized_any_inv_empty c :
  sized_any_inv c → sized_any.lru c = [] → sized_any.currentSize c = 0.
Proof.
  intros [_ Hu _] Hnil. rewrite Hu. unfold sized_any.usage. by rewrite Hnil.
Qed.

Lemma sized_any_inv_unlink c elem e k :
  sized_any_ok c → sized_any_inv c → elem ∈ sized_any.lru c →
  sized_any.heap c !! elem = Some e →
  k = sized_any.key e ∨ goeq k (sized_any.key e) = true →
  sized_any_inv
    {| sized_any.maxSize := sized_any.maxSize c;
       sized_any.currentSize :=
         goint.sub (sized_any.currentSize c) (sized_any.size e);
       sized_any.sizeFn := sized_any.sizeFn c;
       sized_any.items := gomap.delete (sized_any.items c) k;
       sized_any.lru := golist.Remove elem (sized_any.lru c);
       sized_any.heap := sized_any.heap c |}.
Proof.
  intros Hok [Hwf Hu Hb] Hin He Hk.
  pose proof (sized_any_sizes_nonneg c Hok Hwf) as Hnn.
  pose proof (sizes_Remove (sized_any.heap c) _ _ Hin) as Hsum.
  rewrite He in Hsum. simpl in Hsum.
  pose proof (sizes_nonneg (sized_any.heap c)
                (golist.Remove elem (sized_any.lru c)) Hnn) as Hrest.
  pose proof (Hnn _ _ He) as He0. destruct Hok as [_ Hint].
  unfold sized_any.usage in Hu.
  assert (goint.sub (sized_any.currentSize c) (sized_any.size e)
          = sized_any.currentSize c - sized_any.size e) as Hsub.
  { apply wrap64_in_int. unfold goint.in_int. lia. }
  split; simpl.
  - by apply sized_any_wf_unlink.
  - rewrite Hsub. unfold sized_any.usage. simpl. lia.
  - rewrite Hsub. lia.
Qed.

(** The eviction loop ends with room for the new entry, within the
    turns that [Put] grants it. *)
Lemma sized_any_evictLoop_exit n entrySize c :
  sized_any_ok c → sized_any_inv c →
  0 ≤ entrySize ≤ sized_any.maxSize c →
  (length (sized_any.lru c) ≤ n)%nat →
  let c' := sized_any.evictLoop n entrySize c in
  sized_any_inv c'
  ∧ sized_any.currentSize c' + entrySize ≤ sized_any.maxSize c'.
Proof.
  revert c. induction n as [|n IH]; intros c Hok Hinv He Hlen; simpl.
  - assert (sized_any.lru c = []) as Hnil by (apply length_zero_iff_nil; lia).
    pose proof (sized_any_inv_empty c Hinv Hnil). split; [done|lia].
  - rewrite Z.gtb_ltb. pose proof Hok as [_ Hint].
    assert (goint.sub (sized_any.maxSize c) entrySize
            = sized_any.maxSize c - entrySize) as ->.
    { apply wrap64_in_int. unfold goint.in_int. lia. }
    destruct (Z.ltb_spec (sized_any.maxSize c - entrySize)
                (sized_any.currentSize c)) as [Hfull|Hroom];
      [|split; [done|lia]].
    destruct (golist.Back (sized_any.lru c)) as [back|] eqn:Hback.
    + apply Back_elem_of in Hback.
      pose proof Hinv as [[_ Hl _] _ _].
      destruct (linked_live _ _ _ _ Hl back Hback) as (e & He0 & _).
      rewrite He0. apply IH.
      * done.
      * apply sized_any_inv_unlink; auto.
      * done.
      * simpl. apply Remove_length in Hback. lia.
    + apply last_None in Hback.
      pose proof (sized_any_inv_empty c Hinv Hback). split; [done|lia].
Qed.

Lemma sized_any_Put_fields c k v :
  sized_any.maxSize (sized_any.Put c k v) = sized_any.maxSize c
  ∧ sized_any.sizeFn (sized_any.Put c k v) = sized_any.sizeFn c.
Proof.
  assert (∀ n e c0,
            sized_any.maxSize (sized_any.evictLoop n e c0)
            = sized_any.maxSize c0
            ∧ sized_any.sizeFn (sized_any.evictLoop n e c0)
              = sized_any.sizeFn c0) as Hloop.
  { induction n as [|n IH]; intros e c0; simpl; [done|].
    destruct (_ >? _); [|done].
    destruct (golist.Back _) as [back|]; [|done].
    destruct (sized_any.heap c0 !! back) as [old|]; [|done].
    destruct (IH e (sized_any.mkSizedCache (sized_any.maxSize c0)
      (goint.sub (sized_any.currentSize c0) (sized_any.size old))
      (sized_any.sizeFn c0)
      (gomap.delete (sized_any.items c0) (sized_any.key old))
      (golist.Remove back (sized_any.lru c0)) (sized_any.heap c0)))
      as [-> ->]. done. }
  unfold sized_any.Put. destruct (_ >? _); [done|]. simpl.
  destruct (gomap.get (sized_any.items c) k) as [elem|];
    [destruct (sized_any.heap c !! elem)|];
    (split; [rewrite (proj1 (Hloop _ _ _))|rewrite (proj2 (Hloop _ _ _))];
     done).
Qed.

Lemma sized_any_inv_Put c k v :
  sized_any_ok c → sized_any_inv c → sized_any_inv (sized_any.Put c k v).
Proof.
  intros Hok Hinv. pose proof Hok as [Hfn Hint]. pose proof (Hfn k v) as He.
  destruct (Z.lt_ge_cases (sized_any.maxSize c) (sized_any.sizeFn c k v))
    as [Hbig|Hfit].
  { rewrite sized_any_Put_oversized by done.
    apply sized_any_inv_flushLocked. by destruct Hinv. }
  pose proof (sized_any_wf_Put c k v (sized_any_inv_wf _ Hinv)) as Hwf'.
  revert Hwf'.
  destruct (sized_any_Put_unfold c k v Hfit) as (c1 & -> & Hc1).
  assert (sized_any_inv c1 ∧ sized_any_ok c1
          ∧ sized_any.maxSize c1 = sized_any.maxSize c)
    as (Hinv1 & Hok1 & Hm1).
  { subst c1.
    destruct (gomap.get (sized_any.items c) k) as [elem|] eqn:Hk; [|done].
    pose proof Hinv as [[_ Hl _] _ _].
    destruct (linked_get _ _ _ _ _ _ Hl Hk) as (Hin & e & He0 & _ & Hke).
    rewrite He0. split; [|done].
    apply sized_any_inv_unlink; auto. right. by rewrite goeq_sym. }
  clear Hc1.
  destruct (sized_any_evictLoop_exit (length (sized_any.lru c1))
              (sized_any.sizeFn c k v) c1)
    as (Hinv2 & Hb2); [done|done|lia|done|].
  destruct (sized_any_evictLoop_wf (length (sized_any.lru c1))
              (sized_any.sizeFn c k v) c1 (sized_any_inv_wf _ Hinv1))
    as (_ & Hm2 & Hf2 & Hh2 & _).
  simpl. set (c2 := sized_any.evictLoop _ _ c1) in *.
  assert (sized_any_ok c2) as Hok2
    by (unfold sized_any_ok; by rewrite Hm2, Hf2).
  destruct Hinv2 as [Hwf2 Hu2 _].
  pose proof (sizes_nonneg (sized_any.heap c2) (sized_any.lru c2)
                (sized_any_sizes_nonneg c2 Hok2 Hwf2)) as Hpos.
  fold (sized_any.usage c2) in Hpos.
  assert (goint.add (sized_any.currentSize c2) (sized_any.sizeFn c k v)
          = sized_any.currentSize c2 + sized_any.sizeFn c k v) as Hadd.
  { apply wrap64_in_int. unfold goint.in_int. lia. }
  intros Hwf'. split; [done| |]; simpl; rewrite Hadd; [|lia].
  unfold sized_any.usage, golist.PushFront. simpl.
  rewrite lookup_app_r, Nat.sub_diag by lia. simpl.
  rewrite sizes_alloc.
  - fold (sized_any.usage c2). lia.
  - intros p Hp. destruct Hwf2 as [_ Hl _].
    destruct (linked_live _ _ _ _ Hl p Hp) as (e' & He' & _). eauto.
Qed.

Lemma sized_any_inv_Get c k :
  sized_any_inv c → sized_any_inv (sized_any.Get zero c k).2.
Proof.
  intros [Hwf Hu Hb].
  split; [by apply sized_any_wf_Get|..]; unfold sized_any.Get;
    destruct (gomap.get (sized_any.items c) k) as [elem|]; try done.
  simpl. unfold sized_any.usage. simpl. by rewrite sizes_MoveToFront.
Qed.

Lemma sized_any_inv_Evict c k :
  sized_any_ok c → sized_any_inv c → sized_any_inv (sized_any.Evict c k).
Proof.
  intros Hok Hinv. unfold sized_any.Evict.
  destruct (gomap.get (sized_any.items c) k) as [elem|] eqn:Hk; [|done].
  pose proof Hinv as [[_ Hl _] _ _].
  destruct (linked_get _ _ _ _ _ _ Hl Hk) as (Hin & e & He & _ & Hke).
  rewrite He. apply sized_any_inv_unlink; auto. right. by rewrite goeq_sym.
Qed.

Lemma sized_any_ok_Put c k v :
  sized_any_ok (sized_any.Put c k v) ↔ sized_any_ok c.
Proof.
  unfold sized_any_ok. destruct (sized_any_Put_fields c k v) as [-> ->]. done.
Qed.

Lemma sized_any_ok_Get c k :
  sized_any_ok (sized_any.Get zero c k).2 ↔ sized_any_ok c.
Proof.
  unfold sized_any.Get. by destruct (gomap.get (sized_any.items c) k).
Qed.

Lemma sized_any_ok_Evict c k :
  sized_any_ok (sized_any.Evict c k) ↔ sized_any_ok c.
Proof.
  unfold sized_any.Evict.
  destruct (gomap.get (sized_any.items c) k) as [elem|]; [|done].
  by destruct (sized_any.heap c !! elem).
Qed.

Lemma sized_any_reachable_inv c :
  sized_any.reachable zero c → sized_any_ok c → sized_any_inv c.
Proof.
  induction 1 as [n f|c k v _ IH|c k _ IH|c k _ IH|c _ IH]; intros Hok.
  - apply sized_any_inv_NewSizedCache.
  - apply sized_any_ok_Put in Hok. by apply sized_any_inv_Put, IH.
  - apply sized_any_ok_Get in Hok. by apply sized_any_inv_Get, IH.
  - apply sized_any_ok_Evict in Hok. by apply sized_any_inv_Evict, IH.
  - apply sized_any_inv_flushLocked. by destruct (IH Hok).
Qed.

(** What [Put] leaves resident: the pair is found under its key exactly
    when the key is [==] to itself and the size fits the budget. *)
Lemma sized_any_Put_resident c k v :
  gomap.get (sized_any.items (sized_any.Put c k v)) k ≠ None
  ↔ goeq k k = true ∧ sized_any.sizeFn c k v ≤ sized_any.maxSize c.
Proof.
  destruct (Z.lt_ge_cases (sized_any.maxSize c) (sized_any.sizeFn c k v))
    as [Hbig|Hfit].
  - rewrite sized_any_Put_oversized by done. simpl. split; [done|lia].
  - destruct (goeq k k) eqn:Hk.
    + destruct (sized_any_Put_unfold c k v Hfit) as (c1 & -> & _). simpl.
      by rewrite get_set.
    + rewrite get_irrefl by done. split; [done|]. by intros [? _].
Qed.

Lemma sized_any_Put_Get c k v :
  goeq k k = true → sized_any.sizeFn c k v ≤ sized_any.maxSize c →
  (sized_any.Get zero (sized_any.Put c k v) k).1 = (v, true).
Proof.
  intros Hk Hfit.
  destruct (sized_any_Put_unfold c k v Hfit) as (c1 & -> & _).
  unfold sized_any.Get. simpl. rewrite get_set by done. simpl.
  by rewrite lookup_app_r, Nat.sub_diag by lia.
Qed.

Lemma sized_any_Get_irrefl c k :
  goeq k k = false → sized_any.Get zero c k = ((zero, false), c).
Proof. intros Hk. unfold sized_any.Get. by rewrite get_irrefl. Qed.

End sized_any_bound.

(** * The properties of the specification *)

Section bytecache_keys.
Implicit Types (c : bytecache.Cache) (key dst value : bytecache.slice).

(** The operations read a key through its bytes only. *)
Lemma operations_of_bytes c dst value key1 key2 :
  default [] key1 = default [] key2 →
  bytecache.Set_ c key1 value = bytecache.Set_ c key2 value
  ∧ bytecache.Get c dst key1 = bytecache.Get c dst key2
  ∧ bytecache.HasGet c dst key1 = bytecache.HasGet c dst key2
  ∧ bytecache.Has c key1 = bytecache.Has c key2
  ∧ bytecache.Del c key1 = bytecache.Del c key2.
Proof.
  intros Hk.
  unfold bytecache.Set_, bytecache.Get, bytecache.HasGet, bytecache.Has,
    bytecache.Del, bytecache.shard, bytecache.withShard.
  by rewrite (shardIndex_bytes key1 key2 Hk), (string_of_bytes key1 key2 Hk).
Qed.

End bytecache_keys.

(** C1, at the input where the sharded byte cache departs from it.
    Capacity bound: the usage of a store never exceeds its budget, also
    when a key is replaced by a larger value.  The count bounded cache
    and [SizedCache] keep the bound ([lru_Len_le_size],
    [sized_usage_le_maxSize]).  In the byte cache of 2560 bytes every
    shard has a budget of 10; the keys "ab" and "ba" share shard 3; after
    two entries of size 5 the shard is full, and replacing the value of
    "ab" by 8 bytes leaves live entries of total size 15 in it. *)
Theorem bytecache_Set_update_exceeds_budget :
  let ab := Some (String.list_byte_of_string "ab") in
  let ba := Some (String.list_byte_of_string "ba") in
  let v3 := Some (String.list_byte_of_string "123") in
  let v8 := Some (String.list_byte_of_string "12345678") in
  let c2 := bytecache.Set_ (bytecache.Set_ (bytecache.New 2560) ab v3) ba v3 in
  let c3 := bytecache.Set_ c2 ab v8 in
  bytecache.reachable c3
  ∧ bytecache.shardIndex ab = 3 ∧ bytecache.shardIndex ba = 3
  ∧ bytecache.maxSize (bytecache.shard c2 ab) = 10
  ∧ bytecache.usage (bytecache.shard c2 ab) = 10
  ∧ bytecache.maxSize (bytecache.shard c3 ab) = 10
  ∧ bytecache.usage (bytecache.shard c3 ab) = 15
  ∧ bytecache.currentSize (bytecache.shard c3 ab) = 15.
Proof.
  intros ab ba v3 v8 c2 c3. split.
  - repeat constructor.
  - by vm_compute.
Qed.

(** C2 as stated fails on [SizedCache]: an oversized [Put] is not a
    no-op there.  With budget 10 and the length of the value as its size,
    the cache that holds "a" is emptied by a [Put] of an 11 byte value. *)
Lemma sized_oversized_Put_drops_entries :
  let sizeFn := fun (k v : string) => Z.of_nat (String.length v) in
  let c := sized.Put "" (sized.NewSizedCache 10 (Some sizeFn)) "a" "x" in
  let c' := sized.Put "" c "b" "0123456789A" in
  sized.reachable "" c
  ∧ sized.maxSize c < sized.sizeFn c "b" "0123456789A"
  ∧ (sized.Get "" c "a").1 = ("x", true)
  ∧ sized.currentSize c = 1
  ∧ (sized.Get "" c' "a").1 = ("", false)
  ∧ sized.currentSize c' = 0
  ∧ c' ≠ c.
Proof.
  intros sizeFn c c'. split; [repeat constructor|].
  split_and!; by vm_compute.
Qed.

Section store_properties.
Context {K V : Type} `{Countable K}.
Variable zero : V.

(** C2, amended.  In the sharded byte cache a [Set_] whose entry is
    larger than the budget of its shard leaves every shard (entries,
    usage and recency order) as it is and creates no entry; only the
    counter of set calls advances.  In [SizedCache] a [Put] whose
    computed size is larger than the budget creates no entry for the
    pair and flushes the store: no entry is left and the usage is 0. *)
Theorem oversized_insert_policy :
  (∀ (c : bytecache.Cache) (key value : bytecache.slice),
     bytecache.maxSize (bytecache.shard c key)
       < Z.of_nat (String.length (bytecache.string_of key))
         + bytecache.len (bytecache.append None value) →
     bytecache.shards (bytecache.Set_ c key value) = bytecache.shards c
     ∧ bytecache.maxBytes (bytecache.Set_ c key value) = bytecache.maxBytes c
     ∧ bytecache.getCalls (bytecache.Set_ c key value) = bytecache.getCalls c
     ∧ bytecache.misses (bytecache.Set_ c key value) = bytecache.misses c
     ∧ bytecache.setCalls (bytecache.Set_ c key value)
       = (bytecache.setCalls c + 1) `mod` 2 ^ 64)
  ∧ (∀ (c : sized.SizedCache K V) (k : K) (v : V),
       sized.maxSize c < sized.sizeFn c k v →
       sized.Put zero c k v = sized.Flush c
       ∧ sized.items (sized.Put zero c k v) = ∅
       ∧ sized.lru (sized.Put zero c k v) = []
       ∧ sized.currentSize (sized.Put zero c k v) = 0
       ∧ sized.maxSize (sized.Put zero c k v) = sized.maxSize c).
Proof.
  split.
  - intros c key value Hbig. by rewrite Set_oversized.
  - intros c k v Hbig. unfold sized.Put. rewrite Z.gtb_ltb.
    by destruct (Z.ltb_spec (sized.maxSize c) (sized.sizeFn c k v)); [|lia].
Qed.

(** C4.  Recency correctness: on the count bounded cache of capacity 3,
    starting empty, [Put(a)], [Put(b)], [Put(c)], [Get(a)], [Put(d)]
    evicts exactly [b]: afterwards [Get(b)] misses, [Get(a)], [Get(c)]
    and [Get(d)] hit, the resident keys are [d], [a], [c] in recency
    order, and [Len()] is 3. *)
Theorem recency_scenario (a b c d : K) (va vb vc vd : V) :
  a ≠ b → a ≠ c → a ≠ d → b ≠ c → b ≠ d → c ≠ d →
  let s := lru.Put
             (lru.Get zero
                (lru.Put (lru.Put (lru.Put (lru.NewCache 3) a va) b vb) c vc)
                a).2 d vd in
  (lru.Get zero s b).1 = (zero, false)
  ∧ (lru.Get zero s a).1 = (va, true)
  ∧ (lru.Get zero s c).1 = (vc, true)
  ∧ (lru.Get zero s d).1 = (vd, true)
  ∧ lru.order s = [d; a; c]
  ∧ lru.Len s = 3
  ∧ lru.Len (lru.Get zero (lru.Get zero (lru.Get zero (lru.Get zero s b).2
               a).2 c).2 d).2 = 3.
Proof.
  intros Hab Hac Had Hbc Hbd Hcd s. subst s.
  rewrite lru_scenario_state by done.
  set (m := <[d := vd]> (delete b (<[c := vc]> (<[b := vb]> (<[a := va]> ∅))))).
  assert (m !! b = None) as Hb.
  { subst m. rewrite lookup_insert_ne by done. apply lookup_delete_eq. }
  assert (m !! a = Some va) as Ha.
  { subst m. rewrite lookup_insert_ne, lookup_delete_ne by done.
    by rewrite !lookup_insert_ne, lookup_insert_eq by done. }
  assert (m !! c = Some vc) as Hc.
  { subst m. rewrite lookup_insert_ne, lookup_delete_ne by done.
    by rewrite lookup_insert_eq. }
  assert (m !! d = Some vd) as Hd.
  { subst m. by rewrite lookup_insert_eq. }
  split_and!.
  - by rewrite lru_Get_miss.
  - by rewrite (lru_Get_hit _ _ a va).
  - by rewrite (lru_Get_hit _ _ c vc).
  - by rewrite (lru_Get_hit _ _ d vd).
  - done.
  - done.
  - rewrite (lru_Get_miss _ _ b) by exact Hb. cbn [snd].
    rewrite (lru_Get_hit _ _ a va) by exact Ha. cbn [snd].
    rewrite (lru_Get_hit _ _ c vc) by exact Hc. cbn [snd].
    rewrite (lru_Get_hit _ _ d vd) by exact Hd. cbn [snd].
    unfold lru.Len, golist.Len. cbn [lru.order].
    by rewrite !MoveToFront_length.
Qed.

(** C5.  Flush idempotence: after [Flush()], [Len()] is 0 and
    [PortionFilled()] is 0, and a second [Flush()] changes nothing; for
    every reachable state of the count bounded cache and every state
    of [SizedCache]. *)
Theorem Flush_idempotent (c : lru.Cache K V) (sc : sized.SizedCache K V) :
  lru.reachable zero c →
  (lru.Len (lru.Flush c) = 0
   ∧ lru.PortionFilled (lru.Flush c) = Finite 0%Qc
   ∧ lru.Flush (lru.Flush c) = lru.Flush c)
  ∧ (sized.Len (sized.Flush sc) = 0
     ∧ sized.currentSize (sized.Flush sc) = 0
     ∧ sized.PortionFilled (sized.Flush sc) = Finite 0%Qc
     ∧ sized.Flush (sized.Flush sc) = sized.Flush sc).
Proof.
  intros [Hs _ _ _]%lru_reachable_inv. split; split_and!; try done.
  - unfold lru.PortionFilled. simpl. apply float64_div_0. lia.
  - unfold sized.PortionFilled. simpl.
    destruct (Z.eqb_spec (sized.maxSize sc) 0); [done|].
    by apply float64_div_0.
Qed.

(** C8.  Construction normalizes the budget: a capacity [n <= 0] becomes
    exactly 1 and any other capacity is kept; the byte cache has
    [numShards] shards and the budget of each is the total budget
    divided by the shard count, rounded down, and at least 1. *)
Theorem capacity_normalized (n : Z) (f : option (K → V → Z)) :
  let budget := if decide (n ≤ 0) then 1 else n in
  1 ≤ budget
  ∧ lru.size (lru.NewCache (K:=K) (V:=V) n) = budget
  ∧ sized.maxSize (sized.NewSizedCache n f) = budget
  ∧ bytecache.maxBytes (bytecache.New n) = budget
  ∧ length (bytecache.shards (bytecache.New n))
    = Z.to_nat bytecache.numShards
  ∧ Forall (fun s => bytecache.maxSize s
                     = Z.max 1 (budget `div` bytecache.numShards))
      (bytecache.shards (bytecache.New n)).
Proof.
  intros budget. subst budget. unfold bytecache.New.
  cbn [lru.NewCache lru.size sized.NewSizedCache sized.maxSize
       bytecache.maxBytes bytecache.shards].
  destruct (Z.leb_spec n 0) as [Hn|Hn]; destruct (decide (n ≤ 0)); try lia.
  - split_and!; [done|done|done|done|apply length_replicate|].
    apply Forall_replicate. by vm_compute.
  - split_and!; [lia|done|done|done|apply length_replicate|].
    apply Forall_replicate. cbn [bytecache.maxSize].
    rewrite Z.quot_div_nonneg by (unfold bytecache.numShards; lia).
    destruct (Z.ltb_spec (n `div` bytecache.numShards) 1); lia.
Qed.

End store_properties.

(** C3 as stated fails at a key that is not [==] to itself.  The key
    type of both stores is any comparable type; at float64 the key NaN
    is stored by [Put] (the entry is in the list and in the map, and
    nothing was evicted), and the [Get] that follows does not find
    it. *)
Lemma NaN_key_Put_Get_misses :
  let c := lru_any.Put (lru_any.NewCache (K:=float64) (V:=string) 2)
             NaN "a" in
  let sc := sized_any.Put
              (sized_any.NewSizedCache (K:=float64) (V:=string) 10 None)
              NaN "a" in
  (lru_any.reachable "" c
   ∧ lru_any.order c = [0%nat]
   ∧ lru_any.elements c = [(NaN, 0%nat)]
   ∧ lru_any.heap c !! 0%nat
     = Some {| lru_any.key := NaN; lru_any.value := "a" |}
   ∧ lru_any.Len c = 1
   ∧ (lru_any.Get "" c NaN).1 = ("", false))
  ∧ (sized_any.reachable "" sc
     ∧ sized_any.lru sc = [0%nat]
     ∧ sized_any.items sc = [(NaN, 0%nat)]
     ∧ sized_any.heap sc !! 0%nat
       = Some {| sized_any.key := NaN; sized_any.value := "a";
                 sized_any.size := 1 |}
     ∧ sized_any.Len sc = 1
     ∧ (sized_any.Get "" sc NaN).1 = ("", false)).
Proof.
  intros c sc. split.
  - split; [repeat constructor|]. split_and!; by vm_compute.
  - split; [repeat constructor|]. split_and!; by vm_compute.
Qed.

Section any_key_properties.
Context {K V : Type} `{GoEqLaws K}.
Variable zero : V.

(** C3, amended.  Round trip at an arbitrary comparable key type: in
    every reachable state of the count bounded cache, [Put(k, v)]
    immediately followed by [Get(k)] returns [(v, true)] when [k] is
    [==] to itself, and the zero value and [false] when it is not.  In
    every state of [SizedCache] the [Put] leaves the pair where a lookup
    finds it exactly when [k] is [==] to itself and the size of the pair
    fits the budget; [Get(k)] then returns [(v, true)], and the zero
    value and [false] when [k] is not [==] to itself. *)
Theorem Put_Get_round_trip :
  (∀ (c : lru_any.Cache K V) (k : K) (v : V),
     lru_any.reachable zero c →
     (goeq k k = true →
      gomap.get (lru_any.elements (lru_any.Put c k v)) k ≠ None
      ∧ (lru_any.Get zero (lru_any.Put c k v) k).1 = (v, true))
     ∧ (goeq k k = false →
        (lru_any.Get zero (lru_any.Put c k v) k).1 = (zero, false)))
  ∧ (∀ (c : sized_any.SizedCache K V) (k : K) (v : V),
       (gomap.get (sized_any.items (sized_any.Put c k v)) k ≠ None
        ↔ goeq k k = true ∧ sized_any.sizeFn c k v ≤ sized_any.maxSize c)
       ∧ (gomap.get (sized_any.items (sized_any.Put c k v)) k ≠ None →
          (sized_any.Get zero (sized_any.Put c k v) k).1 = (v, true))
       ∧ (goeq k k = false →
          (sized_any.Get zero (sized_any.Put c k v) k).1 = (zero, false))).
Proof.
  split.
  - intros c k v Hc%lru_any_reachable_inv. split.
    + intros Hk. by apply lru_any_Put_Get.
    + intros Hk. by rewrite lru_any_Get_irrefl.
  - intros c k v. split_and!.
    + apply sized_any_Put_resident.
    + intros [Hk Hfit]%sized_any_Put_resident. by apply sized_any_Put_Get.
    + intros Hk. by rewrite sized_any_Get_irrefl.
Qed.

End any_key_properties.

Section callback_properties.
Context {K V W : Type} `{Countable K}.

(** C6.  Callback discipline: on the cache of capacity 2 built with an
    eviction callback [f], [Put(x)], [Put(y)], [Put(z)] return and the
    world of the callback is the one that a single invocation of [f]
    on the key [x] (and its value) produces; a subsequent [Evict(y)],
    and a [Flush()] in any state, return and leave the world as it is. *)
Theorem callback_discipline (x y z : K) (vx vy vz : V)
    (f : K → V → W → W) (w : W) :
  x ≠ y → x ≠ z → y ≠ z →
  ∃ c3 : lrucontainer.Cache K V W,
    lrucontainer.bind (lrucontainer.Put x vx) (fun _ =>
      lrucontainer.bind (lrucontainer.Put y vy) (fun _ =>
        lrucontainer.Put z vz))
      (lrucontainer.NewCacheWithOnEvict 2 (Some f), w)
    = lrucontainer.Returns (tt, (c3, f x vx w))
    ∧ (∃ c4, lrucontainer.Evict y (c3, f x vx w)
             = lrucontainer.Returns (tt, (c4, f x vx w)))
    ∧ (∃ c4, lrucontainer.Flush (c3, f x vx w)
             = lrucontainer.Returns (tt, (c4, f x vx w)))
    ∧ (∀ (c : lrucontainer.Cache K V W) (k : K) (w' : W),
         lrucontainer.mu c = false →
         (∃ c', lrucontainer.Evict k (c, w')
                = lrucontainer.Returns (tt, (c', w')))
         ∧ (∃ c', lrucontainer.Flush (c, w')
                  = lrucontainer.Returns (tt, (c', w')))).
Proof.
  intros Hxy Hxz Hyz. eexists. split_and!.
  - by apply lrucontainer_scenario_state.
  - eexists. by rewrite lrucontainer_Evict_run.
  - eexists. by rewrite lrucontainer_Flush_run.
  - intros c k w' Hmu. split; eexists.
    + by rewrite lrucontainer_Evict_run.
    + by rewrite lrucontainer_Flush_run.
Qed.

(** C9, at the input where lru/cache.go departs from it.
    [PortionFilled()] is the usage divided by the budget: so it is for
    the count bounded cache and [SizedCache]
    ([lru_PortionFilled_unit], [sized_PortionFilled_unit]).  The
    [PortionFilled] of lru/cache.go returns nothing: on the fresh cache
    of capacity 3, where [Len()] returns 0, and in every other state,
    the call blocks on the mutex it holds. *)
Theorem cache_PortionFilled_never_returns (w : W) :
  lrucontainer.Len (lrucontainer.NewCache (K:=K) (V:=V) 3, w)
  = lrucontainer.Returns (0, (lrucontainer.NewCache 3, w))
  ∧ lrucontainer.PortionFilled (lrucontainer.NewCache (K:=K) (V:=V) 3, w)
    = lrucontainer.Blocked
  ∧ ∀ (c : lrucontainer.Cache K V W) (w' : W),
      lrucontainer.PortionFilled (c, w') = lrucontainer.Blocked.
Proof.
  split_and!.
  - by rewrite lrucontainer_Len_run.
  - apply lrucontainer_PortionFilled_blocks.
  - apply lrucontainer_PortionFilled_blocks.
Qed.

End callback_properties.

(** C7.  Shard selection is a function of the bytes of the key alone:
    two keys with equal bytes select the same index, which lies in
    [0, numShards) and names a slot of the shard array of every reachable
    cache; [Set_], [Get], [HasGet], [Has] and [Del] do the same on both
    keys in every state, leave every other shard as it is, and what the
    lookups return is decided by the selected shard alone. *)
Theorem shard_selection (key1 key2 : bytecache.slice) :
  default [] key1 = default [] key2 →
  bytecache.shardIndex key1 = bytecache.shardIndex key2
  ∧ 0 ≤ bytecache.shardIndex key1 < bytecache.numShards
  ∧ (∀ c, bytecache.reachable c →
          length (bytecache.shards c) = Z.to_nat bytecache.numShards
          ∧ bytecache.shards c !! Z.to_nat (bytecache.shardIndex key1)
            = Some (bytecache.shard c key2))
  ∧ (∀ c dst value,
       bytecache.Set_ c key1 value = bytecache.Set_ c key2 value
       ∧ bytecache.Get c dst key1 = bytecache.Get c dst key2
       ∧ bytecache.HasGet c dst key1 = bytecache.HasGet c dst key2
       ∧ bytecache.Has c key1 = bytecache.Has c key2
       ∧ bytecache.Del c key1 = bytecache.Del c key2)
  ∧ (∀ c dst value (i : nat),
       i ≠ Z.to_nat (bytecache.shardIndex key1) →
       bytecache.shards (bytecache.Set_ c key2 value) !! i
       = bytecache.shards c !! i
       ∧ bytecache.shards (bytecache.Get c dst key2).2 !! i
         = bytecache.shards c !! i
       ∧ bytecache.shards (bytecache.HasGet c dst key2).2 !! i
         = bytecache.shards c !! i
       ∧ bytecache.shards (bytecache.Del c key2) !! i
         = bytecache.shards c !! i)
  ∧ (∀ c c' dst,
       bytecache.shard c key1 = bytecache.shard c' key1 →
       bytecache.Has c key1 = bytecache.Has c' key2
       ∧ (bytecache.Get c dst key1).1 = (bytecache.Get c' dst key2).1
       ∧ (bytecache.HasGet c dst key1).1 = (bytecache.HasGet c' dst key2).1).
Proof.
  intros Hk. pose proof (shardIndex_bytes key1 key2 Hk) as Hidx.
  split; [done|]. split; [apply shardIndex_range|]. split_and!.
  - intros c Hc. split; [by apply reachable_shards_length|].
    rewrite Hidx. by apply shard_lookup.
  - intros c dst value. by apply operations_of_bytes.
  - intros c dst value i Hi. rewrite Hidx in Hi.
    by rewrite Set_other, Get_other, HasGet_other, Del_other.
  - intros c c' dst Hs.
    destruct (operations_of_bytes c' dst None key1 key2 Hk)
      as (_ & <- & <- & <- & _).
    by apply lookups_of_shard.
Qed.


(** * The properties at concrete inputs *)

Lemma oversized_insert_policy_witness :
  let ab := Some (String.list_byte_of_string "ab") in
  let ba := Some (String.list_byte_of_string "ba") in
  let v3 := Some (String.list_byte_of_string "123") in
  let big := Some (String.list_byte_of_string "0123456789") in
  let c := bytecache.Set_ (bytecache.New 2560) ab v3 in
  let sizeFn := fun (k v : string) => Z.of_nat (String.length v) in
  let sc := sized.Put "" (sized.Put "" (sized.NewSizedCache 10 (Some sizeFn))
                            "a" "xy") "c" "z" in
  (bytecache.order (bytecache.shard c ba) = ["ab"]
   ∧ bytecache.currentSize (bytecache.shard c ba) = 5
   ∧ bytecache.maxSize (bytecache.shard c ba)
     < Z.of_nat (String.length (bytecache.string_of ba))
       + bytecache.len (bytecache.append None big)
   ∧ bytecache.shards (bytecache.Set_ c ba big) = bytecache.shards c
   ∧ bytecache.order (bytecache.shard (bytecache.Set_ c ba big) ba) = ["ab"]
   ∧ bytecache.Has (bytecache.Set_ c ba big) ab = true
   ∧ bytecache.Has (bytecache.Set_ c ba big) ba = false
   ∧ bytecache.setCalls (bytecache.Set_ c ba big) = 2)
  ∧ (sized.lru sc = ["c"; "a"]
     ∧ sized.currentSize sc = 3
     ∧ sized.maxSize sc < sized.sizeFn sc "b" "0123456789A"
     ∧ sized.Put "" sc "b" "0123456789A" = sized.Flush sc
     ∧ sized.items (sized.Put "" sc "b" "0123456789A") = ∅
     ∧ sized.lru (sized.Put "" sc "b" "0123456789A") = []
     ∧ sized.currentSize (sized.Put "" sc "b" "0123456789A") = 0
     ∧ (sized.Get "" (sized.Put "" sc "b" "0123456789A") "a").1 = ("", false)).
Proof.
  intros ab ba v3 big c sizeFn sc.
  destruct (oversized_insert_policy (K:=string) (V:=string) "") as [Hb Hs].
  split.
  - assert (bytecache.maxSize (bytecache.shard c ba)
            < Z.of_nat (String.length (bytecache.string_of ba))
              + bytecache.len (bytecache.append None big)) as Hbig
      by (vm_compute; reflexivity).
    destruct (Hb c ba big Hbig) as (Hsh & _ & _ & _ & Hset).
    split; [vm_compute; reflexivity|].
    split; [vm_compute; reflexivity|].
    split; [exact Hbig|]. split; [exact Hsh|].
    split; [unfold bytecache.shard; rewrite Hsh; vm_compute; reflexivity|].
    split; [unfold bytecache.Has, bytecache.shard; rewrite Hsh; vm_compute;
            reflexivity|].
    split; [unfold bytecache.Has, bytecache.shard; rewrite Hsh; vm_compute;
            reflexivity|].
    rewrite Hset. vm_compute. reflexivity.
  - assert (sized.maxSize sc < sized.sizeFn sc "b" "0123456789A") as Hbig
      by (vm_compute; reflexivity).
    destruct (Hs sc "b" "0123456789A" Hbig) as (Hfl & Hit & Hl & Hcur & _).
    split; [vm_compute; reflexivity|].
    split; [vm_compute; reflexivity|].
    split; [exact Hbig|]. split; [exact Hfl|]. split; [exact Hit|].
    split; [exact Hl|]. split; [exact Hcur|].
    unfold sized.Get. rewrite Hit. reflexivity.
Defined.

Lemma Put_Get_round_trip_witness :
  let c := lru_any.Put (lru_any.NewCache (K:=float64) (V:=string) 2)
             (Finite 1%Qc) "one" in
  let sc := sized_any.Put
              (sized_any.NewSizedCache (K:=float64) (V:=string) 10
                 (Some (fun k v => Z.of_nat (String.length v))))
              (Finite 1%Qc) "one" in
  lru_any.reachable "" c
  ∧ goeq (Finite 2%Qc) (Finite 2%Qc) = true
  ∧ (lru_any.Get "" (lru_any.Put c (Finite 2%Qc) "two") (Finite 2%Qc)).1
    = ("two", true)
  ∧ (lru_any.Get "" (lru_any.Put c (Finite 1%Qc) "uno") (Finite 1%Qc)).1
    = ("uno", true)
  ∧ goeq NaN NaN = false
  ∧ (lru_any.Get "" (lru_any.Put c NaN "nan") NaN).1 = ("", false)
  ∧ gomap.get
      (sized_any.items (sized_any.Put sc (Finite 2%Qc) "two")) (Finite 2%Qc)
    ≠ None
  ∧ (sized_any.Get "" (sized_any.Put sc (Finite 2%Qc) "two") (Finite 2%Qc)).1
    = ("two", true)
  ∧ (sized_any.Get "" (sized_any.Put sc NaN "nan") NaN).1 = ("", false).
Proof.
  intros c sc.
  destruct (Put_Get_round_trip (K:=float64) (V:=string) "") as [Hlru Hsized].
  assert (lru_any.reachable "" c) as Hc
    by (apply lru_any.reach_Put, lru_any.reach_New).
  assert (goeq (Finite 2%Qc) (Finite 2%Qc) = true) as H2
    by (vm_compute; reflexivity).
  assert (goeq (Finite 1%Qc) (Finite 1%Qc) = true) as H1
    by (vm_compute; reflexivity).
  assert (goeq NaN NaN = false) as Hnan by (vm_compute; reflexivity).
  assert (gomap.get
            (sized_any.items (sized_any.Put sc (Finite 2%Qc) "two"))
            (Finite 2%Qc) ≠ None) as Hres
    by (vm_compute; discriminate).
  split; [exact Hc|]. split; [exact H2|].
  split; [exact (proj2 (proj1 (Hlru c (Finite 2%Qc) "two" Hc) H2))|].
  split; [exact (proj2 (proj1 (Hlru c (Finite 1%Qc) "uno" Hc) H1))|].
  split; [exact Hnan|].
  split; [exact (proj2 (Hlru c NaN "nan" Hc) Hnan)|].
  split; [exact Hres|].
  split; [exact (proj1 (proj2 (Hsized sc (Finite 2%Qc) "two")) Hres)|].
  exact (proj2 (proj2 (Hsized sc NaN "nan")) Hnan).
Defined.

Lemma recency_scenario_witness :
  let s := lru.Put
             (lru.Get ""
                (lru.Put (lru.Put (lru.Put (lru.NewCache 3) "a" "apple")
                            "b" "banana") "c" "cherry") "a").2 "d" "date" in
  (lru.Get "" s "b").1 = ("", false)
  ∧ (lru.Get "" s "a").1 = ("apple", true)
  ∧ (lru.Get "" s "c").1 = ("cherry", true)
  ∧ (lru.Get "" s "d").1 = ("date", true)
  ∧ lru.order s = ["d"; "a"; "c"]
  ∧ lru.Len s = 3
  ∧ lru.Len (lru.Get "" (lru.Get "" (lru.Get "" (lru.Get "" s "b").2
               "a").2 "c").2 "d").2 = 3.
Proof.
  apply (recency_scenario (K:=string) (V:=string) ""
           "a" "b" "c" "d" "apple" "banana" "cherry" "date");
    discriminate.
Defined.

Lemma Flush_idempotent_witness :
  let c := lru.Put (lru.NewCache (K:=string) (V:=string) 3) "a" "apple" in
  let sc := sized.Put "" (sized.NewSizedCache (K:=string) (V:=string) 10 None)
              "a" "apple" in
  lru.reachable "" c
  ∧ (lru.Len (lru.Flush c) = 0
     ∧ lru.PortionFilled (lru.Flush c) = Finite 0%Qc
     ∧ lru.Flush (lru.Flush c) = lru.Flush c)
  ∧ (sized.Len (sized.Flush sc) = 0
     ∧ sized.currentSize (sized.Flush sc) = 0
     ∧ sized.PortionFilled (sized.Flush sc) = Finite 0%Qc
     ∧ sized.Flush (sized.Flush sc) = sized.Flush sc).
Proof.
  intros c sc.
  assert (lru.reachable "" c) as Hc by (apply lru.reach_Put, lru.reach_New).
  split; [exact Hc|]. exact (Flush_idempotent "" c sc Hc).
Defined.

Lemma callback_discipline_witness :
  let record := fun (k v : string) (log : list string) => log ++ [k] in
  ∃ c3 : lrucontainer.Cache string string (list string),
    lrucontainer.bind (lrucontainer.Put "x" "value-x") (fun _ =>
      lrucontainer.bind (lrucontainer.Put "y" "value-y") (fun _ =>
        lrucontainer.Put "z" "value-z"))
      (lrucontainer.NewCacheWithOnEvict 2 (Some record), [])
    = lrucontainer.Returns (tt, (c3, ["x"]))
    ∧ ∃ c4, lrucontainer.Evict "y" (c3, ["x"])
            = lrucontainer.Returns (tt, (c4, ["x"])).
Proof.
  intros record.
  destruct (callback_discipline (K:=string) (V:=string) (W:=list string)
              "x" "y" "z" "value-x" "value-y" "value-z" record [])
    as (c3 & Hput & Hevict & _); [discriminate..|].
  exists c3. split; [exact Hput|exact Hevict].
Defined.

Lemma shard_selection_witness :
  let key1 : bytecache.slice := None in
  let key2 : bytecache.slice := Some [] in
  default [] key1 = default [] key2
  ∧ bytecache.shardIndex key1 = bytecache.shardIndex key2
  ∧ 0 ≤ bytecache.shardIndex key1 < bytecache.numShards.
Proof.
  intros key1 key2.
  assert (default [] key1 = default [] key2) as Hk by reflexivity.
  destruct (shard_selection key1 key2 Hk) as (Hidx & Hrange & _).
  split; [exact Hk|]. split; [exact Hidx|exact Hrange].
Defined.


(** * Further properties of the code *)

(** ** lru/lru.go *)

Section golist_more.
Context {A : Type} `{EqDecision A}.
Implicit Types (x y : A) (l : list A).

Lemma MoveToFront_in x l :
  x ∈ l → golist.MoveToFront x l = x :: golist.Remove x l.
Proof.
  intros Hx. unfold golist.MoveToFront. rewrite decide_True by done.
  destruct (decide (golist.Front l = Some x)) as [Hfront|]; [|done].
  destruct l as [|y l]; [done|]. simpl in *. injection Hfront as ->.
  by rewrite decide_True.
Qed.

Lemma Back_is_Some l : l ≠ [] → is_Some (golist.Back l).
Proof. intros Hl. by apply last_is_Some. Qed.

End golist_more.

Section lru_more.
Context {K V : Type} `{Countable K}.
Variable zero : V.
Implicit Types (c : lru.Cache K V) (k key : K) (v : V).

(** X2.  Eviction takes the least recently used key: when a reachable
    cache is full, [Put] of a key that is not resident removes exactly
    the key at the back of the recency list; the new key is at the
    front, every other resident key keeps its value and its relative
    position, and [Len()] stays at the size. *)
Theorem lru_Put_evicts_back c key v :
  lru.reachable zero c →
  lru.elements c !! key = None →
  lru.size c ≤ lru.Len c →
  ∃ oldest,
    golist.Back (lru.order c) = Some oldest
    ∧ oldest ≠ key
    ∧ (lru.Get zero (lru.Put c key v) oldest).1 = (zero, false)
    ∧ (lru.Get zero (lru.Put c key v) key).1 = (v, true)
    ∧ (∀ k, k ≠ oldest → k ≠ key →
            lru.elements (lru.Put c key v) !! k = lru.elements c !! k)
    ∧ lru.order (lru.Put c key v)
      = key :: golist.Remove oldest (lru.order c)
    ∧ lru.Len (lru.Put c key v) = lru.size c.
Proof.
  intros Hc Hk Hfull.
  pose proof (lru_reachable_inv zero c Hc) as [Hs Hb Hnd Hdom].
  assert (lru.order c ≠ []) as Hne.
  { intros Hnil. unfold lru.Len, golist.Len in Hfull.
    rewrite Hnil in Hfull. simpl in Hfull. lia. }
  destruct (Back_is_Some _ Hne) as [oldest Hback].
  pose proof (Back_elem_of _ _ Hback) as Hin.
  assert (oldest ≠ key) as Hok.
  { intros ->. apply Hdom in Hin. rewrite Hk in Hin. by destruct Hin. }
  exists oldest. rewrite (lru_Put_full c key v oldest) by done.
  split_and!; try done.
  - rewrite lru_Get_miss; [done|]. simpl.
    rewrite lookup_insert_ne by done. apply lookup_delete_eq.
  - rewrite (lru_Get_hit _ _ key v); [done|]. simpl. apply lookup_insert_eq.
  - intros k Hk1 Hk2. simpl.
    by rewrite lookup_insert_ne, lookup_delete_ne.
  - unfold lru.Len, golist.Len in *. simpl.
    apply Remove_length in Hin. lia.
Qed.

(** X3.  No eviction below capacity: [Put] of a key that is not resident
    into a cache with room keeps every resident key and adds the new one
    at the front, so [Len()] grows by one. *)
Theorem lru_Put_room_keeps_all c key v :
  lru.elements c !! key = None →
  lru.Len c < lru.size c →
  lru.elements (lru.Put c key v) = <[key := v]> (lru.elements c)
  ∧ lru.order (lru.Put c key v) = key :: lru.order c
  ∧ lru.Len (lru.Put c key v) = lru.Len c + 1.
Proof.
  intros Hk Hroom. rewrite lru_Put_room by done. split_and!; try done.
  unfold lru.Len, golist.Len. simpl. lia.
Qed.

(** X4.  A touch moves the key to the front and nothing else: in a
    reachable state, [Get] of a resident key and [Put] on a resident key
    put it at the front of the recency list, keep the relative order of
    the other keys, evict nothing and keep [Len()]; [Get] keeps every
    value and [Put] changes the value of its key only. *)
Theorem lru_touch_moves_to_front c key v0 v :
  lru.reachable zero c →
  lru.elements c !! key = Some v0 →
  (lru.Get zero c key).1 = (v0, true)
  ∧ lru.elements (lru.Get zero c key).2 = lru.elements c
  ∧ lru.order (lru.Get zero c key).2
    = key :: golist.Remove key (lru.order c)
  ∧ lru.elements (lru.Put c key v) = <[key := v]> (lru.elements c)
  ∧ lru.order (lru.Put c key v) = key :: golist.Remove key (lru.order c)
  ∧ lru.Len (lru.Put c key v) = lru.Len c.
Proof.
  intros Hc Hk.
  pose proof (lru_reachable_inv zero c Hc) as [Hs Hb Hnd Hdom].
  assert (key ∈ lru.order c) as Hin by (apply Hdom; eauto).
  rewrite (lru_Get_hit _ _ key v0) by done. unfold lru.Put. rewrite Hk.
  simpl. rewrite MoveToFront_in by done. split_and!; try done.
  unfold lru.Len, golist.Len. simpl. apply Remove_length in Hin. lia.
Qed.


(** X6.  [PortionFilled] of the count bounded cache at its two ends: in
    every reachable state it is 0 when the cache is empty, and 1 when
    the cache is full and its size is an [int]. *)
Theorem lru_PortionFilled_ends c :
  lru.reachable zero c →
  (lru.Len c = 0 → lru.PortionFilled c = Finite 0%Qc)
  ∧ (lru.Len c = lru.size c → lru.size c < 2 ^ 63 →
     lru.PortionFilled c = Finite 1%Qc).
Proof.
  intros [Hs _ _ _]%lru_reachable_inv. unfold lru.PortionFilled.
  fold (lru.Len c). split.
  - intros ->. apply float64_div_0. lia.
  - intros -> Hint. apply float64_div_diag; lia.
Qed.

End lru_more.

(** ** The size bounded cache *)

Section sized_more.
Context {K V : Type} `{Countable K}.
Variable zero : V.
Implicit Types (c : sized.SizedCache K V) (k key : K) (v : V).

Lemma sized_wf_flushLocked c :
  1 ≤ sized.maxSize c → sized_wf (sized.flushLocked c).
Proof.
  intros Hm. split; simpl; [done|constructor| |].
  - intros k. rewrite lookup_empty. split; [by intros ?%elem_of_nil|].
    by intros [? ?].
  - intros k e. by rewrite lookup_empty.
Qed.

Lemma sized_wf_remove c k cur :
  sized_wf c →
  sized_wf
    {| sized.maxSize := sized.maxSize c; sized.currentSize := cur;
       sized.sizeFn := sized.sizeFn c;
       sized.items := delete k (sized.items c);
       sized.lru := golist.Remove k (sized.lru c) |}.
Proof.
  intros [Hm Hnd Hdom Hsz]. split; simpl.
  - done.
  - by apply NoDup_Remove.
  - intros k'. rewrite elem_of_Remove, Hdom by done.
    destruct (decide (k' = k)) as [->|Hne].
    + rewrite lookup_delete_eq. split; [intuition congruence|by intros [? ?]].
    + rewrite lookup_delete_ne by done. intuition congruence.
  - intros k' e. rewrite lookup_delete.
    destruct (decide (k = k')); [done|]. apply Hsz.
Qed.

(** The eviction loop only removes entries. *)
Lemma sized_evictLoop_sub n e c k x :
  sized.items (sized.evictLoop zero n e c) !! k = Some x →
  sized.items c !! k = Some x.
Proof.
  revert c. induction n as [|n IH]; intros c; simpl; [done|].
  destruct (_ >? _); [|done].
  destruct (golist.Back (sized.lru c)) as [back|]; [|done].
  intros Hx%IH. simpl in Hx. rewrite lookup_delete in Hx.
  by destruct (decide (back = k)).
Qed.

Lemma sized_wf_evictLoop n e c :
  sized_wf c →
  sized_wf (sized.evictLoop zero n e c)
  ∧ sized.sizeFn (sized.evictLoop zero n e c) = sized.sizeFn c.
Proof.
  revert c. induction n as [|n IH]; intros c Hwf; simpl; [done|].
  destruct (_ >? _); [|done].
  destruct (golist.Back (sized.lru c)) as [back|]; [|done].
  destruct (IH _ (sized_wf_remove c back
                    (goint.sub (sized.currentSize c)
                       (sized.size (sized.entryOf zero c back))) Hwf))
    as [Hwf' Hf'].
  split; [exact Hwf'|]. by rewrite Hf'.
Qed.

Lemma sized_wf_Put c k v : sized_wf c → sized_wf (sized.Put zero c k v).
Proof.
  intros Hwf. unfold sized.Put.
  destruct (_ >? _); [apply sized_wf_flushLocked, Hwf|].
  set (c1 := match sized.items c !! k with Some _ => _ | None => c end).
  assert (sized_wf c1 ∧ sized.items c1 !! k = None
          ∧ sized.sizeFn c1 = sized.sizeFn c) as (Hwf1 & Hk1 & Hf1).
  { subst c1. destruct (sized.items c !! k) as [old|] eqn:Hk; [|done].
    split; [by apply sized_wf_remove|]. simpl. by rewrite lookup_delete_eq. }
  destruct (sized_wf_evictLoop (length (sized.lru c1)) (sized.sizeFn c k v) c1)
    as [Hwf2 Hf2]; [done|].
  set (c2 := sized.evictLoop zero _ _ c1) in *.
  assert (sized.items c2 !! k = None) as Hk2.
  { destruct (sized.items c2 !! k) as [x|] eqn:Hx; [|done].
    apply sized_evictLoop_sub in Hx. congruence. }
  destruct Hwf2 as [Hm Hnd Hdom Hsz]. split; simpl.
  - done.
  - apply list.NoDup_cons. split; [|done]. rewrite Hdom, Hk2. by intros [? ?].
  - intros k'. unfold golist.PushFront. rewrite elem_of_cons, Hdom.
    destruct (decide (k = k')) as [->|Hne].
    + rewrite lookup_insert_eq. split; eauto.
    + rewrite lookup_insert_ne by done. intuition congruence.
  - intros k' e'. rewrite lookup_insert.
    destruct (decide (k = k')) as [<-|Hne].
    + intros [= <-]. simpl. by rewrite Hf2, Hf1.
    + apply Hsz.
Qed.

Lemma sized_wf_Get c k : sized_wf c → sized_wf (sized.Get zero c k).2.
Proof.
  intros Hwf. unfold sized.Get.
  destruct (sized.items c !! k) as [e|] eqn:Hk; [|done].
  destruct Hwf as [Hm Hnd Hdom Hsz]. split; simpl; try done.
  - by apply NoDup_MoveToFront.
  - intros k'. by rewrite MoveToFront_elem_of, Hdom.
Qed.

Lemma sized_wf_Evict c k : sized_wf c → sized_wf (sized.Evict c k).
Proof.
  intros Hwf. unfold sized.Evict.
  destruct (sized.items c !! k); [|done]. by apply sized_wf_remove.
Qed.

Lemma sized_reachable_wf c : sized.reachable zero c → sized_wf c.
Proof.
  induction 1 as [n f|c k v _ IH|c k _ IH|c k _ IH|c _ IH].
  - apply (sized_wf_flushLocked (sized.NewSizedCache n f)). simpl.
    destruct (Z.leb_spec n 0); lia.
  - by apply sized_wf_Put.
  - by apply sized_wf_Get.
  - by apply sized_wf_Evict.
  - apply sized_wf_flushLocked, IH.
Qed.

(** X8.  Capacity bound of [SizedCache]: when the sizing function
    returns no negative size and the budget is an [int], in every
    reachable state the recorded usage is the sum of the sizes of the
    live entries, is not negative and is at most the budget; a [Put]
    that replaces a value by a larger one is no exception. *)
Theorem sized_capacity_bound c :
  sized.reachable zero c →
  (∀ k v, 0 ≤ sized.sizeFn c k v) →
  sized.maxSize c < 2 ^ 63 →
  sized.currentSize c = sized.usage c
  ∧ 0 ≤ sized.currentSize c
  ∧ sized.currentSize c ≤ sized.maxSize c.
Proof.
  intros Hc Hfn Hint.
  destruct (sized_reachable_inv zero c Hc (conj Hfn Hint))
    as [Hm _ _ Hnn Hu Hb].
  split_and!; [done| |done].
  rewrite Hu, sized_usage_total. by apply total_nonneg.
Qed.



(** X12.  [PortionFilled] of [SizedCache] at its two ends: in every
    reachable state, whatever the sizing function, it is 0 when the
    recorded usage is 0, and 1 when the recorded usage equals the
    budget and the budget is an [int]. *)
Theorem sized_PortionFilled_ends c :
  sized.reachable zero c →
  (sized.currentSize c = 0 → sized.PortionFilled c = Finite 0%Qc)
  ∧ (sized.currentSize c = sized.maxSize c → sized.maxSize c < 2 ^ 63 →
     sized.PortionFilled c = Finite 1%Qc).
Proof.
  intros [Hm _ _ _]%sized_reachable_wf. unfold sized.PortionFilled.
  destruct (Z.eqb_spec (sized.maxSize c) 0); [lia|]. split.
  - intros ->. by apply float64_div_0.
  - intros -> Hint. apply float64_div_diag; lia.
Qed.

End sized_more.

(** ** The sharded byte cache: structure *)

Lemma wrap64_add_l a b : goint.wrap64 (goint.wrap64 a + b) = goint.wrap64 (a + b).
Proof.
  unfold goint.wrap64. f_equal.
  replace ((a + 2 ^ 63) `mod` 2 ^ 64 - 2 ^ 63 + b + 2 ^ 63)
    with ((a + 2 ^ 63) `mod` 2 ^ 64 + b) by lia.
  rewrite Zplus_mod_idemp_l. f_equal. lia.
Qed.

Lemma wrap64_sub_l a b : goint.wrap64 (goint.wrap64 a - b) = goint.wrap64 (a - b).
Proof.
  replace (goint.wrap64 a - b) with (goint.wrap64 a + - b) by lia.
  by rewrite wrap64_add_l.
Qed.

Lemma string_of_length key :
  Z.of_nat (String.length (bytecache.string_of key)) = bytecache.len key.
Proof.
  unfold bytecache.string_of, bytecache.len, String.string_of_list_byte.
  f_equal. induction (default [] key) as [|b l IH]; simpl; [done|].
  by rewrite IH.
Qed.

Lemma string_of_bytes_back key :
  String.list_byte_of_string (bytecache.string_of key) = default [] key.
Proof. apply String.list_byte_of_string_of_list_byte. Qed.


Lemma len_append_nil value :
  bytecache.len (bytecache.append None value) = bytecache.len value
  ∧ default [] (bytecache.append None value) = default [] value.
Proof.
  unfold bytecache.len, bytecache.append.
  by destruct value as [[|b l]|].
Qed.

Lemma len_nonneg value : 0 ≤ bytecache.len value.
Proof. unfold bytecache.len. lia. Qed.

Section shard_facts.
Implicit Types (s : bytecache.byteShard) (k : string) (e : bytecache.byteEntry).

Lemma shard_usage_total s :
  bytecache.usage s = total bytecache.size (bytecache.items s).
Proof. done. Qed.

Lemma shard_inv_empty i b :
  1 ≤ b →
  shard_inv i {| bytecache.items := ∅; bytecache.order := [];
                 bytecache.currentSize := 0; bytecache.maxSize := b |}.
Proof.
  intros Hb. split; simpl; [done|constructor| | |done].
  - intros k. rewrite lookup_empty. split; [by intros ?%elem_of_nil|].
    by intros [? ?].
  - intros k e. by rewrite lookup_empty.
Qed.

Lemma shard_inv_moveToFront i s k :
  shard_inv i s → is_Some (bytecache.items s !! k) →
  shard_inv i (bytecache.moveToFront s k)
  ∧ bytecache.items (bytecache.moveToFront s k) = bytecache.items s
  ∧ bytecache.maxSize (bytecache.moveToFront s k) = bytecache.maxSize s
  ∧ bytecache.currentSize (bytecache.moveToFront s k)
    = bytecache.currentSize s.
Proof.
  intros Hinv Hk. unfold bytecache.moveToFront.
  destruct (decide (bytecache.head s = Some k)); [done|].
  split; [|done]. destruct Hinv as [Hm Hnd Hdom He Hu].
  split; simpl; try done.
  - apply list.NoDup_cons. split; [|by apply NoDup_Remove].
    rewrite elem_of_Remove by done. intuition congruence.
  - intros k'. rewrite elem_of_cons, elem_of_Remove, Hdom by done.
    destruct (decide (k' = k)) as [->|]; intuition congruence.
Qed.

(** Unlinking the entry [k] and giving back its size. *)
Lemma shard_inv_remove i s k e :
  shard_inv i s → bytecache.items s !! k = Some e →
  shard_inv i
    {| bytecache.items := delete k (bytecache.items s);
       bytecache.order := golist.Remove k (bytecache.order s);
       bytecache.currentSize
         := goint.sub (bytecache.currentSize s) (bytecache.size e);
       bytecache.maxSize := bytecache.maxSize s |}.
Proof.
  intros [Hm Hnd Hdom He Hu] Hk. split; simpl.
  - done.
  - by apply NoDup_Remove.
  - intros k'. rewrite elem_of_Remove, Hdom by done.
    destruct (decide (k' = k)) as [->|Hne].
    + rewrite lookup_delete_eq. split; [intuition congruence|by intros [? ?]].
    + rewrite lookup_delete_ne by done. intuition congruence.
  - intros k' e'. rewrite lookup_delete.
    destruct (decide (k = k')); [done|]. apply He.
  - unfold goint.sub. rewrite Hu, wrap64_sub_l. f_equal.
    rewrite !shard_usage_total. simpl.
    rewrite (total_delete bytecache.size _ _ _ Hk). lia.
Qed.

(** Writing the entry of [k], new or not, and accounting for it. *)
Lemma shard_inv_write i s k e order' :
  shard_inv i s →
  bytecache.size e
  = Z.of_nat (String.length k) + bytecache.len (bytecache.value e) →
  bytecache.size e ≤ bytecache.maxSize s →
  Z.to_nat (bytecache.shardIndex (Some (String.list_byte_of_string k))) = i →
  NoDup order' →
  (∀ k', k' ∈ order' ↔ k' = k ∨ k' ∈ bytecache.order s) →
  shard_inv i
    {| bytecache.items := <[k := e]> (bytecache.items s);
       bytecache.order := order';
       bytecache.currentSize :=
         goint.add
           (match bytecache.items s !! k with
            | Some old => goint.sub (bytecache.currentSize s)
                            (bytecache.size old)
            | None => bytecache.currentSize s
            end) (bytecache.size e);
       bytecache.maxSize := bytecache.maxSize s |}.
Proof.
  intros [Hm Hnd Hdom He Hu] Hsz Hfit Hidx Hnd' Hord. split; simpl.
  - done.
  - done.
  - intros k'. rewrite Hord, Hdom.
    destruct (decide (k = k')) as [->|Hne].
    + rewrite lookup_insert_eq. split; eauto.
    + rewrite lookup_insert_ne by done. intuition congruence.
  - intros k' e'. rewrite lookup_insert.
    destruct (decide (k = k')) as [<-|Hne]; [|apply He].
    by intros [= <-].
  - rewrite !shard_usage_total. simpl.
    destruct (bytecache.items s !! k) as [old|] eqn:Hk.
    + unfold goint.add, goint.sub.
      rewrite Hu, wrap64_sub_l, wrap64_add_l. f_equal.
      rewrite shard_usage_total, (total_delete bytecache.size _ _ _ Hk).
      rewrite <-insert_delete_eq.
      rewrite total_insert by apply lookup_delete_eq. lia.
    + unfold goint.add. rewrite Hu, wrap64_add_l. f_equal.
      rewrite shard_usage_total, total_insert by done. lia.
Qed.

(** The eviction loop keeps the invariant and only removes entries. *)
Lemma shard_inv_evictLoop i n sz s :
  shard_inv i s →
  shard_inv i (bytecache.evictLoop n sz s)
  ∧ bytecache.maxSize (bytecache.evictLoop n sz s) = bytecache.maxSize s
  ∧ (∀ k e, bytecache.items (bytecache.evictLoop n sz s) !! k = Some e →
            bytecache.items s !! k = Some e).
Proof.
  revert s. induction n as [|n IH]; intros s Hinv; simpl; [done|].
  destruct (_ >? _); [|done].
  destruct (bytecache.tail s) as [old|] eqn:Htail; [|done].
  pose proof (last_Some_elem_of _ _ Htail) as Hin.
  pose proof Hinv as [_ _ Hdom _ _]. apply Hdom in Hin as [e0 He0].
  unfold bytecache.entryOf. rewrite He0. simpl.
  destruct (IH _ (shard_inv_remove i s old e0 Hinv He0)) as (Hinv' & Hm' & Hsub).
  split_and!; [done|done|].
  intros k e Hk%Hsub. simpl in Hk. rewrite lookup_delete in Hk.
  by destruct (decide (old = k)).
Qed.

End shard_facts.

Section cache_facts.
Implicit Types (c : bytecache.Cache) (key dst value : bytecache.slice).

Lemma cache_inv_shards c c' :
  bytecache.shards c' = bytecache.shards c → cache_inv c → cache_inv c'.
Proof. unfold cache_inv. by intros ->. Qed.

Lemma cache_inv_shard c key :
  cache_inv c →
  bytecache.shards c !! Z.to_nat (bytecache.shardIndex key)
  = Some (bytecache.shard c key)
  ∧ shard_inv (Z.to_nat (bytecache.shardIndex key)) (bytecache.shard c key).
Proof.
  intros [Hlen Hinv].
  assert (bytecache.shards c !! Z.to_nat (bytecache.shardIndex key)
          = Some (bytecache.shard c key)) as Hs.
  { apply list_lookup_lookup_total_lt. rewrite Hlen.
    pose proof (shardIndex_range key). lia. }
  split; [done|]. by apply Hinv.
Qed.

Lemma cache_inv_withShard c key s :
  cache_inv c → shard_inv (Z.to_nat (bytecache.shardIndex key)) s →
  cache_inv (bytecache.withShard c key s)
  ∧ bytecache.shard (bytecache.withShard c key s) key = s.
Proof.
  intros [Hlen Hinv] Hs.
  assert (Z.to_nat (bytecache.shardIndex key) < length (bytecache.shards c))%nat
    as Hlt.
  { rewrite Hlen. pose proof (shardIndex_range key). lia. }
  split; [split|].
  - by rewrite withShard_length.
  - intros i s'. simpl.
    destruct (decide (i = Z.to_nat (bytecache.shardIndex key))) as [->|Hne].
    + rewrite list_lookup_insert_eq by done. by intros [= <-].
    + rewrite list_lookup_insert_ne by done. apply Hinv.
  - unfold bytecache.shard. simpl.
    by rewrite list_lookup_total_insert_eq.
Qed.

Lemma cache_inv_New n : cache_inv (bytecache.New n).
Proof.
  split.
  - unfold bytecache.New. cbn [bytecache.shards]. apply length_replicate.
  - intros i s. unfold bytecache.New. cbn [bytecache.shards].
    intros [-> _]%lookup_replicate. apply shard_inv_empty.
    destruct (_ <? 1) eqn:Hlt; [done|]. by apply Z.ltb_ge in Hlt.
Qed.

Lemma Set_fits c key value :
  Z.of_nat (String.length (bytecache.string_of key))
  + bytecache.len (bytecache.append None value)
  ≤ bytecache.maxSize (bytecache.shard c key) →
  bytecache.shards (bytecache.Set_ c key value)
  = <[Z.to_nat (bytecache.shardIndex key) :=
        shard_after_Set (bytecache.shard c key) (bytecache.string_of key)
          (bytecache.append None value)]> (bytecache.shards c).
Proof.
  intros Hfit. unfold bytecache.Set_. cbv zeta.
  change (bytecache.shard (bytecache.mkCache (bytecache.shards c) _ _ _ _) key)
    with (bytecache.shard c key).
  rewrite Z.gtb_ltb.
  destruct (Z.ltb_spec (bytecache.maxSize (bytecache.shard c key))
    (Z.of_nat (String.length (bytecache.string_of key))
     + bytecache.len (bytecache.append None value))); [lia|].
  unfold shard_after_Set.
  by destruct (bytecache.items (bytecache.shard c key)
               !! bytecache.string_of key).
Qed.

Lemma shard_inv_after_Set i s key value :
  shard_inv i s →
  i = Z.to_nat (bytecache.shardIndex key) →
  Z.of_nat (String.length (bytecache.string_of key))
  + bytecache.len (bytecache.append None value) ≤ bytecache.maxSize s →
  shard_inv i (shard_after_Set s (bytecache.string_of key)
                 (bytecache.append None value))
  ∧ bytecache.items (shard_after_Set s (bytecache.string_of key)
                       (bytecache.append None value))
    !! bytecache.string_of key
    = Some {| bytecache.value := bytecache.append None value;
              bytecache.size :=
                Z.of_nat (String.length (bytecache.string_of key))
                + bytecache.len (bytecache.append None value) |}
  ∧ bytecache.head (shard_after_Set s (bytecache.string_of key)
                      (bytecache.append None value))
    = Some (bytecache.string_of key)
  ∧ bytecache.maxSize (shard_after_Set s (bytecache.string_of key)
                         (bytecache.append None value))
    = bytecache.maxSize s.
Proof.
  intros Hinv -> Hfit. set (k := bytecache.string_of key) in *.
  set (v := bytecache.append None value) in *.
  assert (Z.to_nat (bytecache.shardIndex (Some (String.list_byte_of_string k)))
          = Z.to_nat (bytecache.shardIndex key)) as Hidx.
  { f_equal. apply shardIndex_bytes. simpl. apply string_of_bytes_back. }
  unfold shard_after_Set.
  destruct (bytecache.items s !! k) as [old|] eqn:Hk.
  - pose proof (shard_inv_write _ s k
      {| bytecache.value := v;
         bytecache.size := Z.of_nat (String.length k) + bytecache.len v |}
      (bytecache.order s) Hinv) as Hw.
    rewrite Hk in Hw. simpl in Hw.
    destruct Hinv as [Hm Hnd Hdom He Hu].
    assert (k ∈ bytecache.order s) as Hin by (apply Hdom; eauto).
    specialize (Hw eq_refl Hfit Hidx Hnd).
    destruct (shard_inv_moveToFront _ _ k
                (Hw ltac:(intros k'; split; [auto|intros [->|?]; done])))
      as (Hinv' & Hitems & Hmax & _).
    { simpl. rewrite lookup_insert_eq. eauto. }
    split_and!; [done| | |done].
    + rewrite Hitems. simpl. apply lookup_insert_eq.
    + unfold bytecache.moveToFront.
      by destruct (decide (bytecache.head _ = Some k)).
  - destruct (shard_inv_evictLoop _ (length (bytecache.order s))
                (Z.of_nat (String.length k) + bytecache.len v) s Hinv)
      as (Hinv1 & Hmax1 & Hsub).
    set (s1 := bytecache.evictLoop _ _ s) in *.
    assert (bytecache.items s1 !! k = None) as Hk1.
    { destruct (bytecache.items s1 !! k) as [x|] eqn:Hx; [|done].
      apply Hsub in Hx. congruence. }
    pose proof (shard_inv_write _ s1 k
      {| bytecache.value := v;
         bytecache.size := Z.of_nat (String.length k) + bytecache.len v |}
      (k :: bytecache.order s1) Hinv1) as Hw.
    rewrite Hk1 in Hw. simpl in Hw.
    destruct Hinv1 as [Hm Hnd Hdom He Hu].
    split_and!; [|by simpl; rewrite lookup_insert_eq|done|done].
    apply Hw; try done.
    + lia.
    + apply list.NoDup_cons. split; [|done]. rewrite Hdom, Hk1. by intros [? ?].
    + intros k'. by rewrite elem_of_cons.
Qed.

Lemma cache_inv_Set c key value :
  cache_inv c → cache_inv (bytecache.Set_ c key value).
Proof.
  intros Hinv.
  destruct (Z.lt_ge_cases (bytecache.maxSize (bytecache.shard c key))
    (Z.of_nat (String.length (bytecache.string_of key))
     + bytecache.len (bytecache.append None value))) as [Hbig|Hfit].
  - eapply cache_inv_shards; [|done]. by rewrite Set_oversized.
  - destruct (cache_inv_shard c key Hinv) as [_ Hs].
    destruct (shard_inv_after_Set _ _ key value Hs eq_refl Hfit) as [Hs' _].
    destruct (cache_inv_withShard c key _ Hinv Hs') as [Hc' _].
    eapply cache_inv_shards; [|exact Hc']. by rewrite Set_fits.
Qed.

(** [Get] is [HasGet] without the flag. *)
Lemma Get_of_HasGet c dst key :
  bytecache.Get c dst key
  = ((bytecache.HasGet c dst key).1.1, (bytecache.HasGet c dst key).2).
Proof.
  unfold bytecache.Get, bytecache.HasGet. cbv zeta.
  by destruct (bytecache.items _ !! _); destruct dst.
Qed.

Lemma HasGet_shards c dst key :
  bytecache.shards (bytecache.HasGet c dst key).2
  = match bytecache.items (bytecache.shard c key) !! bytecache.string_of key with
    | Some _ =>
        <[Z.to_nat (bytecache.shardIndex key) :=
            bytecache.moveToFront (bytecache.shard c key)
              (bytecache.string_of key)]> (bytecache.shards c)
    | None => bytecache.shards c
    end.
Proof.
  unfold bytecache.HasGet. cbv zeta.
  change (bytecache.shard (bytecache.mkCache (bytecache.shards c) _ _ _ _) key)
    with (bytecache.shard c key).
  by destruct (bytecache.items _ !! _); destruct dst.
Qed.

Lemma cache_inv_HasGet c dst key :
  cache_inv c → cache_inv (bytecache.HasGet c dst key).2.
Proof.
  intros Hinv. destruct (cache_inv_shard c key Hinv) as [_ Hs].
  pose proof (HasGet_shards c dst key) as Hsh.
  destruct (bytecache.items (bytecache.shard c key) !! bytecache.string_of key)
    as [e|] eqn:Hk.
  - destruct (shard_inv_moveToFront _ _ (bytecache.string_of key) Hs)
      as [Hs' _]; [eauto|].
    destruct (cache_inv_withShard c key _ Hinv Hs') as [Hc' _].
    eapply cache_inv_shards; [|exact Hc']. by rewrite Hsh.
  - by eapply cache_inv_shards.
Qed.

Lemma cache_inv_Get c dst key :
  cache_inv c → cache_inv (bytecache.Get c dst key).2.
Proof. rewrite Get_of_HasGet. apply cache_inv_HasGet. Qed.

Lemma Del_shards c key :
  bytecache.Del c key
  = match bytecache.items (bytecache.shard c key) !! bytecache.string_of key with
    | Some e =>
        bytecache.withShard c key
          {| bytecache.items :=
               delete (bytecache.string_of key)
                 (bytecache.items (bytecache.shard c key));
             bytecache.order :=
               golist.Remove (bytecache.string_of key)
                 (bytecache.order (bytecache.shard c key));
             bytecache.currentSize :=
               goint.sub (bytecache.currentSize (bytecache.shard c key))
                 (bytecache.size e);
             bytecache.maxSize := bytecache.maxSize (bytecache.shard c key) |}
    | None => c
    end.
Proof. unfold bytecache.Del. cbv zeta. by destruct (bytecache.items _ !! _). Qed.

Lemma cache_inv_Del c key : cache_inv c → cache_inv (bytecache.Del c key).
Proof.
  intros Hinv. destruct (cache_inv_shard c key Hinv) as [_ Hs].
  rewrite Del_shards.
  destruct (bytecache.items (bytecache.shard c key) !! bytecache.string_of key)
    as [e|] eqn:Hk; [|done].
  apply cache_inv_withShard; [done|]. by apply shard_inv_remove.
Qed.

Lemma cache_inv_Reset c : cache_inv c → cache_inv (bytecache.Reset c).
Proof.
  intros [Hlen Hinv]. split; simpl.
  - by rewrite length_fmap.
  - intros i s. rewrite list_lookup_fmap.
    destruct (bytecache.shards c !! i) as [s0|] eqn:Hs0; [|done].
    intros [= <-]. apply shard_inv_empty. by destruct (Hinv i s0 Hs0).
Qed.

Lemma reachable_cache_inv c : bytecache.reachable c → cache_inv c.
Proof.
  induction 1; auto using cache_inv_New, cache_inv_Set, cache_inv_Get,
    cache_inv_HasGet, cache_inv_Del, cache_inv_Reset.
Qed.

End cache_facts.

(** ** The sharded byte cache: behaviour *)

Section bytecache_more.
Implicit Types (c : bytecache.Cache) (key dst value : bytecache.slice).

Lemma shard_after_fitting_Set c key value :
  cache_inv c →
  Z.of_nat (String.length (bytecache.string_of key))
  + bytecache.len (bytecache.append None value)
  ≤ bytecache.maxSize (bytecache.shard c key) →
  bytecache.shard (bytecache.Set_ c key value) key
  = shard_after_Set (bytecache.shard c key) (bytecache.string_of key)
      (bytecache.append None value).
Proof.
  intros [Hlen _] Hfit. unfold bytecache.shard at 1.
  rewrite Set_fits by done. apply list_lookup_total_insert_eq.
  rewrite Hlen. pose proof (shardIndex_range key). lia.
Qed.

Lemma fits_bytes c key value :
  bytecache.len key + bytecache.len value
  ≤ bytecache.maxSize (bytecache.shard c key) →
  Z.of_nat (String.length (bytecache.string_of key))
  + bytecache.len (bytecache.append None value)
  ≤ bytecache.maxSize (bytecache.shard c key).
Proof.
  by rewrite string_of_length, (proj1 (len_append_nil value)).
Qed.

Lemma HasGet_hit c dst key e :
  bytecache.items (bytecache.shard c key) !! bytecache.string_of key = Some e →
  (bytecache.HasGet c dst key).1.2 = true
  ∧ default [] (bytecache.HasGet c dst key).1.1
    = default [] (bytecache.value e)
  ∧ ((bytecache.HasGet c dst key).1.1 = None
     ↔ dst = None ∧ default [] (bytecache.value e) = []).
Proof.
  intros Hk. unfold bytecache.HasGet. cbv zeta.
  change (bytecache.shard (bytecache.mkCache (bytecache.shards c) _ _ _ _) key)
    with (bytecache.shard c key).
  rewrite Hk. unfold bytecache.append, bytecache.truncate.
  destruct dst as [d|]; simpl.
  - split_and!; [done|done|]. split; [done|]. by intros [? _].
  - destruct (default [] (bytecache.value e)) as [|b l]; simpl.
    + done.
    + split_and!; [done|done|]. split; [done|]. by intros [_ ?].
Qed.


(** X14.  A key lives in the shard it hashes to and in no other: in a
    reachable cache, a shard that holds an entry for the bytes of [key]
    is the shard at [shardIndex key], the one that [Has], [Get] and
    [Del] consult. *)
Theorem bytecache_key_in_one_shard c key (i : nat) s :
  bytecache.reachable c →
  bytecache.shards c !! i = Some s →
  is_Some (bytecache.items s !! bytecache.string_of key) →
  i = Z.to_nat (bytecache.shardIndex key)
  ∧ s = bytecache.shard c key
  ∧ bytecache.Has c key = true.
Proof.
  intros Hc Hs [e He].
  pose proof (reachable_cache_inv c Hc) as Hinv.
  destruct (proj2 Hinv i s Hs) as [_ _ _ Hent _].
  destruct (Hent _ _ He) as (_ & _ & Hidx).
  assert (i = Z.to_nat (bytecache.shardIndex key)) as ->.
  { rewrite <-Hidx. f_equal. apply shardIndex_bytes. simpl.
    apply string_of_bytes_back. }
  destruct (cache_inv_shard c key Hinv) as [Hs' _].
  assert (s = bytecache.shard c key) as -> by congruence.
  split_and!; [done|done|].
  unfold bytecache.Has. rewrite He. by apply bool_decide_eq_true_2.
Qed.

(** X15.  Round trip of the byte cache: in a reachable cache, after a
    [Set_] whose key and value together fit the budget of the shard,
    [Has] finds the key and [HasGet] and [Get] return the bytes of the
    value, whatever [dst] held before. *)
Theorem bytecache_Set_Get_round_trip c dst key value :
  bytecache.reachable c →
  bytecache.len key + bytecache.len value
  ≤ bytecache.maxSize (bytecache.shard c key) →
  bytecache.Has (bytecache.Set_ c key value) key = true
  ∧ (bytecache.HasGet (bytecache.Set_ c key value) dst key).1.2 = true
  ∧ default [] (bytecache.HasGet (bytecache.Set_ c key value) dst key).1.1
    = default [] value
  ∧ default [] (bytecache.Get (bytecache.Set_ c key value) dst key).1
    = default [] value.
Proof.
  intros Hc Hfit%fits_bytes.
  pose proof (reachable_cache_inv c Hc) as Hinv.
  destruct (cache_inv_shard c key Hinv) as [_ Hs].
  destruct (shard_inv_after_Set _ _ key value Hs eq_refl Hfit)
    as (_ & Hk & _ & _).
  rewrite <-shard_after_fitting_Set in Hk by done.
  destruct (HasGet_hit _ dst key _ Hk) as (Hfound & Hval & _).
  cbn [bytecache.value] in Hval.
  rewrite (proj2 (len_append_nil value)) in Hval.
  rewrite Get_of_HasGet. split_and!; try done.
  unfold bytecache.Has. rewrite Hk. by apply bool_decide_eq_true_2.
Qed.

(** X16.  [Get] cannot tell a stored empty value from a missing key: in
    a reachable cache, after a [Set_] of a value of length 0 under a key
    that fits, [Has] finds the key, and [Get] returns what it returns on
    a miss: nil for a nil [dst] and [dst] truncated to length 0
    otherwise. *)
Theorem bytecache_empty_value_reads_as_miss c dst key value :
  bytecache.reachable c →
  bytecache.len value = 0 →
  bytecache.len key ≤ bytecache.maxSize (bytecache.shard c key) →
  bytecache.Has (bytecache.Set_ c key value) key = true
  ∧ (bytecache.Get (bytecache.Set_ c key value) dst key).1
    = match dst with None => None | Some _ => Some [] end.
Proof.
  intros Hc Hempty Hfit.
  assert (bytecache.len key + bytecache.len value
          ≤ bytecache.maxSize (bytecache.shard c key)) as Hfit'%fits_bytes
    by lia.
  pose proof (reachable_cache_inv c Hc) as Hinv.
  destruct (cache_inv_shard c key Hinv) as [_ Hs].
  destruct (shard_inv_after_Set _ _ key value Hs eq_refl Hfit')
    as (_ & Hk & _ & _).
  rewrite <-shard_after_fitting_Set in Hk by done.
  assert (default [] value = []) as Hnil.
  { unfold bytecache.len in Hempty. destruct (default [] value); [done|].
    simpl in Hempty. lia. }
  destruct (HasGet_hit _ dst key _ Hk) as (_ & Hval & Hnone).
  cbn [bytecache.value] in Hval, Hnone.
  rewrite (proj2 (len_append_nil value)), Hnil in Hval, Hnone.
  split.
  - unfold bytecache.Has. rewrite Hk. by apply bool_decide_eq_true_2.
  - rewrite Get_of_HasGet. simpl.
    destruct ((bytecache.HasGet (bytecache.Set_ c key value) dst key).1.1)
      as [bs|] eqn:Hr; simpl in Hval.
    + subst bs. destruct dst; [done|].
      discriminate (proj2 Hnone (conj eq_refl eq_refl)).
    + destruct dst as [d|]; [|done].
      destruct (proj1 Hnone eq_refl) as [? _]. done.
Qed.

(** X17.  The three lookups agree: in every state [Get] returns the
    value that [HasGet] returns and leaves the cache in the same state
    (both count the call, and the miss), and the flag of [HasGet] is the
    answer of [Has]. *)
Theorem bytecache_lookups_agree c dst key :
  bytecache.Get c dst key
  = ((bytecache.HasGet c dst key).1.1, (bytecache.HasGet c dst key).2)
  ∧ (bytecache.HasGet c dst key).1.2 = bytecache.Has c key
  ∧ bytecache.getCalls (bytecache.HasGet c dst key).2
    = (bytecache.getCalls c + 1) `mod` 2 ^ 64
  ∧ bytecache.misses (bytecache.HasGet c dst key).2
    = (if bytecache.Has c key then bytecache.misses c
       else (bytecache.misses c + 1) `mod` 2 ^ 64).
Proof.
  split; [apply Get_of_HasGet|].
  unfold bytecache.HasGet, bytecache.Has. cbv zeta.
  change (bytecache.shard (bytecache.mkCache (bytecache.shards c) _ _ _ _) key)
    with (bytecache.shard c key).
  destruct (bytecache.items (bytecache.shard c key) !! bytecache.string_of key)
    as [e|] eqn:Hk.
  - rewrite bool_decide_eq_true_2 by eauto. by destruct dst.
  - rewrite bool_decide_eq_false_2 by (by intros [? ?]). by destruct dst.
Qed.

End bytecache_more.

Section bytecache_updates.
Implicit Types (c : bytecache.Cache) (key dst value : bytecache.slice).



Lemma UpdateStats_fold_empty (l : list bytecache.byteShard) :
  fold_left
    (fun '(entries, size) sh =>
       (goint.wrapU64
          (entries
           + goint.wrapU64 (Z.of_nat (base.size (bytecache.items sh)))),
        goint.wrapU64 (size + goint.wrapU64 (bytecache.currentSize sh))))
    ((fun s => {| bytecache.items := ∅; bytecache.order := [];
                  bytecache.currentSize := 0;
                  bytecache.maxSize := bytecache.maxSize s |}) <$> l)
    (0, 0)
  = (0, 0).
Proof. induction l as [|s l IH]; simpl; [done|]. by rewrite map_size_empty. Qed.

(** X19.  [Reset] empties the cache and keeps the rest: in a reachable
    cache, afterwards [Has] finds no key, [UpdateStats] reports 0 entries
    and 0 bytes, the counters of get calls, set calls and misses are not
    reset, and every shard keeps its budget. *)
Theorem bytecache_Reset_empties c key s0 :
  bytecache.reachable c →
  bytecache.Has (bytecache.Reset c) key = false
  ∧ bytecache.UpdateStats (bytecache.Reset c) (Some s0)
    = Some {| bytecache.EntriesCount := 0; bytecache.BytesSize := 0;
              bytecache.Collisions := 0;
              bytecache.GetCalls := bytecache.getCalls c;
              bytecache.SetCalls := bytecache.setCalls c;
              bytecache.Misses := bytecache.misses c |}
  ∧ bytecache.maxSize <$> bytecache.shards (bytecache.Reset c)
    = bytecache.maxSize <$> bytecache.shards c.
Proof.
  intros Hc. pose proof (reachable_cache_inv c Hc) as [Hlen _]. split_and!.
  - unfold bytecache.Has, bytecache.shard, bytecache.Reset.
    cbn [bytecache.shards].
    rewrite (@list_lookup_total_fmap _ _ _ bytecache.byteShard_inhabited
               bytecache.byteShard_inhabited).
    + cbn [bytecache.items]. rewrite lookup_empty.
      apply bool_decide_eq_false_2. by intros [? ?].
    + rewrite Hlen. pose proof (shardIndex_range key). lia.
  - unfold bytecache.UpdateStats, bytecache.Reset.
    cbn [bytecache.shards bytecache.getCalls bytecache.setCalls
         bytecache.misses].
    by rewrite UpdateStats_fold_empty.
  - simpl. rewrite <-list_fmap_compose. by apply list_fmap_ext.
Qed.

(** The eviction loop of [Set_] ends with room for the entry, as long as
    the arithmetic stays within [int64]. *)
Lemma bytecache_evictLoop_room i n e s :
  shard_inv i s →
  bytecache.usage s + bytecache.maxSize s < 2 ^ 63 →
  0 ≤ e ≤ bytecache.maxSize s →
  (length (bytecache.order s) ≤ n)%nat →
  bytecache.currentSize (bytecache.evictLoop n e s)
  = bytecache.usage (bytecache.evictLoop n e s)
  ∧ 0 ≤ bytecache.usage (bytecache.evictLoop n e s)
  ∧ bytecache.usage (bytecache.evictLoop n e s) + e ≤ bytecache.maxSize s.
Proof.
  assert (∀ s, shard_inv i s → 0 ≤ bytecache.usage s) as Hpos.
  { intros s0 [_ _ _ He _]. rewrite shard_usage_total. apply total_nonneg.
    intros k e0 [-> _]%He. pose proof (len_nonneg (bytecache.value e0)). lia. }
  assert (∀ s, shard_inv i s → bytecache.order s = [] → bytecache.usage s = 0)
    as Hnil.
  { intros s0 [_ _ Hdom _ _] Hord. rewrite shard_usage_total.
    assert (bytecache.items s0 = ∅) as ->; [|apply total_empty].
    apply map_empty. intros k. apply eq_None_not_Some.
    rewrite <-Hdom, Hord. by intros ?%elem_of_nil. }
  assert (∀ s, shard_inv i s →
               bytecache.usage s + bytecache.maxSize s < 2 ^ 63 →
               bytecache.currentSize s = bytecache.usage s) as Hcur.
  { intros s0 Hinv0 Hover. pose proof (Hpos s0 Hinv0).
    destruct Hinv0 as [Hm _ _ _ Hu]. rewrite Hu. apply wrap64_in_int.
    unfold goint.in_int. lia. }
  revert s. induction n as [|n IH]; intros s Hinv Hover He Hlen; simpl.
  - assert (bytecache.order s = []) as Hord
      by (apply length_zero_iff_nil; lia).
    rewrite (Hcur s), (Hnil s) by done. lia.
  - pose proof (Hpos s Hinv) as Hs0. pose proof (Hcur s Hinv Hover) as Hs1.
    rewrite Z.gtb_ltb.
    assert (goint.add (bytecache.currentSize s) e = bytecache.usage s + e)
      as ->.
    { rewrite Hs1. apply wrap64_in_int. unfold goint.in_int. lia. }
    destruct (Z.ltb_spec (bytecache.maxSize s) (bytecache.usage s + e));
      [|split_and!; lia].
    destruct (bytecache.tail s) as [old|] eqn:Htail.
    + pose proof (last_Some_elem_of _ _ Htail) as Hin.
      pose proof Hinv as [_ _ Hdom Hent _].
      apply Hdom in Hin as Hsome. destruct Hsome as [e0 He0].
      unfold bytecache.entryOf. rewrite He0. simpl.
      pose proof (shard_inv_remove i s old e0 Hinv He0) as Hinv1.
      set (s1 := bytecache.mkShard _ _ _ _) in *.
      assert (bytecache.usage s1 = bytecache.usage s - bytecache.size e0)
        as Hu1.
      { subst s1. rewrite !shard_usage_total. simpl.
        rewrite (total_delete bytecache.size _ _ _ He0). lia. }
      assert (0 ≤ bytecache.size e0) as He0pos.
      { destruct (Hent _ _ He0) as [-> _].
        pose proof (len_nonneg (bytecache.value e0)). lia. }
      destruct (IH s1) as (H1 & H2 & H3); try done.
      * subst s1. simpl. rewrite Hu1. simpl. lia.
      * subst s1. simpl. apply Remove_length in Hin. lia.
    + apply last_None in Htail. rewrite (Hnil s) by done.
      rewrite (Hnil s) in Hs1 by done. lia.
Qed.

(** X20.  An insertion brings the shard within its budget: in a
    reachable cache, a [Set_] of a key that is not in its shard, with an
    entry that fits, leaves the usage of the shard equal to the sum of
    the sizes of its entries and at most the budget, whatever the usage
    was before (as long as usage plus budget is an [int64]). *)
Theorem bytecache_insert_restores_budget c key value :
  bytecache.reachable c →
  bytecache.items (bytecache.shard c key) !! bytecache.string_of key = None →
  bytecache.len key + bytecache.len value
  ≤ bytecache.maxSize (bytecache.shard c key) →
  bytecache.usage (bytecache.shard c key)
  + bytecache.maxSize (bytecache.shard c key) < 2 ^ 63 →
  let s' := bytecache.shard (bytecache.Set_ c key value) key in
  bytecache.currentSize s' = bytecache.usage s'
  ∧ bytecache.usage s' ≤ bytecache.maxSize s'
  ∧ bytecache.maxSize s' = bytecache.maxSize (bytecache.shard c key).
Proof.
  intros Hc Hk Hfit%fits_bytes Hover s'. subst s'.
  pose proof (reachable_cache_inv c Hc) as Hinv.
  destruct (cache_inv_shard c key Hinv) as [_ Hs].
  rewrite shard_after_fitting_Set by done.
  set (s := bytecache.shard c key) in *.
  set (e := Z.of_nat (String.length (bytecache.string_of key))
            + bytecache.len (bytecache.append None value)) in *.
  assert (0 ≤ e) as He.
  { subst e. pose proof (len_nonneg (bytecache.append None value)). lia. }
  destruct (shard_inv_evictLoop _ (length (bytecache.order s)) e s Hs)
    as (Hinv1 & Hmax1 & Hsub).
  destruct (bytecache_evictLoop_room _ (length (bytecache.order s)) e s Hs)
    as (Hcur & Hpos & Hroom); [done|lia|done|].
  unfold shard_after_Set. rewrite Hk. cbv zeta. fold e.
  set (s1 := bytecache.evictLoop _ e s) in *.
  assert (bytecache.items s1 !! bytecache.string_of key = None) as Hk1.
  { destruct (bytecache.items s1 !! bytecache.string_of key) as [x|] eqn:Hx;
      [|done]. apply Hsub in Hx. congruence. }
  rewrite !shard_usage_total. simpl.
  rewrite total_insert by done. simpl. rewrite <-shard_usage_total.
  rewrite Hcur.
  assert (goint.add (bytecache.usage s1) e = bytecache.usage s1 + e) as ->.
  { apply wrap64_in_int. unfold goint.in_int.
    assert (0 ≤ bytecache.usage s); [|lia].
    destruct Hs as [_ _ _ Hent _]. rewrite shard_usage_total.
    apply total_nonneg. intros k0 e0 [-> _]%Hent.
    pose proof (len_nonneg (bytecache.value e0)). lia. }
  split_and!; lia.
Qed.

(** X21.  A [Set_] on a resident key updates it in place: in a reachable
    cache, when the new entry fits, every entry of the shard stays, only
    the entry of the key changes, the key moves to the head, and the sum
    of the sizes in the shard changes by the difference between the new
    size and the old one; nothing is evicted, also when the sum then
    exceeds the budget. *)
Theorem bytecache_Set_updates_in_place c key value old :
  bytecache.reachable c →
  bytecache.items (bytecache.shard c key) !! bytecache.string_of key
  = Some old →
  bytecache.len key + bytecache.len value
  ≤ bytecache.maxSize (bytecache.shard c key) →
  let s := bytecache.shard c key in
  let s' := bytecache.shard (bytecache.Set_ c key value) key in
  bytecache.items s'
  = <[bytecache.string_of key :=
        {| bytecache.value := bytecache.append None value;
           bytecache.size := bytecache.len key + bytecache.len value |}]>
      (bytecache.items s)
  ∧ bytecache.order s'
    = bytecache.string_of key
      :: golist.Remove (bytecache.string_of key) (bytecache.order s)
  ∧ bytecache.usage s'
    = bytecache.usage s - bytecache.size old
      + (bytecache.len key + bytecache.len value).
Proof.
  intros Hc Hk Hfit s s'. subst s s'.
  pose proof (reachable_cache_inv c Hc) as Hinv.
  destruct (cache_inv_shard c key Hinv) as [_ Hs].
  rewrite shard_after_fitting_Set; [|done|by apply fits_bytes].
  unfold shard_after_Set. rewrite Hk. cbv zeta.
  rewrite string_of_length, (proj1 (len_append_nil value)).
  set (s := bytecache.shard c key) in *.
  set (k := bytecache.string_of key) in *.
  destruct Hs as [Hm Hnd Hdom Hent Hu].
  assert (k ∈ bytecache.order s) as Hin by (apply Hdom; eauto).
  assert (∀ s2, bytecache.order s2 = bytecache.order s →
            bytecache.order (bytecache.moveToFront s2 k)
            = k :: golist.Remove k (bytecache.order s)
            ∧ bytecache.items (bytecache.moveToFront s2 k)
              = bytecache.items s2) as Hmove.
  { intros s2 Hord. unfold bytecache.moveToFront, bytecache.head.
    destruct (decide (list.head (bytecache.order s2) = Some k)) as [Hh|];
      [|by simpl; rewrite Hord].
    split; [|done]. rewrite Hord in *.
    destruct (bytecache.order s) as [|k0 l]; [done|]. simpl in Hh.
    injection Hh as ->. simpl. by rewrite decide_True. }
  set (s2 := bytecache.mkShard _ _ _ _).
  destruct (Hmove s2 eq_refl) as [Hord Hitems].
  split_and!.
  - by rewrite Hitems.
  - by rewrite Hord.
  - rewrite !shard_usage_total, Hitems. simpl.
    rewrite (total_delete bytecache.size _ _ _ Hk).
    rewrite <-insert_delete_eq.
    rewrite total_insert by apply lookup_delete_eq. simpl. lia.
Qed.

End bytecache_updates.

(** ** lru/cache.go *)

Section lrucontainer_more.
Context {K V W : Type} `{Countable K}.
Variable zero : V.
Implicit Types (c : lrucontainer.Cache K V W) (k key : K) (v : V) (w : W).

Lemma locked_returns {A : Type} (body : lrucontainer.method K V W A) c w :
  lrucontainer.mu c = false →
  (∀ c0, lrucontainer.mu c0 = true →
         ∃ a cc w', body (c0, w)
                    = lrucontainer.Returns
                        (a, (lrucontainer.withContainer c0 cc, w'))) →
  returns_unlocked (lrucontainer.locked body) c w.
Proof.
  intros Hmu Hbody. unfold returns_unlocked, lrucontainer.locked,
    lrucontainer.bind, lrucontainer.Lock. rewrite Hmu.
  edestruct Hbody as (a & cc & w' & ->); [|by eexists _, _, _].
  done.
Qed.

Lemma locked_blocks {A : Type} (body : lrucontainer.method K V W A) c w :
  lrucontainer.mu c = true →
  lrucontainer.locked body (c, w) = lrucontainer.Blocked.
Proof.
  intros Hmu. unfold lrucontainer.locked, lrucontainer.bind, lrucontainer.Lock.
  by rewrite Hmu.
Qed.

(** X22.  Lock discipline of lru/cache.go: called with the mutex free,
    [Get], [Put], [Delete], [Len], [Clear], [Contains], [Size], [Evict]
    and [Flush] return with the mutex released again and with the
    capacity and the callback field untouched; called while the mutex is
    held they block. *)
Theorem cache_methods_release_mutex c w key v :
  if lrucontainer.mu c then
    lrucontainer.Get zero key (c, w) = lrucontainer.Blocked
    ∧ lrucontainer.Put key v (c, w) = lrucontainer.Blocked
    ∧ lrucontainer.Delete key (c, w) = lrucontainer.Blocked
    ∧ lrucontainer.Len (c, w) = lrucontainer.Blocked
    ∧ lrucontainer.Clear (c, w) = lrucontainer.Blocked
    ∧ lrucontainer.Contains zero key (c, w) = lrucontainer.Blocked
    ∧ lrucontainer.Size (c, w) = lrucontainer.Blocked
    ∧ lrucontainer.Evict key (c, w) = lrucontainer.Blocked
    ∧ lrucontainer.Flush (c, w) = lrucontainer.Blocked
  else
    returns_unlocked (lrucontainer.Get zero key) c w
    ∧ returns_unlocked (lrucontainer.Put key v) c w
    ∧ returns_unlocked (lrucontainer.Delete key) c w
    ∧ returns_unlocked lrucontainer.Len c w
    ∧ returns_unlocked lrucontainer.Clear c w
    ∧ returns_unlocked (lrucontainer.Contains zero key) c w
    ∧ returns_unlocked lrucontainer.Size c w
    ∧ returns_unlocked (lrucontainer.Evict key) c w
    ∧ returns_unlocked lrucontainer.Flush c w.
Proof.
  destruct (lrucontainer.mu c) eqn:Hmu.
  - split_and!; by apply locked_blocks.
  - split_and!; apply locked_returns; try done; intros c0 _.
    + destruct (container.Get zero (lrucontainer.containerCache c0) key)
        as [r cc] eqn:Hg. by eexists _, _, _.
    + destruct (container.Put (lrucontainer.containerCache c0) key v w)
        as [cc w'] eqn:Hp. by eexists _, _, _.
    + by eexists _, _, _.
    + exists (container.Len (lrucontainer.containerCache c0)),
        (lrucontainer.containerCache c0), w. by destruct c0.
    + by eexists _, _, _.
    + destruct (container.Get zero (lrucontainer.containerCache c0) key)
        as [[r ok] cc] eqn:Hg. by eexists _, _, _.
    + exists (container.Len (lrucontainer.containerCache c0)),
        (lrucontainer.containerCache c0), w. by destruct c0.
    + by eexists _, _, _.
    + by eexists _, _, _.
Qed.

(** Three insertions into the empty store of capacity 2 built with the
    callback [cb] (nil or not). *)
Lemma container_three_puts (x y z : K) (vx vy vz : V)
    (cb : option (K → V → W → W)) w :
  x ≠ y → x ≠ z → y ≠ z →
  let s0 := container.NewLRUCacheWithOnEvict 2 cb in
  let '(s1, w1) := container.Put s0 x vx w in
  let '(s2, w2) := container.Put s1 y vy w1 in
  ∃ s3 : container.Cache K V W,
    container.Put s2 z vz w2
    = (s3, match cb with Some f => f x vx w | None => w end)
    ∧ container.lookup s3 !! x = None
    ∧ container.Len s3 = 2.
Proof.
  intros Hxy Hxz Hyz s0.
  set (e1 := container.mkEntry vx 1).
  set (e2 := container.mkEntry vy 1).
  set (cc1 := container.mkCache 2 1 (<[x := e1]> ∅) [x] cb).
  set (cc2 := container.mkCache 2 2 (<[y := e2]> (<[x := e1]> ∅)) [y; x] cb).
  assert (container.Put s0 x vx w = (cc1, w)) as ->.
  { subst s0. by rewrite container_Put_room. }
  assert (container.Put cc1 y vy w = (cc2, w)) as ->.
  { rewrite container_Put_room;
      [done|done|by subst cc1; cbn; rewrite lookup_insert_ne, lookup_empty
      |done]. }
  eexists. split_and!.
  - rewrite (container_Put_full _ z vz w x e1); subst cc2; cbn;
      [|done|by rewrite !lookup_insert_ne, lookup_empty|done|done
       |by rewrite lookup_insert_ne, lookup_insert_eq|done].
    rewrite decide_False, decide_True by done.
    unfold container.invoke. cbn. done.
  - cbn. rewrite lookup_insert_ne by done. apply lookup_delete_eq.
  - done.
Qed.

(** X23.  [Flush] drops the eviction callback: [Clear] replaces the
    store by one built without a callback, and lru/cache.go itself never
    calls its [onEvict] field.  On the cache of capacity 2 built with a
    callback, after [Flush()] the insertions [Put(x)], [Put(y)],
    [Put(z)] still evict [x] but leave the world of the callback as it
    is, although the [onEvict] field still holds the callback.  (The
    store is the one modelled from the specification.) *)
Theorem Flush_drops_callback (x y z : K) (vx vy vz : V)
    (f : K → V → W → W) (w : W) :
  x ≠ y → x ≠ z → y ≠ z →
  ∃ c' : lrucontainer.Cache K V W,
    lrucontainer.bind lrucontainer.Flush (fun _ =>
      lrucontainer.bind (lrucontainer.Put x vx) (fun _ =>
        lrucontainer.bind (lrucontainer.Put y vy) (fun _ =>
          lrucontainer.Put z vz)))
      (lrucontainer.NewCacheWithOnEvict 2 (Some f), w)
    = lrucontainer.Returns (tt, (c', w))
    ∧ lrucontainer.onEvict c' = Some f
    ∧ container.lookup (lrucontainer.containerCache c') !! x = None
    ∧ container.Len (lrucontainer.containerCache c') = 2.
Proof.
  intros Hxy Hxz Hyz.
  pose proof (container_three_puts x y z vx vy vz None w Hxy Hxz Hyz) as H3.
  cbv zeta in H3.
  destruct (container.Put (container.NewLRUCacheWithOnEvict 2 None) x vx w)
    as [s1 w1] eqn:H1.
  destruct (container.Put s1 y vy w1) as [s2 w2] eqn:H2.
  destruct H3 as (s3 & Hput3 & Hx & Hlen).
  unfold lrucontainer.bind.
  rewrite lrucontainer_Flush_run by done.
  rewrite lrucontainer_Put_run by done.
  cbn [lrucontainer.NewCacheWithOnEvict lrucontainer.containerCache
       lrucontainer.capacity lrucontainer.onEvict Z.leb Z.compare].
  unfold container.NewLRUCache. rewrite H1. cbn [fst snd].
  rewrite lrucontainer_Put_run by done.
  cbn [lrucontainer.containerCache lrucontainer.capacity lrucontainer.onEvict].
  rewrite H2. cbn [fst snd].
  rewrite lrucontainer_Put_run by done.
  cbn [lrucontainer.containerCache lrucontainer.capacity lrucontainer.onEvict].
  rewrite Hput3. cbn [fst snd].
  eexists. split_and!; [done|done|exact Hx|exact Hlen].
Qed.

End lrucontainer_more.

(** ** package cache: DualMapCache *)

Section dualmap_facts.
Context {K V : Type} `{Countable K}.
Variable zero : V.
Implicit Types (c : dualmap.DualMapCache K V) (k key : K) (v : V).

(** X25.  Removal and the fill of [DualMapCache]: after [Evict] [Get]
    of the key misses and every other key is as before; after [Flush]
    [Len()] is 0; and [PortionFilled()] is not a ratio: it is 1 after
    any [Put] and 0 exactly when the cache is empty. *)
Theorem dualmap_Evict_Flush_PortionFilled c key v k :
  k ≠ key →
  dualmap.Get zero (dualmap.Evict c key) key = (zero, false)
  ∧ dualmap.Get zero (dualmap.Evict c key) k = dualmap.Get zero c k
  ∧ dualmap.Len (dualmap.Flush c) = 0
  ∧ dualmap.PortionFilled (dualmap.Flush c) = Finite 0%Qc
  ∧ dualmap.PortionFilled (dualmap.Put c key v) = Finite 1%Qc
  ∧ (dualmap.PortionFilled c = Finite 0%Qc ↔ dualmap.Len c = 0)
  ∧ (dualmap.PortionFilled c = Finite 1%Qc ↔ dualmap.Len c ≠ 0).
Proof.
  intros Hne.
  unfold dualmap.Get, dualmap.Evict, dualmap.Flush, dualmap.Put,
    dualmap.Len, dualmap.PortionFilled. simpl.
  rewrite lookup_delete_eq, lookup_delete_ne by done.
  split_and!; try done.
  - destruct (Z.eqb_spec (Z.of_nat (base.size (<[key:=v]> (dualmap.items c)))) 0)
      as [Hz|]; [|done].
    assert (base.size (<[key:=v]> (dualmap.items c)) = 0%nat) as Hz' by lia.
    apply map_size_empty_inv in Hz'.
    apply (f_equal (fun m => m !! key)) in Hz'.
    by rewrite lookup_insert_eq, lookup_empty in Hz'.
  - destruct (Z.eqb_spec (Z.of_nat (base.size (dualmap.items c))) 0);
      split; done.
  - destruct (Z.eqb_spec (Z.of_nat (base.size (dualmap.items c))) 0);
      split; done.
Qed.

End dualmap_facts.

(** ** The stores of package lru at an arbitrary key type *)

Section any_key_structure.
Context {K V : Type} `{GoEqLaws K}.
Variable zero : V.

Lemma sizes_ones (h : list (sized_any.sizedEntry K V)) (l : list ptr) :
  (∀ p, p ∈ l → ∃ e, h !! p = Some e ∧ sized_any.size e = 1) →
  sized_any.sizes h l = Z.of_nat (length l).
Proof.
  induction l as [|q l IH]; simpl; [done|]. intros Hall.
  destruct (Hall q) as (e & -> & He); [left|]. simpl.
  rewrite IH; [lia|]. intros p Hp. apply Hall. by right.
Qed.

(** X1.  Structure of the count bounded cache at any comparable key
    type: in every reachable state the size is at least 1, [Len()] is at
    most the size, the recency list holds no element twice, every
    element of the list is in the map under the key of its entry, and
    what a lookup finds is an element of the list whose key is [==] to
    the key looked up.  When [==] is reflexive on the key type, the map
    holds the elements of the list and nothing else, and [Len()] is the
    number of entries of the map. *)
Theorem lru_structure (c : lru_any.Cache K V) :
  lru_any.reachable zero c →
  1 ≤ lru_any.size c
  ∧ lru_any.Len c ≤ lru_any.size c
  ∧ NoDup (lru_any.order c)
  ∧ (∀ elem, elem ∈ lru_any.order c →
       ∃ e, lru_any.heap c !! elem = Some e
            ∧ (lru_any.key e, elem) ∈ lru_any.elements c)
  ∧ (∀ k elem, gomap.get (lru_any.elements c) k = Some elem →
       elem ∈ lru_any.order c
       ∧ ∃ e, lru_any.heap c !! elem = Some e
              ∧ goeq (lru_any.key e) k = true)
  ∧ ((∀ k : K, goeq k k = true) →
     (lru_any.elements c).*2 ≡ₚ lru_any.order c
     ∧ gomap.len (lru_any.elements c) = lru_any.Len c).
Proof.
  intros [Hs Hb Hl]%lru_any_reachable_inv. split_and!; try done.
  - by destruct Hl.
  - by destruct Hl.
  - intros k elem Hk.
    destruct (linked_get _ _ _ _ _ _ Hl Hk) as (Hin & e & He & _ & Hke).
    eauto.
  - intros Hrefl. pose proof (linked_reflexive _ _ _ _ Hrefl Hl) as Hperm.
    split; [done|]. unfold gomap.len, lru_any.Len, golist.Len.
    by rewrite <-Hperm, length_fmap.
Qed.

(** X7.  Structure of [SizedCache] at any comparable key type, whatever
    the sizing function: in every reachable state the budget is at least
    1, the recency list holds no element twice, every element of the
    list is in the map under the key of its entry, which records the
    size that the sizing function gives its key and value, and what a
    lookup finds is an element of the list whose key is [==] to the key
    looked up.  When [==] is reflexive on the key type, the map holds the
    elements of the list and nothing else, and [Len()] is the length of
    the list. *)
Theorem sized_structure (c : sized_any.SizedCache K V) :
  sized_any.reachable zero c →
  1 ≤ sized_any.maxSize c
  ∧ NoDup (sized_any.lru c)
  ∧ (∀ elem, elem ∈ sized_any.lru c →
       ∃ e, sized_any.heap c !! elem = Some e
            ∧ (sized_any.key e, elem) ∈ sized_any.items c
            ∧ sized_any.size e
              = sized_any.sizeFn c (sized_any.key e) (sized_any.value e))
  ∧ (∀ k elem, gomap.get (sized_any.items c) k = Some elem →
       elem ∈ sized_any.lru c
       ∧ ∃ e, sized_any.heap c !! elem = Some e
              ∧ goeq (sized_any.key e) k = true)
  ∧ ((∀ k : K, goeq k k = true) →
     (sized_any.items c).*2 ≡ₚ sized_any.lru c
     ∧ sized_any.Len c = golist.Len (sized_any.lru c)).
Proof.
  intros [Hm Hl Hsz]%sized_any_reachable_wf. split_and!; try done.
  - by destruct Hl.
  - intros elem Hin.
    destruct (linked_live _ _ _ _ Hl elem Hin) as (e & He & Hmap).
    exists e. split_and!; try done. by apply (Hsz elem).
  - intros k elem Hk.
    destruct (linked_get _ _ _ _ _ _ Hl Hk) as (Hin & e & He & _ & Hke).
    eauto.
  - intros Hrefl. pose proof (linked_reflexive _ _ _ _ Hrefl Hl) as Hperm.
    split; [done|]. unfold sized_any.Len, gomap.len, golist.Len.
    by rewrite <-Hperm, length_fmap.
Qed.

(** X9.  With the default sizing function (every entry weighs 1, what a
    nil [sizeFn] gives) [SizedCache] counts the elements of its list: at
    any comparable key type, in every reachable state the usage is the
    length of the list, which is at most the budget.  When [==] is
    reflexive on the key type, this is [Len()]: the usage is [Len()],
    and [Len()] is at most the budget. *)
Theorem sized_unit_weight_counts_entries (c : sized_any.SizedCache K V) :
  sized_any.reachable zero c →
  (∀ k v, sized_any.sizeFn c k v = 1) →
  sized_any.maxSize c < 2 ^ 63 →
  sized_any.currentSize c = golist.Len (sized_any.lru c)
  ∧ golist.Len (sized_any.lru c) ≤ sized_any.maxSize c
  ∧ ((∀ k : K, goeq k k = true) →
     sized_any.currentSize c = sized_any.Len c
     ∧ sized_any.Len c ≤ sized_any.maxSize c).
Proof.
  intros Hc Hfn Hint.
  assert (sized_any_ok c) as Hok.
  { split; [|done]. intros k v. rewrite Hfn. lia. }
  destruct (sized_any_reachable_inv zero c Hc Hok) as [[Hm Hl Hsz] Hu Hb].
  assert (sized_any.currentSize c = golist.Len (sized_any.lru c)) as Hlen.
  { rewrite Hu. apply sizes_ones. intros p Hp.
    destruct (linked_live _ _ _ _ Hl p Hp) as (e & He & _).
    exists e. split; [done|]. by rewrite (Hsz p e He), Hfn. }
  split; [done|]. split; [by rewrite <-Hlen|].
  intros Hrefl. pose proof (linked_reflexive _ _ _ _ Hrefl Hl) as Hperm.
  assert (sized_any.Len c = golist.Len (sized_any.lru c)) as ->.
  { unfold sized_any.Len, gomap.len, golist.Len.
    by rewrite <-Hperm, length_fmap. }
  split; [done|]. by rewrite <-Hlen.
Qed.

(** X26.  Capacity bound of [SizedCache] at any comparable key type:
    when the sizing function returns no negative size and the budget is
    an [int], in every reachable state the recorded usage is the sum of
    the sizes of the entries in the list, is not negative and is at most
    the budget. *)
Theorem sized_capacity_bound_any_key (c : sized_any.SizedCache K V) :
  sized_any.reachable zero c →
  (∀ k v, 0 ≤ sized_any.sizeFn c k v) →
  sized_any.maxSize c < 2 ^ 63 →
  sized_any.currentSize c = sized_any.usage c
  ∧ 0 ≤ sized_any.currentSize c
  ∧ sized_any.currentSize c ≤ sized_any.maxSize c.
Proof.
  intros Hc Hfn Hint.
  destruct (sized_any_reachable_inv zero c Hc (conj Hfn Hint))
    as [Hwf Hu Hb].
  split_and!; [done| |done].
  rewrite Hu. apply sizes_nonneg.
  by apply sized_any_sizes_nonneg.
Qed.

End any_key_structure.

(** X27.  Keys that are not [==] to themselves pile up in the map.
    After [Put(NaN, a)] and [Put(NaN, b)] on the count bounded cache of
    size 1, the list holds the second entry alone and [Len()] is 1,
    while the map still holds both; no lookup finds either.  On the
    [SizedCache] of budget 1 with the default sizing function the usage
    is 1, within the budget, while [Len()], the size of the map, is
    2. *)
Theorem NaN_keys_stay_in_the_map :
  let c := lru_any.Put
             (lru_any.Put (lru_any.NewCache (K:=float64) (V:=string) 1)
                NaN "a") NaN "b" in
  let sc := sized_any.Put
              (sized_any.Put
                 (sized_any.NewSizedCache (K:=float64) (V:=string) 1 None)
                 NaN "a") NaN "b" in
  (lru_any.size c = 1
   ∧ lru_any.order c = [1%nat]
   ∧ lru_any.Len c = 1
   ∧ lru_any.elements c = [(NaN, 0%nat); (NaN, 1%nat)]
   ∧ gomap.len (lru_any.elements c) = 2
   ∧ (lru_any.Get "" c NaN).1 = ("", false)
   ∧ lru_any.Evict c NaN = c)
  ∧ (sized_any.maxSize sc = 1
     ∧ sized_any.lru sc = [1%nat]
     ∧ sized_any.currentSize sc = 1
     ∧ sized_any.items sc = [(NaN, 0%nat); (NaN, 1%nat)]
     ∧ sized_any.Len sc = 2
     ∧ (sized_any.Get "" sc NaN).1 = ("", false)
     ∧ sized_any.Evict sc NaN = sc).
Proof. intros c sc. split; split_and!; by vm_compute. Qed.

(** ** The further properties at concrete inputs *)

Lemma lru_structure_witness :
  let c := lru_any.Put
             (lru_any.Put
                (lru_any.Put (lru_any.NewCache (K:=string) (V:=string) 2)
                   "a" "apple") "b" "banana") "c" "cherry" in
  lru_any.reachable "" c
  ∧ (∀ k : string, goeq k k = true)
  ∧ lru_any.size c = 2
  ∧ lru_any.order c = [2%nat; 1%nat]
  ∧ lru_any.elements c = [("b", 1%nat); ("c", 2%nat)]
  ∧ lru_any.Len c ≤ lru_any.size c
  ∧ (lru_any.elements c).*2 ≡ₚ lru_any.order c
  ∧ gomap.len (lru_any.elements c) = lru_any.Len c.
Proof.
  intros c.
  assert (lru_any.reachable "" c) as Hc
    by (apply lru_any.reach_Put, lru_any.reach_Put, lru_any.reach_Put,
          lru_any.reach_New).
  assert (∀ k : string, goeq k k = true) as Hrefl
    by exact (identity_GoEq_refl string).
  destruct (lru_structure "" c Hc) as (_ & Hb & _ & _ & _ & Hmap).
  destruct (Hmap Hrefl) as [Hperm Hlen].
  split; [exact Hc|]. split; [exact Hrefl|].
  split; [vm_compute; reflexivity|].
  split; [vm_compute; reflexivity|].
  split; [vm_compute; reflexivity|].
  split; [exact Hb|]. split; [exact Hperm|exact Hlen].
Defined.

Lemma lru_Put_evicts_back_witness :
  let c := lru.Put (lru.Put (lru.NewCache (K:=string) (V:=string) 2)
                      "a" "apple") "b" "banana" in
  lru.reachable "" c
  ∧ lru.elements c !! "c" = None
  ∧ lru.size c ≤ lru.Len c
  ∧ ∃ oldest, golist.Back (lru.order c) = Some oldest
              ∧ (lru.Get "" (lru.Put c "c" "cherry") oldest).1 = ("", false).
Proof.
  intros c.
  assert (lru.reachable "" c) as Hc
    by (apply lru.reach_Put, lru.reach_Put, lru.reach_New).
  assert (lru.elements c !! "c" = None) as Hk by (vm_compute; reflexivity).
  assert (lru.size c ≤ lru.Len c) as Hfull by (vm_compute; discriminate).
  destruct (lru_Put_evicts_back "" c "c" "cherry" Hc Hk Hfull)
    as (oldest & Hback & _ & Hmiss & _).
  split; [exact Hc|]. split; [exact Hk|]. split; [exact Hfull|].
  exists oldest. split; [exact Hback|exact Hmiss].
Defined.

Lemma lru_Put_room_keeps_all_witness :
  let c := lru.Put (lru.NewCache (K:=string) (V:=string) 2) "a" "apple" in
  lru.elements c !! "b" = None
  ∧ lru.Len c < lru.size c
  ∧ lru.Len (lru.Put c "b" "banana") = lru.Len c + 1.
Proof.
  intros c.
  assert (lru.elements c !! "b" = None) as Hk by (vm_compute; reflexivity).
  assert (lru.Len c < lru.size c) as Hroom by (vm_compute; reflexivity).
  split; [exact Hk|]. split; [exact Hroom|].
  exact (proj2 (proj2 (lru_Put_room_keeps_all c "b" "banana" Hk Hroom))).
Defined.

Lemma lru_touch_moves_to_front_witness :
  let c := lru.Put (lru.Put (lru.NewCache (K:=string) (V:=string) 2)
                      "a" "apple") "b" "banana" in
  lru.reachable "" c
  ∧ lru.elements c !! "a" = Some "apple"
  ∧ (lru.Get "" c "a").1 = ("apple", true)
  ∧ lru.order (lru.Get "" c "a").2 = "a" :: golist.Remove "a" (lru.order c).
Proof.
  intros c.
  assert (lru.reachable "" c) as Hc
    by (apply lru.reach_Put, lru.reach_Put, lru.reach_New).
  assert (lru.elements c !! "a" = Some "apple") as Hk
    by (vm_compute; reflexivity).
  destruct (lru_touch_moves_to_front "" c "a" "apple" "avocado" Hc Hk)
    as (Hget & _ & Hord & _).
  split; [exact Hc|]. split; [exact Hk|]. split; [exact Hget|exact Hord].
Defined.


Lemma lru_PortionFilled_ends_witness :
  let c0 := lru.Evict (lru.Put (lru.NewCache (K:=string) (V:=string) 3)
                         "a" "apple") "a" in
  let c1 := lru.Put c0 "a" "apple" in
  let c := lru.Put (lru.Put c1 "b" "banana") "c" "cherry" in
  lru.reachable "" c0
  ∧ lru.Len c0 = 0
  ∧ lru.PortionFilled c0 = Finite 0%Qc
  ∧ lru.PortionFilled c1
    = Finite (Q2Qc (6004799503160661 # 18014398509481984))
  ∧ lru.reachable "" c
  ∧ lru.Len c = lru.size c
  ∧ lru.size c < 2 ^ 63
  ∧ lru.PortionFilled c = Finite 1%Qc.
Proof.
  intros c0 c1 c.
  assert (lru.reachable "" c0) as Hc0
    by (apply lru.reach_Evict, lru.reach_Put, lru.reach_New).
  assert (lru.reachable "" c) as Hc
    by (apply lru.reach_Put, lru.reach_Put, lru.reach_Put, Hc0).
  assert (lru.Len c0 = 0) as Hempty by (vm_compute; reflexivity).
  assert (lru.Len c = lru.size c) as Hfull by (vm_compute; reflexivity).
  assert (lru.size c < 2 ^ 63) as Hint by (vm_compute; reflexivity).
  split; [exact Hc0|]. split; [exact Hempty|].
  split; [exact (proj1 (lru_PortionFilled_ends "" c0 Hc0) Hempty)|].
  split; [vm_compute; f_equal; apply Qc_is_canon; reflexivity|].
  split; [exact Hc|]. split; [exact Hfull|]. split; [exact Hint|].
  exact (proj2 (lru_PortionFilled_ends "" c Hc) Hfull Hint).
Defined.

Lemma sized_structure_witness :
  let sizeFn := fun (k v : string) => Z.of_nat (String.length v) in
  let c := sized_any.Put
             (sized_any.Put
                (sized_any.Put (sized_any.NewSizedCache 10 (Some sizeFn))
                   "a" "apple") "b" "pear") "a" "avocados" in
  sized_any.reachable "" c
  ∧ (∀ k : string, goeq k k = true)
  ∧ sized_any.lru c = [2%nat]
  ∧ sized_any.items c = [("a", 2%nat)]
  ∧ sized_any.heap c !! 2%nat
    = Some {| sized_any.key := "a"; sized_any.value := "avocados";
              sized_any.size := 8 |}
  ∧ (sized_any.items c).*2 ≡ₚ sized_any.lru c
  ∧ sized_any.Len c = golist.Len (sized_any.lru c).
Proof.
  intros sizeFn c.
  assert (sized_any.reachable "" c) as Hc
    by (apply sized_any.reach_Put, sized_any.reach_Put, sized_any.reach_Put,
          sized_any.reach_New).
  assert (∀ k : string, goeq k k = true) as Hrefl
    by exact (identity_GoEq_refl string).
  destruct (sized_structure "" c Hc) as (_ & _ & _ & _ & Hmap).
  destruct (Hmap Hrefl) as [Hperm Hlen].
  split; [exact Hc|]. split; [exact Hrefl|].
  split; [vm_compute; reflexivity|].
  split; [vm_compute; reflexivity|].
  split; [vm_compute; reflexivity|].
  split; [exact Hperm|exact Hlen].
Defined.

Lemma sized_capacity_bound_witness :
  let sizeFn := fun (k v : string) => Z.of_nat (String.length v) in
  let c1 := sized.Put "" (sized.Put ""
              (sized.NewSizedCache 10 (Some sizeFn)) "a" "apple")
              "b" "pear" in
  let c := sized.Put "" c1 "a" "avocados" in
  sized.lru c1 = ["b"; "a"]
  ∧ sized.currentSize c1 = 9
  ∧ sized.sizeFn c1 "a" "avocados" = 8
  ∧ sized.reachable "" c
  ∧ (∀ k v, 0 ≤ sized.sizeFn c k v)
  ∧ sized.maxSize c < 2 ^ 63
  ∧ sized.lru c = ["a"]
  ∧ (sized.Get "" c "a").1 = ("avocados", true)
  ∧ sized.currentSize c = 8
  ∧ sized.usage c = 8
  ∧ sized.maxSize c = 10
  ∧ sized.currentSize c = sized.usage c
  ∧ 0 ≤ sized.currentSize c
  ∧ sized.currentSize c ≤ sized.maxSize c.
Proof.
  intros sizeFn c1 c.
  assert (sized.reachable "" c) as Hc
    by (apply sized.reach_Put, sized.reach_Put, sized.reach_Put,
          sized.reach_New).
  assert (∀ k v, 0 ≤ sized.sizeFn c k v) as Hfn
    by (intros k v; apply Nat2Z.is_nonneg).
  assert (sized.maxSize c < 2 ^ 63) as Hint by (vm_compute; reflexivity).
  destruct (sized_capacity_bound "" c Hc Hfn Hint) as (Hu & H0 & Hb).
  split; [vm_compute; reflexivity|].
  split; [vm_compute; reflexivity|].
  split; [vm_compute; reflexivity|].
  split; [exact Hc|]. split; [exact Hfn|]. split; [exact Hint|].
  split; [vm_compute; reflexivity|].
  split; [vm_compute; reflexivity|].
  split; [vm_compute; reflexivity|].
  split; [vm_compute; reflexivity|].
  split; [vm_compute; reflexivity|].
  split; [exact Hu|]. split; [exact H0|exact Hb].
Defined.

Lemma sized_unit_weight_counts_entries_witness :
  let c := sized_any.Put
             (sized_any.Put
                (sized_any.Put
                   (sized_any.NewSizedCache (K:=string) (V:=string) 2 None)
                   "a" "apple") "b" "banana") "c" "cherry" in
  sized_any.reachable "" c
  ∧ (∀ k v, sized_any.sizeFn c k v = 1)
  ∧ sized_any.maxSize c < 2 ^ 63
  ∧ (∀ k : string, goeq k k = true)
  ∧ sized_any.lru c = [2%nat; 1%nat]
  ∧ sized_any.maxSize c = 2
  ∧ sized_any.currentSize c = golist.Len (sized_any.lru c)
  ∧ golist.Len (sized_any.lru c) ≤ sized_any.maxSize c
  ∧ sized_any.currentSize c = sized_any.Len c
  ∧ sized_any.Len c ≤ sized_any.maxSize c.
Proof.
  intros c.
  assert (sized_any.reachable "" c) as Hc
    by (apply sized_any.reach_Put, sized_any.reach_Put, sized_any.reach_Put,
          sized_any.reach_New).
  assert (∀ k v, sized_any.sizeFn c k v = 1) as Hfn
    by (intros k v; reflexivity).
  assert (sized_any.maxSize c < 2 ^ 63) as Hint by (vm_compute; reflexivity).
  assert (∀ k : string, goeq k k = true) as Hrefl
    by exact (identity_GoEq_refl string).
  destruct (sized_unit_weight_counts_entries "" c Hc Hfn Hint)
    as (Hu & Hb & Hmap).
  destruct (Hmap Hrefl) as [Hlen Hle].
  split; [exact Hc|]. split; [exact Hfn|]. split; [exact Hint|].
  split; [exact Hrefl|].
  split; [vm_compute; reflexivity|].
  split; [vm_compute; reflexivity|].
  split; [exact Hu|]. split; [exact Hb|]. split; [exact Hlen|exact Hle].
Defined.

Lemma sized_capacity_bound_any_key_witness :
  let sizeFn := fun (k : float64) (v : string) => Z.of_nat (String.length v) in
  let c := sized_any.Put
             (sized_any.Put
                (sized_any.Put (sized_any.NewSizedCache 10 (Some sizeFn))
                   NaN "apple") (Finite 1%Qc) "pear") NaN "avocados" in
  sized_any.reachable "" c
  ∧ (∀ k v, 0 ≤ sized_any.sizeFn c k v)
  ∧ sized_any.maxSize c < 2 ^ 63
  ∧ sized_any.lru c = [2%nat]
  ∧ sized_any.items c = [(NaN, 0%nat); (NaN, 2%nat)]
  ∧ sized_any.maxSize c = 10
  ∧ sized_any.usage c = 8
  ∧ sized_any.currentSize c = sized_any.usage c
  ∧ 0 ≤ sized_any.currentSize c
  ∧ sized_any.currentSize c ≤ sized_any.maxSize c.
Proof.
  intros sizeFn c.
  assert (sized_any.reachable "" c) as Hc
    by (apply sized_any.reach_Put, sized_any.reach_Put, sized_any.reach_Put,
          sized_any.reach_New).
  assert (∀ k v, 0 ≤ sized_any.sizeFn c k v) as Hfn
    by (intros k v; apply Nat2Z.is_nonneg).
  assert (sized_any.maxSize c < 2 ^ 63) as Hint by (vm_compute; reflexivity).
  destruct (sized_capacity_bound_any_key "" c Hc Hfn Hint) as (Hu & H0 & Hb).
  split; [exact Hc|]. split; [exact Hfn|]. split; [exact Hint|].
  split; [vm_compute; reflexivity|].
  split; [vm_compute; reflexivity|].
  split; [vm_compute; reflexivity|].
  split; [vm_compute; reflexivity|].
  split; [exact Hu|]. split; [exact H0|exact Hb].
Defined.



Lemma sized_PortionFilled_ends_witness :
  let sizeFn := fun (k v : string) => Z.of_nat (String.length v) in
  let c0 := sized.Evict
              (sized.Put "" (sized.NewSizedCache 9 (Some sizeFn)) "a" "apple")
              "a" in
  let c := sized.Put "" (sized.Put "" c0 "a" "apple") "b" "pear" in
  sized.reachable "" c0
  ∧ sized.currentSize c0 = 0
  ∧ sized.PortionFilled c0 = Finite 0%Qc
  ∧ sized.reachable "" c
  ∧ sized.currentSize c = sized.maxSize c
  ∧ sized.maxSize c < 2 ^ 63
  ∧ sized.PortionFilled c = Finite 1%Qc.
Proof.
  intros sizeFn c0 c.
  assert (sized.reachable "" c0) as Hc0
    by (apply sized.reach_Evict, sized.reach_Put, sized.reach_New).
  assert (sized.reachable "" c) as Hc
    by (apply sized.reach_Put, sized.reach_Put, Hc0).
  assert (sized.currentSize c0 = 0) as Hempty by (vm_compute; reflexivity).
  assert (sized.currentSize c = sized.maxSize c) as Hfull
    by (vm_compute; reflexivity).
  assert (sized.maxSize c < 2 ^ 63) as Hint by (vm_compute; reflexivity).
  split; [exact Hc0|]. split; [exact Hempty|].
  split; [exact (proj1 (sized_PortionFilled_ends "" c0 Hc0) Hempty)|].
  split; [exact Hc|]. split; [exact Hfull|]. split; [exact Hint|].
  exact (proj2 (sized_PortionFilled_ends "" c Hc) Hfull Hint).
Defined.


Lemma bytecache_key_in_one_shard_witness :
  let key := Some (String.list_byte_of_string "ab") in
  let c := bytecache.Set_ (bytecache.New 2560) key
             (Some (String.list_byte_of_string "123")) in
  bytecache.reachable c
  ∧ bytecache.shards c !! 3%nat = Some (bytecache.shard c key)
  ∧ is_Some (bytecache.items (bytecache.shard c key)
             !! bytecache.string_of key)
  ∧ 3%nat = Z.to_nat (bytecache.shardIndex key).
Proof.
  intros key c.
  assert (bytecache.reachable c) as Hc
    by (apply bytecache.reach_Set, bytecache.reach_New).
  assert (bytecache.shards c !! 3%nat = Some (bytecache.shard c key)) as Hs
    by (vm_compute; reflexivity).
  assert (is_Some (bytecache.items (bytecache.shard c key)
                   !! bytecache.string_of key)) as Hk
    by (eexists; vm_compute; reflexivity).
  split; [exact Hc|]. split; [exact Hs|]. split; [exact Hk|].
  exact (proj1 (bytecache_key_in_one_shard c key 3 _ Hc Hs Hk)).
Defined.

Lemma bytecache_Set_Get_round_trip_witness :
  let key := Some (String.list_byte_of_string "ab") in
  let value := Some (String.list_byte_of_string "123") in
  let c := bytecache.New 2560 in
  bytecache.reachable c
  ∧ bytecache.len key + bytecache.len value
    ≤ bytecache.maxSize (bytecache.shard c key)
  ∧ default [] (bytecache.Get (bytecache.Set_ c key value) None key).1
    = default [] value.
Proof.
  intros key value c.
  assert (bytecache.reachable c) as Hc by apply bytecache.reach_New.
  assert (bytecache.len key + bytecache.len value
          ≤ bytecache.maxSize (bytecache.shard c key)) as Hfit
    by (vm_compute; discriminate).
  destruct (bytecache_Set_Get_round_trip c None key value Hc Hfit)
    as (_ & _ & _ & Hget).
  split; [exact Hc|]. split; [exact Hfit|exact Hget].
Defined.

Lemma bytecache_empty_value_reads_as_miss_witness :
  let key := Some (String.list_byte_of_string "ab") in
  let value : bytecache.slice := Some [] in
  let c := bytecache.New 2560 in
  bytecache.reachable c
  ∧ bytecache.len value = 0
  ∧ bytecache.len key ≤ bytecache.maxSize (bytecache.shard c key)
  ∧ bytecache.Has (bytecache.Set_ c key value) key = true
  ∧ (bytecache.Get (bytecache.Set_ c key value) None key).1 = None.
Proof.
  intros key value c.
  assert (bytecache.reachable c) as Hc by apply bytecache.reach_New.
  assert (bytecache.len value = 0) as Hempty by reflexivity.
  assert (bytecache.len key ≤ bytecache.maxSize (bytecache.shard c key))
    as Hfit by (vm_compute; discriminate).
  destruct (bytecache_empty_value_reads_as_miss c None key value Hc Hempty Hfit)
    as (Hhas & Hget).
  split; [exact Hc|]. split; [exact Hempty|]. split; [exact Hfit|].
  split; [exact Hhas|exact Hget].
Defined.


Lemma bytecache_Reset_empties_witness :
  let key := Some (String.list_byte_of_string "ab") in
  let c := bytecache.Set_ (bytecache.New 2560) key
             (Some (String.list_byte_of_string "123")) in
  bytecache.reachable c
  ∧ bytecache.Has (bytecache.Reset c) key = false.
Proof.
  intros key c.
  assert (bytecache.reachable c) as Hc
    by (apply bytecache.reach_Set, bytecache.reach_New).
  split; [exact Hc|].
  exact (proj1 (bytecache_Reset_empties c key
                  (bytecache.mkStats 0 0 0 0 0 0) Hc)).
Defined.

Lemma bytecache_insert_restores_budget_witness :
  let ab := Some (String.list_byte_of_string "ab") in
  let ba := Some (String.list_byte_of_string "ba") in
  let v3 := Some (String.list_byte_of_string "123") in
  let v8 := Some (String.list_byte_of_string "12345678") in
  let c := bytecache.Set_
             (bytecache.Set_ (bytecache.Set_ (bytecache.New 2560) ab v3) ba v3)
             ab v8 in
  let key := Some (String.list_byte_of_string "c`") in
  bytecache.reachable c
  ∧ bytecache.usage (bytecache.shard c key) = 15
  ∧ bytecache.items (bytecache.shard c key) !! bytecache.string_of key = None
  ∧ bytecache.len key + bytecache.len v3
    ≤ bytecache.maxSize (bytecache.shard c key)
  ∧ bytecache.usage (bytecache.shard c key)
    + bytecache.maxSize (bytecache.shard c key) < 2 ^ 63
  ∧ bytecache.usage (bytecache.shard (bytecache.Set_ c key v3) key)
    ≤ bytecache.maxSize (bytecache.shard (bytecache.Set_ c key v3) key).
Proof.
  intros ab ba v3 v8 c key.
  assert (bytecache.reachable c) as Hc
    by (apply bytecache.reach_Set, bytecache.reach_Set, bytecache.reach_Set,
          bytecache.reach_New).
  assert (bytecache.usage (bytecache.shard c key) = 15) as Hu
    by (vm_compute; reflexivity).
  assert (bytecache.items (bytecache.shard c key) !! bytecache.string_of key
          = None) as Hk by (vm_compute; reflexivity).
  assert (bytecache.len key + bytecache.len v3
          ≤ bytecache.maxSize (bytecache.shard c key)) as Hfit
    by (vm_compute; discriminate).
  assert (bytecache.usage (bytecache.shard c key)
          + bytecache.maxSize (bytecache.shard c key) < 2 ^ 63) as Hover
    by (vm_compute; reflexivity).
  split; [exact Hc|]. split; [exact Hu|]. split; [exact Hk|].
  split; [exact Hfit|]. split; [exact Hover|].
  exact (proj1 (proj2
           (bytecache_insert_restores_budget c key v3 Hc Hk Hfit Hover))).
Defined.

Lemma bytecache_Set_updates_in_place_witness :
  let ab := Some (String.list_byte_of_string "ab") in
  let ba := Some (String.list_byte_of_string "ba") in
  let v3 := Some (String.list_byte_of_string "123") in
  let v8 := Some (String.list_byte_of_string "12345678") in
  let c := bytecache.Set_ (bytecache.Set_ (bytecache.New 2560) ab v3) ba v3 in
  bytecache.reachable c
  ∧ bytecache.items (bytecache.shard c ab) !! bytecache.string_of ab
    = Some {| bytecache.value := v3; bytecache.size := 5 |}
  ∧ bytecache.len ab + bytecache.len v8
    ≤ bytecache.maxSize (bytecache.shard c ab)
  ∧ bytecache.usage (bytecache.shard (bytecache.Set_ c ab v8) ab)
    = bytecache.usage (bytecache.shard c ab) - 5
      + (bytecache.len ab + bytecache.len v8).
Proof.
  intros ab ba v3 v8 c.
  assert (bytecache.reachable c) as Hc
    by (apply bytecache.reach_Set, bytecache.reach_Set, bytecache.reach_New).
  assert (bytecache.items (bytecache.shard c ab) !! bytecache.string_of ab
          = Some {| bytecache.value := v3; bytecache.size := 5 |}) as Hk
    by (vm_compute; reflexivity).
  assert (bytecache.len ab + bytecache.len v8
          ≤ bytecache.maxSize (bytecache.shard c ab)) as Hfit
    by (vm_compute; discriminate).
  split; [exact Hc|]. split; [exact Hk|]. split; [exact Hfit|].
  exact (proj2 (proj2
           (bytecache_Set_updates_in_place c ab v8 _ Hc Hk Hfit))).
Defined.

Lemma Flush_drops_callback_witness :
  let record := fun (k v : string) (log : list string) => log ++ [k] in
  ∃ c' : lrucontainer.Cache string string (list string),
    lrucontainer.bind lrucontainer.Flush (fun _ =>
      lrucontainer.bind (lrucontainer.Put "x" "value-x") (fun _ =>
        lrucontainer.bind (lrucontainer.Put "y" "value-y") (fun _ =>
          lrucontainer.Put "z" "value-z")))
      (lrucontainer.NewCacheWithOnEvict 2 (Some record), [])
    = lrucontainer.Returns (tt, (c', []))
    ∧ container.lookup (lrucontainer.containerCache c') !! "x" = None.
Proof.
  intros record.
  destruct (Flush_drops_callback (K:=string) (V:=string) (W:=list string)
              "x" "y" "z" "value-x" "value-y" "value-z" record [])
    as (c' & Hrun & _ & Hx & _); [discriminate..|].
  exists c'. split; [exact Hrun|exact Hx].
Defined.

Lemma dualmap_Evict_Flush_PortionFilled_witness :
  let c := dualmap.Put (dualmap.NewDualMapCache (K:=string) (V:=string) tt)
             "a" "apple" in
  "b" ≠ "a"
  ∧ dualmap.Get "" (dualmap.Evict c "a") "a" = ("", false)
  ∧ dualmap.PortionFilled (dualmap.Put c "a" "avocado") = Finite 1%Qc.
Proof.
  intros c.
  assert ("b" ≠ "a") as Hne by discriminate.
  destruct (dualmap_Evict_Flush_PortionFilled "" c "a" "avocado" "b" Hne)
    as (Hget & _ & _ & _ & Hfill & _).
  split; [exact Hne|]. split; [exact Hget|exact Hfill].
Defined.
